(** * club::transport::SocketImpl (src/club/transport/socket.h)

    A shallow embedding of the per-peer socket endpoint: the receive path
    (on_receive, handle_message and the per-type handlers), the send loop
    (start_sending, encode_payload, try_encode), close and handle_error.

    The endpoint is single threaded: every entry point runs to completion on
    the io_service.  Each C++ member function becomes a function on the
    record [SocketImpl]; what the endpoint does to the outside world (user
    callbacks, UDP sends, the receive it posts) is appended to the [trace]
    field of that record.

    Classes that socket.h uses but that live in other headers (AckSet,
    binary::encoder, OutMessage, InMessagePart, PendingMessage,
    TransmitQueue) are either parameters of the development or small models
    marked as such.  punch_hole lives in another header too: the call
    rendezvous_connect makes of it is an event of the trace, and its
    completion, the handler on_punch, an input of the machine.  Assertions
    are taken to hold; the one that can fail on an input, in on_send, is
    modelled by a partial function. *)

From Stdlib Require Import ZArith List Bool Lia Sorted.
From Stdlib Require Import Strings.Byte.
Import ListNotations.
Local Open Scope Z_scope.

(** ** Sequence numbers *)

(** SequenceNumber is an unsigned 32-bit integer; [x + 1] wraps. *)
Definition SequenceNumber : Type := Z.

Definition sn_modulus : Z := 2 ^ 32.

Definition sn_succ (sn : SequenceNumber) : SequenceNumber :=
  (sn + 1) mod sn_modulus.

(** [SocketImpl::packet_size] *)
Definition packet_size : Z := 1452.

(** [keepalive_period()], in milliseconds *)
Definition keepalive_period : Z := 200.

(** [recv_timeout_duration()], in milliseconds *)
Definition recv_timeout_duration : Z := keepalive_period * 5.

(** ** Enumerations *)

Inductive SendState : Type := sending | waiting | pending.

Module MessageType.
(** The five tags of the enum, and [unrecognised] for any other value the
    decoder may put in the field (the [default:] branch of
    handle_message). *)
Inductive t : Type :=
| sync | keep_alive | unreliable | reliable | close | unrecognised.
End MessageType.

(** boost::system::error_code, as far as socket.h tells the values apart. *)
Inductive error_code : Type :=
| success
| operation_aborted
| connection_reset
| parse_error
| timed_out
| io_error (code : Z).

(** [if (error)] *)
Definition is_error (e : error_code) : bool :=
  match e with success => false | _ => true end.

Definition is_operation_aborted (e : error_code) : bool :=
  match e with operation_aborted => true | _ => false end.

(** ** UDP endpoints *)

Inductive ip_address : Type :=
| address_v4 (a : Z)
| address_v6 (a : Z).

Definition is_unspecified (a : ip_address) : bool :=
  match a with
  | address_v4 x => x =? 0
  | address_v6 x => x =? 0
  end.

Definition is_loopback (a : ip_address) : bool :=
  match a with
  | address_v4 x => Z.shiftr x 24 =? 127
  | address_v6 x => x =? 1
  end.

Definition ip_address_eqb (a b : ip_address) : bool :=
  match a, b with
  | address_v4 x, address_v4 y => x =? y
  | address_v6 x, address_v6 y => x =? y
  | _, _ => false
  end.

Record udp_endpoint : Type := mk_endpoint {
  address : ip_address;
  port : Z
}.

Definition endpoint_eqb (a b : udp_endpoint) : bool :=
  ip_address_eqb (address a) (address b) && (port a =? port b).

(** A default-constructed udp::endpoint: 0.0.0.0:0. *)
Definition default_endpoint : udp_endpoint := mk_endpoint (address_v4 0) 0.

(** ** Messages *)

Definition size_of (payload : list byte) : Z := Z.of_nat (length payload).

Module OutMessage.
(** Modelled from the spec: transport::OutMessage, absent from the sources;
    the fields of the Out Message, which are those socket.h reads and
    writes. *)
Record t : Type := mk {
  resend_until_acked : bool;
  type : MessageType.t;
  sequence_number : SequenceNumber;
  payload : list byte;
  bytes_already_sent : Z
}.

Definition payload_size (m : t) : Z := size_of (payload m).

Definition set_bytes_already_sent (n : Z) (m : t) : t :=
  mk (resend_until_acked m) (type m) (sequence_number m) (payload m) n.

(** The constructor used by add_message and close:
    OutMessage(resend_until_acked, type, sn, payload). *)
Definition make (r : bool) (ty : MessageType.t) (sn : SequenceNumber)
    (data : list byte) : t :=
  mk r ty sn data 0.

(** The same message, whatever its cursor. *)
Definition same_message (a b : t) : Prop :=
  resend_until_acked a = resend_until_acked b
  /\ type a = type b
  /\ sequence_number a = sequence_number b
  /\ payload a = payload b.
End OutMessage.

Module InMessageFull.
(** Modelled from the spec: InMessageFull, absent from the sources; a whole
    message, of which socket.h reads the sequence number and the payload. *)
Record t : Type := mk {
  sequence_number : SequenceNumber;
  payload : list byte
}.
End InMessageFull.

Module InMessagePart.
(** Modelled from the spec: InMessagePart, absent from the sources; one
    decoded message part, with the header fields of the wire layout and the
    bytes of the chunk. *)
Record t : Type := mk {
  type : MessageType.t;
  sequence_number : SequenceNumber;
  original_size : Z;
  chunk_start : Z;
  payload : list byte
}.

(** Modelled from the spec: InMessagePart::is_complete, absent from the
    sources; a part is a whole message when its chunk starts at 0 and its
    length is the total size. *)
Definition is_complete (m : t) : bool :=
  (chunk_start m =? 0) && (size_of (payload m) =? original_size m).

(** Modelled from the spec: InMessagePart::get_complete_message, absent
    from the sources; Some only when chunk_start == 0 and the chunk length
    equals the total size. *)
Definition get_complete_message (m : t) : option InMessageFull.t :=
  if is_complete m
  then Some (InMessageFull.mk (sequence_number m) (payload m))
  else None.
End InMessagePart.

Module PendingMessage.
(** Modelled from the spec: the Pending In Message, absent from the
    sources; a sequence number, the total size, a buffer pre-allocated to
    the total size and the byte ranges already written, each as
    (first offset, one past the last offset). *)
Record t : Type := mk {
  sequence_number : SequenceNumber;
  total_size : Z;
  payload : list byte;
  coverage : list (Z * Z)
}.

(** Copy [chunk] into [buf] from offset [start] on; bytes that would fall
    outside of the buffer are not written. *)
Fixpoint write_at (buf : list byte) (start : nat) (chunk : list byte)
    : list byte :=
  match buf with
  | [] => []
  | b :: buf' =>
      match start with
      | S start' => b :: write_at buf' start' chunk
      | O =>
          match chunk with
          | [] => buf
          | c :: chunk' => c :: write_at buf' O chunk'
          end
      end
  end.

(** Modelled from the spec: PendingMessage::update_payload, absent from the
    sources; copies the bytes into the buffer at chunk_start and adds the
    covered range. *)
Definition update_payload (start : Z) (chunk : list byte) (pm : t) : t :=
  mk (sequence_number pm) (total_size pm)
     (write_at (payload pm) (Z.to_nat start) chunk)
     ((start, Z.min (start + size_of chunk) (total_size pm)) :: coverage pm).

Definition covered (cov : list (Z * Z)) (offset : Z) : bool :=
  existsb (fun r => (fst r <=? offset) && (offset <? snd r)) cov.

(** Modelled from the spec: PendingMessage::is_complete, absent from the
    sources; the coverage is the whole of [0, total_size). *)
Definition is_complete (pm : t) : bool :=
  forallb (fun i => covered (coverage pm) (Z.of_nat i))
          (seq 0 (Z.to_nat (total_size pm))).

(** Modelled from the spec: PendingMessage::get_complete_message, absent
    from the sources; the buffer, once the message is complete. *)
Definition get_complete_message (pm : t) : option InMessageFull.t :=
  if is_complete pm
  then Some (InMessageFull.mk (sequence_number pm) (payload pm))
  else None.

(** Modelled from the spec: the constructor PendingMessage(InMessagePart),
    absent from the sources; the buffer is allocated to the total size and
    the part's chunk is the first range written. *)
Definition of_part (m : InMessagePart.t) : t :=
  update_payload (InMessagePart.chunk_start m) (InMessagePart.payload m)
    (mk (InMessagePart.sequence_number m) (InMessagePart.original_size m)
        (repeat x00 (Z.to_nat (InMessagePart.original_size m))) []).
End PendingMessage.

(** [std::map<SequenceNumber, PendingMessage>]: the entries in increasing key
    order, which is the order replay_pending_messages walks them in. *)
Definition PendingMessages : Type := list (SequenceNumber * PendingMessage.t).

Module PendingMap.
Fixpoint find (k : SequenceNumber) (m : PendingMessages)
    : option PendingMessage.t :=
  match m with
  | [] => None
  | (k', v) :: m' => if k' =? k then Some v else find k m'
  end.

(** [emplace] on a key that is not in the map. *)
Fixpoint emplace (k : SequenceNumber) (v : PendingMessage.t)
    (m : PendingMessages) : PendingMessages :=
  match m with
  | [] => [(k, v)]
  | (k', v') :: m' =>
      if k <? k' then (k, v) :: m
      else if k =? k' then m
      else (k', v') :: emplace k v m'
  end.

(** Apply [f] to the entry [find] returns (the update through the
    iterator). *)
Fixpoint update (k : SequenceNumber) (f : PendingMessage.t -> PendingMessage.t)
    (m : PendingMessages) : PendingMessages :=
  match m with
  | [] => []
  | (k', v) :: m' =>
      if k' =? k then (k', f v) :: m' else (k', v) :: update k f m'
  end.
End PendingMap.

Module TransmitQueue.
(** Modelled from the spec: transport::TransmitQueue, absent from the
    sources; an ordered collection with a persistent cursor.  The list is
    kept in cycle order: its head is the element the next cycle() starts
    at. *)
Definition t : Type := list OutMessage.t.

Definition empty : t := [].

(** insert / emplace: the new message is the last of the current cycle. *)
Definition insert (m : OutMessage.t) (q : t) : t := q ++ [m].

(** The queue after a cycle that ran to its end: the elements that were
    kept, in their order. *)
Definition after_full_cycle (kept : list OutMessage.t) : t := kept.

(** The queue after a cycle that stopped at [current]: the next cycle
    resumes after the element the previous one stopped at. *)
Definition after_break (kept : list OutMessage.t) (current : OutMessage.t)
    (rest : list OutMessage.t) : t :=
  rest ++ kept ++ [current].
End TransmitQueue.

(** ** User callbacks *)

(** What a user callback does to the endpoint while it runs: it may register
    callbacks again (the slots are one-shot), close the endpoint or destroy
    it.  These are the reactions the code guards against after every
    invocation.  A callback that sends from inside its body is outside of
    this model. *)
Inductive UserCode : Type :=
| done
| then_receive_reliable (cb : UserCode) (k : UserCode)
| then_receive_unreliable (cb : UserCode) (k : UserCode)
| then_flush (cb : UserCode) (k : UserCode)
| then_close (k : UserCode)
| then_destroy.

(** A reliable callback that registers itself again, [n] times over. *)
Fixpoint rearming (n : nat) : UserCode :=
  match n with
  | O => done
  | S n' => then_receive_reliable (rearming n') done
  end.

(** The slot of the reliable callback once [rearming n] has run. *)
Definition slot_after (n : nat) : option UserCode :=
  match n with
  | O => None
  | S n' => Some (rearming n')
  end.

Inductive Stream : Type := reliable_stream | unreliable_stream.

(** ** Collaborators taken as parameters *)

(** transport::AckSet, absent from the sources.  socket.h discards the
    boolean that try_add returns, so only the updated set is kept. *)
Class AckSetOps (AckSet : Type) : Type := {
  ack_set_empty : AckSet;
  try_add : AckSet -> SequenceNumber -> AckSet;
  can_add : AckSet -> SequenceNumber -> bool;
  is_in : AckSet -> SequenceNumber -> bool;
  ack_set_wire_size : AckSet -> Z
}.

(** [OutMessage::header_size], absent from the sources. *)
Class OutMessageLayout : Type := {
  header_size : Z
}.

Section Socket.

Context {AckSet : Type} {ack_set_ops : AckSetOps AckSet}.
Context {layout : OutMessageLayout}.

(** ** The encoder *)

(** What the encoder has written, item by item: the ack set, the 16-bit
    message count, and message parts as the peer's decoder yields them. *)
Inductive WireItem : Type :=
| wire_acks (a : AckSet)
| wire_count (n : Z)
| wire_part (resend_until_acked : bool) (p : InMessagePart.t).

Definition wire_size (i : WireItem) : Z :=
  match i with
  | wire_acks a => ack_set_wire_size a
  | wire_count _ => 2
  | wire_part _ p => header_size + size_of (InMessagePart.payload p)
  end.

Definition wire_size_all (items : list WireItem) : Z :=
  fold_right (fun i n => wire_size i + n) 0 items.

(** Modelled from the spec: binary::encoder, absent from the sources, as
    socket.h uses it; a buffer of fixed capacity, the number of bytes written
    so far and an error flag that a write past the end raises instead of
    writing. *)
Record encoder : Type := mk_encoder {
  capacity : Z;
  written : Z;
  error : bool;
  items : list WireItem
}.

(** [binary::encoder encoder(buffer)] over a buffer of [size] bytes *)
Definition encoder_on (size : Z) : encoder := mk_encoder size 0 false [].

Definition remaining_size (e : encoder) : Z := capacity e - written e.

Definition put (i : WireItem) (e : encoder) : encoder :=
  if error e then e
  else if wire_size i <=? remaining_size e
       then mk_encoder (capacity e) (written e + wire_size i) false
                       (items e ++ [i])
       else mk_encoder (capacity e) (written e) true (items e).

Fixpoint replace_nth (n : nat) (i : WireItem) (l : list WireItem)
    : list WireItem :=
  match l, n with
  | [], _ => []
  | _ :: l', O => i :: l'
  | x :: l', S n' => x :: replace_nth n' i l'
  end.

(** [count_encoder.put<uint16_t>(count)]: [count_encoder] is the copy of the
    encoder taken before the placeholder was written, so the write lands on
    the placeholder. *)
Definition put_count_at (count_encoder : encoder) (count : Z) (e : encoder)
    : encoder :=
  if error count_encoder then e
  else if 2 <=? remaining_size count_encoder
       then mk_encoder (capacity e) (written e) (error e)
              (replace_nth (length (items count_encoder))
                           (wire_count (count mod 2 ^ 16)) (items e))
       else e.

(** Modelled from the spec: OutMessage::encode_header_and_payload, absent from
    the sources; writes the header and as many payload bytes from [offset] as
    fit in the encoder's remaining buffer, and returns how many (a
    uint16_t). *)
Definition encode_header_and_payload (e : encoder) (m : OutMessage.t)
    (offset : Z) : Z * encoder :=
  if error e then (0, e)
  else if remaining_size e <? header_size
       then (0, mk_encoder (capacity e) (written e) true (items e))
       else
         let n := Z.max 0 (Z.min (Z.min (OutMessage.payload_size m - offset)
                                        (remaining_size e - header_size))
                                 65535) in
         let chunk := firstn (Z.to_nat n)
                        (skipn (Z.to_nat offset) (OutMessage.payload m)) in
         (size_of chunk,
          put (wire_part (OutMessage.resend_until_acked m)
                 (InMessagePart.mk (OutMessage.type m)
                    (OutMessage.sequence_number m)
                    (OutMessage.payload_size m) offset chunk)) e).

(** [SocketImpl::encode] *)
Definition encode (e : encoder) (m : OutMessage.t) : encoder * OutMessage.t :=
  let m :=
    if OutMessage.bytes_already_sent m =? OutMessage.payload_size m
    then OutMessage.set_bytes_already_sent 0 m else m in
  let '(payload_size, e) :=
    encode_header_and_payload e m (OutMessage.bytes_already_sent m) in
  if error e then (e, m)
  else (e, OutMessage.set_bytes_already_sent
             (OutMessage.bytes_already_sent m + payload_size) m).

(** [SocketImpl::try_encode] *)
Definition try_encode (e : encoder) (m : OutMessage.t)
    : bool * encoder * OutMessage.t :=
  let minimal_encoded_size :=
    header_size + Z.min 1 (OutMessage.payload_size m) in
  if minimal_encoded_size >? remaining_size e then (false, e, m)
  else let '(e, m) := encode e m in (true, e, m).

(** The cycle of [encode_payload] over the transmit queue.  [kept] are the
    elements the cursor has passed and left in the queue, [rest] starts at
    the cursor. *)
Fixpoint encode_payload_cycle (acked : AckSet) (e : encoder) (count : Z)
    (kept rest : list OutMessage.t) : Z * encoder * TransmitQueue.t :=
  match rest with
  | [] => (count, e, TransmitQueue.after_full_cycle kept)
  | mi :: rest' =>
      if OutMessage.resend_until_acked mi
         && is_in acked (OutMessage.sequence_number mi)
      then encode_payload_cycle acked e count kept rest'
      else
        match try_encode e mi with
        | (false, e, mi) => (count, e, TransmitQueue.after_break kept mi rest')
        | (true, e, mi) =>
            let count := count + 1 in
            if negb (OutMessage.bytes_already_sent mi
                     =? OutMessage.payload_size mi)
            then (count, e, TransmitQueue.after_break kept mi rest')
            else if negb (OutMessage.resend_until_acked mi)
            then encode_payload_cycle acked e count kept rest'
            else encode_payload_cycle acked e count (kept ++ [mi]) rest'
        end
  end.

(** A UDP datagram as sent: its length and what it carries. *)
Record Packet : Type := mk_packet {
  packet_length : Z;
  packet_items : list WireItem
}.

(** The first [written] bytes of the buffer under the encoder. *)
Definition packet_of (e : encoder) : Packet :=
  mk_packet (written e) (items e).

(** ** The trace *)

(** What the endpoint does to the outside.  In [ev_on_receive] the callback
    of stream [s] is called with [e] and [buffer]; [sn] is the sequence
    number of the message handed over, None when the call reports an
    error.  [ev_on_connect] is the call of the handler that was given to
    rendezvous_connect, and [ev_punch_hole] the call of punch_hole with the
    packet it is to send and the address it is to send it to. *)
Inductive Event : Type :=
| ev_on_receive (s : Stream) (e : error_code) (sn : option SequenceNumber)
    (buffer : list byte)
| ev_on_flush
| ev_on_connect (e : error_code)
| ev_async_send_to (p : Packet) (destination : udp_endpoint)
| ev_send_to (p : Packet) (destination : udp_endpoint)
| ev_punch_hole (p : Packet) (destination : udp_endpoint)
| ev_async_receive_from.

(** ** The state of the endpoint *)

Record Sync : Type := mk_Sync {
  last_used_reliable_sn : SequenceNumber;
  last_used_unreliable_sn : SequenceNumber
}.

(** The members of SocketImpl, with [was_destroyed] and [rx_endpoint] of the
    shared SocketState.  [socket_is_open] stands for the UDP socket, and
    [timer] and the two alarms hold the delay they are armed with, None when
    they are not armed. *)
Record SocketImpl : Type := mkSocketImpl {
  send_state : SendState;
  socket_is_open : bool;
  remote_endpoint : udp_endpoint;
  transmit_queue : TransmitQueue.t;
  timer : option Z;
  was_destroyed : bool;
  rx_endpoint : udp_endpoint;
  sync : option Sync;
  pending_reliable_messages : PendingMessages;
  pending_unreliable_message : option PendingMessage.t;
  schedule_sending_acks : bool;
  received_message_ids_by_peer : AckSet;
  received_message_ids : AckSet;
  next_reliable_sn : SequenceNumber;
  next_unreliable_sn : SequenceNumber;
  on_receive_reliable : option UserCode;
  on_receive_unreliable : option UserCode;
  on_flush : option UserCode;
  recv_timeout_alarm : option Z;
  send_keepalive_alarm : option Z;
  trace : list Event
}.

(** One function per field to write it; the record is otherwise left as
    it is. *)
Definition set_send_state (v : SendState) (s : SocketImpl) : SocketImpl :=
    mkSocketImpl v (socket_is_open s) (remote_endpoint s) (transmit_queue s)
     (timer s) (was_destroyed s) (rx_endpoint s) (sync s)
     (pending_reliable_messages s) (pending_unreliable_message s)
     (schedule_sending_acks s) (received_message_ids_by_peer s)
     (received_message_ids s) (next_reliable_sn s) (next_unreliable_sn s)
     (on_receive_reliable s) (on_receive_unreliable s) (on_flush s)
     (recv_timeout_alarm s) (send_keepalive_alarm s) (trace s).

Definition set_socket_is_open (v : bool) (s : SocketImpl) : SocketImpl :=
    mkSocketImpl (send_state s) v (remote_endpoint s) (transmit_queue s)
     (timer s) (was_destroyed s) (rx_endpoint s) (sync s)
     (pending_reliable_messages s) (pending_unreliable_message s)
     (schedule_sending_acks s) (received_message_ids_by_peer s)
     (received_message_ids s) (next_reliable_sn s) (next_unreliable_sn s)
     (on_receive_reliable s) (on_receive_unreliable s) (on_flush s)
     (recv_timeout_alarm s) (send_keepalive_alarm s) (trace s).

Definition set_remote_endpoint (v : udp_endpoint) (s : SocketImpl)
    : SocketImpl :=
    mkSocketImpl (send_state s) (socket_is_open s) v (transmit_queue s)
     (timer s) (was_destroyed s) (rx_endpoint s) (sync s)
     (pending_reliable_messages s) (pending_unreliable_message s)
     (schedule_sending_acks s) (received_message_ids_by_peer s)
     (received_message_ids s) (next_reliable_sn s) (next_unreliable_sn s)
     (on_receive_reliable s) (on_receive_unreliable s) (on_flush s)
     (recv_timeout_alarm s) (send_keepalive_alarm s) (trace s).

Definition set_transmit_queue (v : TransmitQueue.t) (s : SocketImpl)
    : SocketImpl :=
    mkSocketImpl (send_state s) (socket_is_open s) (remote_endpoint s) v
     (timer s) (was_destroyed s) (rx_endpoint s) (sync s)
     (pending_reliable_messages s) (pending_unreliable_message s)
     (schedule_sending_acks s) (received_message_ids_by_peer s)
     (received_message_ids s) (next_reliable_sn s) (next_unreliable_sn s)
     (on_receive_reliable s) (on_receive_unreliable s) (on_flush s)
     (recv_timeout_alarm s) (send_keepalive_alarm s) (trace s).

Definition set_timer (v : option Z) (s : SocketImpl) : SocketImpl :=
    mkSocketImpl (send_state s) (socket_is_open s) (remote_endpoint s)
     (transmit_queue s) v (was_destroyed s) (rx_endpoint s) (sync s)
     (pending_reliable_messages s) (pending_unreliable_message s)
     (schedule_sending_acks s) (received_message_ids_by_peer s)
     (received_message_ids s) (next_reliable_sn s) (next_unreliable_sn s)
     (on_receive_reliable s) (on_receive_unreliable s) (on_flush s)
     (recv_timeout_alarm s) (send_keepalive_alarm s) (trace s).

Definition set_was_destroyed (v : bool) (s : SocketImpl) : SocketImpl :=
    mkSocketImpl (send_state s) (socket_is_open s) (remote_endpoint s)
     (transmit_queue s) (timer s) v (rx_endpoint s) (sync s)
     (pending_reliable_messages s) (pending_unreliable_message s)
     (schedule_sending_acks s) (received_message_ids_by_peer s)
     (received_message_ids s) (next_reliable_sn s) (next_unreliable_sn s)
     (on_receive_reliable s) (on_receive_unreliable s) (on_flush s)
     (recv_timeout_alarm s) (send_keepalive_alarm s) (trace s).

Definition set_rx_endpoint (v : udp_endpoint) (s : SocketImpl) : SocketImpl :=
    mkSocketImpl (send_state s) (socket_is_open s) (remote_endpoint s)
     (transmit_queue s) (timer s) (was_destroyed s) v (sync s)
     (pending_reliable_messages s) (pending_unreliable_message s)
     (schedule_sending_acks s) (received_message_ids_by_peer s)
     (received_message_ids s) (next_reliable_sn s) (next_unreliable_sn s)
     (on_receive_reliable s) (on_receive_unreliable s) (on_flush s)
     (recv_timeout_alarm s) (send_keepalive_alarm s) (trace s).

Definition set_sync (v : option Sync) (s : SocketImpl) : SocketImpl :=
    mkSocketImpl (send_state s) (socket_is_open s) (remote_endpoint s)
     (transmit_queue s) (timer s) (was_destroyed s) (rx_endpoint s) v
     (pending_reliable_messages s) (pending_unreliable_message s)
     (schedule_sending_acks s) (received_message_ids_by_peer s)
     (received_message_ids s) (next_reliable_sn s) (next_unreliable_sn s)
     (on_receive_reliable s) (on_receive_unreliable s) (on_flush s)
     (recv_timeout_alarm s) (send_keepalive_alarm s) (trace s).

Definition set_pending_reliable_messages (v : PendingMessages) (s : SocketImpl)
    : SocketImpl :=
    mkSocketImpl (send_state s) (socket_is_open s) (remote_endpoint s)
     (transmit_queue s) (timer s) (was_destroyed s) (rx_endpoint s) (sync s) v
     (pending_unreliable_message s) (schedule_sending_acks s)
     (received_message_ids_by_peer s) (received_message_ids s)
     (next_reliable_sn s) (next_unreliable_sn s) (on_receive_reliable s)
     (on_receive_unreliable s) (on_flush s) (recv_timeout_alarm s)
     (send_keepalive_alarm s) (trace s).

Definition set_pending_unreliable_message (v : option PendingMessage.t)
    (s : SocketImpl) : SocketImpl :=
    mkSocketImpl (send_state s) (socket_is_open s) (remote_endpoint s)
     (transmit_queue s) (timer s) (was_destroyed s) (rx_endpoint s) (sync s)
     (pending_reliable_messages s) v (schedule_sending_acks s)
     (received_message_ids_by_peer s) (received_message_ids s)
     (next_reliable_sn s) (next_unreliable_sn s) (on_receive_reliable s)
     (on_receive_unreliable s) (on_flush s) (recv_timeout_alarm s)
     (send_keepalive_alarm s) (trace s).

Definition set_schedule_sending_acks (v : bool) (s : SocketImpl) : SocketImpl :=
    mkSocketImpl (send_state s) (socket_is_open s) (remote_endpoint s)
     (transmit_queue s) (timer s) (was_destroyed s) (rx_endpoint s) (sync s)
     (pending_reliable_messages s) (pending_unreliable_message s) v
     (received_message_ids_by_peer s) (received_message_ids s)
     (next_reliable_sn s) (next_unreliable_sn s) (on_receive_reliable s)
     (on_receive_unreliable s) (on_flush s) (recv_timeout_alarm s)
     (send_keepalive_alarm s) (trace s).

Definition set_received_message_ids_by_peer (v : AckSet) (s : SocketImpl)
    : SocketImpl :=
    mkSocketImpl (send_state s) (socket_is_open s) (remote_endpoint s)
     (transmit_queue s) (timer s) (was_destroyed s) (rx_endpoint s) (sync s)
     (pending_reliable_messages s) (pending_unreliable_message s)
     (schedule_sending_acks s) v (received_message_ids s) (next_reliable_sn s)
     (next_unreliable_sn s) (on_receive_reliable s) (on_receive_unreliable s)
     (on_flush s) (recv_timeout_alarm s) (send_keepalive_alarm s) (trace s).

Definition set_received_message_ids (v : AckSet) (s : SocketImpl)
    : SocketImpl :=
    mkSocketImpl (send_state s) (socket_is_open s) (remote_endpoint s)
     (transmit_queue s) (timer s) (was_destroyed s) (rx_endpoint s) (sync s)
     (pending_reliable_messages s) (pending_unreliable_message s)
     (schedule_sending_acks s) (received_message_ids_by_peer s) v
     (next_reliable_sn s) (next_unreliable_sn s) (on_receive_reliable s)
     (on_receive_unreliable s) (on_flush s) (recv_timeout_alarm s)
     (send_keepalive_alarm s) (trace s).

Definition set_next_reliable_sn (v : SequenceNumber) (s : SocketImpl)
    : SocketImpl :=
    mkSocketImpl (send_state s) (socket_is_open s) (remote_endpoint s)
     (transmit_queue s) (timer s) (was_destroyed s) (rx_endpoint s) (sync s)
     (pending_reliable_messages s) (pending_unreliable_message s)
     (schedule_sending_acks s) (received_message_ids_by_peer s)
     (received_message_ids s) v (next_unreliable_sn s) (on_receive_reliable s)
     (on_receive_unreliable s) (on_flush s) (recv_timeout_alarm s)
     (send_keepalive_alarm s) (trace s).

Definition set_next_unreliable_sn (v : SequenceNumber) (s : SocketImpl)
    : SocketImpl :=
    mkSocketImpl (send_state s) (socket_is_open s) (remote_endpoint s)
     (transmit_queue s) (timer s) (was_destroyed s) (rx_endpoint s) (sync s)
     (pending_reliable_messages s) (pending_unreliable_message s)
     (schedule_sending_acks s) (received_message_ids_by_peer s)
     (received_message_ids s) (next_reliable_sn s) v (on_receive_reliable s)
     (on_receive_unreliable s) (on_flush s) (recv_timeout_alarm s)
     (send_keepalive_alarm s) (trace s).

Definition set_on_receive_reliable (v : option UserCode) (s : SocketImpl)
    : SocketImpl :=
    mkSocketImpl (send_state s) (socket_is_open s) (remote_endpoint s)
     (transmit_queue s) (timer s) (was_destroyed s) (rx_endpoint s) (sync s)
     (pending_reliable_messages s) (pending_unreliable_message s)
     (schedule_sending_acks s) (received_message_ids_by_peer s)
     (received_message_ids s) (next_reliable_sn s) (next_unreliable_sn s) v
     (on_receive_unreliable s) (on_flush s) (recv_timeout_alarm s)
     (send_keepalive_alarm s) (trace s).

Definition set_on_receive_unreliable (v : option UserCode) (s : SocketImpl)
    : SocketImpl :=
    mkSocketImpl (send_state s) (socket_is_open s) (remote_endpoint s)
     (transmit_queue s) (timer s) (was_destroyed s) (rx_endpoint s) (sync s)
     (pending_reliable_messages s) (pending_unreliable_message s)
     (schedule_sending_acks s) (received_message_ids_by_peer s)
     (received_message_ids s) (next_reliable_sn s) (next_unreliable_sn s)
     (on_receive_reliable s) v (on_flush s) (recv_timeout_alarm s)
     (send_keepalive_alarm s) (trace s).

Definition set_on_flush (v : option UserCode) (s : SocketImpl) : SocketImpl :=
    mkSocketImpl (send_state s) (socket_is_open s) (remote_endpoint s)
     (transmit_queue s) (timer s) (was_destroyed s) (rx_endpoint s) (sync s)
     (pending_reliable_messages s) (pending_unreliable_message s)
     (schedule_sending_acks s) (received_message_ids_by_peer s)
     (received_message_ids s) (next_reliable_sn s) (next_unreliable_sn s)
     (on_receive_reliable s) (on_receive_unreliable s) v
     (recv_timeout_alarm s) (send_keepalive_alarm s) (trace s).

Definition set_recv_timeout_alarm (v : option Z) (s : SocketImpl)
    : SocketImpl :=
    mkSocketImpl (send_state s) (socket_is_open s) (remote_endpoint s)
     (transmit_queue s) (timer s) (was_destroyed s) (rx_endpoint s) (sync s)
     (pending_reliable_messages s) (pending_unreliable_message s)
     (schedule_sending_acks s) (received_message_ids_by_peer s)
     (received_message_ids s) (next_reliable_sn s) (next_unreliable_sn s)
     (on_receive_reliable s) (on_receive_unreliable s) (on_flush s) v
     (send_keepalive_alarm s) (trace s).

Definition set_send_keepalive_alarm (v : option Z) (s : SocketImpl)
    : SocketImpl :=
    mkSocketImpl (send_state s) (socket_is_open s) (remote_endpoint s)
     (transmit_queue s) (timer s) (was_destroyed s) (rx_endpoint s) (sync s)
     (pending_reliable_messages s) (pending_unreliable_message s)
     (schedule_sending_acks s) (received_message_ids_by_peer s)
     (received_message_ids s) (next_reliable_sn s) (next_unreliable_sn s)
     (on_receive_reliable s) (on_receive_unreliable s) (on_flush s)
     (recv_timeout_alarm s) v (trace s).

Definition set_trace (v : list Event) (s : SocketImpl) : SocketImpl :=
    mkSocketImpl (send_state s) (socket_is_open s) (remote_endpoint s)
     (transmit_queue s) (timer s) (was_destroyed s) (rx_endpoint s) (sync s)
     (pending_reliable_messages s) (pending_unreliable_message s)
     (schedule_sending_acks s) (received_message_ids_by_peer s)
     (received_message_ids s) (next_reliable_sn s) (next_unreliable_sn s)
     (on_receive_reliable s) (on_receive_unreliable s) (on_flush s)
     (recv_timeout_alarm s) (send_keepalive_alarm s) v.

Definition log_event (e : Event) (s : SocketImpl) : SocketImpl :=
  set_trace (trace s ++ [e]) s.

(** ** Construction, registration and close *)

(** The state the constructors leave the endpoint in; [is_open] tells
    whether the UDP socket handed to the constructor is open. *)
Definition initial (is_open : bool) : SocketImpl :=
  mkSocketImpl pending is_open default_endpoint TransmitQueue.empty None
    false default_endpoint None [] None false ack_set_empty ack_set_empty
    0 1 None None None None None [].

(** [~SocketImpl] *)
Definition destroy (s : SocketImpl) : SocketImpl := set_was_destroyed true s.

Definition receive_unreliable (on_receive : UserCode) (s : SocketImpl)
    : SocketImpl :=
  set_on_receive_unreliable (Some on_receive) s.

Definition receive_reliable (on_receive : UserCode) (s : SocketImpl)
    : SocketImpl :=
  set_on_receive_reliable (Some on_receive) s.

Definition flush (on_flush : UserCode) (s : SocketImpl) : SocketImpl :=
  set_on_flush (Some on_flush) s.

(** [add_message]: [_transmit_queue.emplace] *)
Definition add_message (r : bool) (ty : MessageType.t) (sn : SequenceNumber)
    (data : list byte) (s : SocketImpl) : SocketImpl :=
  set_transmit_queue
    (TransmitQueue.insert (OutMessage.make r ty sn data) (transmit_queue s)) s.

(** [construct_packet_with_one_message]; the message is passed by reference
    and comes back with its cursor moved. *)
Definition construct_packet_with_one_message (m : OutMessage.t)
    (s : SocketImpl) : Packet * OutMessage.t :=
  let e := encoder_on packet_size in
  let e := put (wire_acks (received_message_ids s)) e in
  let e := put (wire_count 1) e in
  let '(_, e, m) := try_encode e m in
  (packet_of e, m).

Definition sync_send_close_message (s : SocketImpl) : SocketImpl :=
  let m := OutMessage.make false MessageType.close 0 [] in
  let '(data, _) := construct_packet_with_one_message m s in
  log_event (ev_send_to data (remote_endpoint s)) s.

Definition close (s : SocketImpl) : SocketImpl :=
  let s := set_timer None s in
  let s :=
    if socket_is_open s
    then set_socket_is_open false (sync_send_close_message s)
    else s in
  let s := set_recv_timeout_alarm None s in
  set_send_keepalive_alarm None s.

(** Run the body of a user callback.  Nothing runs against an endpoint that
    has been destroyed. *)
Fixpoint run_user (code : UserCode) (s : SocketImpl) : SocketImpl :=
  if was_destroyed s then s
  else
    match code with
    | done => s
    | then_receive_reliable cb k => run_user k (receive_reliable cb s)
    | then_receive_unreliable cb k => run_user k (receive_unreliable cb s)
    | then_flush cb k => run_user k (flush cb s)
    | then_close k => run_user k (close s)
    | then_destroy => destroy s
    end.

(** [f(error, buffer)] for a receive callback [f] that was moved out of its
    slot. *)
Definition call_on_receive (st : Stream) (f : UserCode) (e : error_code)
    (sn : option SequenceNumber) (buffer : list byte) (s : SocketImpl)
    : SocketImpl :=
  run_user f (log_event (ev_on_receive st e sn buffer) s).

(** [if (r) r(err, const_buffer())] *)
Definition call_if_set (st : Stream) (r : option UserCode) (e : error_code)
    (s : SocketImpl) : SocketImpl :=
  match r with
  | Some f => call_on_receive st f e None [] s
  | None => s
  end.

Definition handle_error (err : error_code) (s : SocketImpl) : SocketImpl :=
  let s := close s in
  let r1 := on_receive_unreliable s in
  let s := set_on_receive_unreliable None s in
  let r2 := on_receive_reliable s in
  let s := set_on_receive_reliable None s in
  let s := call_if_set unreliable_stream r1 err s in
  call_if_set reliable_stream r2 err s.

Definition start_receiving (s : SocketImpl) : SocketImpl :=
  let s := set_recv_timeout_alarm (Some recv_timeout_duration) s in
  log_event ev_async_receive_from s.

(** ** The send loop *)

Definition encode_payload (e : encoder) (s : SocketImpl)
    : Z * encoder * SocketImpl :=
  let count_encoder := e in
  let e := put (wire_count 0) e in
  let '(count, e, q) :=
    encode_payload_cycle (received_message_ids_by_peer s) e 0 []
      (transmit_queue s) in
  let e := put_count_at count_encoder count e in
  (count, e, set_transmit_queue q s).

Definition start_sending (s : SocketImpl) : SocketImpl :=
  if negb (socket_is_open s) then s
  else
    match send_state s with
    | pending =>
        let e := encoder_on packet_size in
        let e := put (wire_acks (received_message_ids s)) e in
        let '(count, e, s) := encode_payload e s in
        if (count =? 0) && negb (schedule_sending_acks s)
        then
          match on_flush s with
          | Some f =>
              let s := set_on_flush None s in
              let s := run_user f (log_event ev_on_flush s) in
              if was_destroyed s then s
              else if negb (socket_is_open s) then s
              else set_send_keepalive_alarm (Some keepalive_period) s
          | None => set_send_keepalive_alarm (Some keepalive_period) s
          end
        else
          let s := set_schedule_sending_acks false s in
          let s := set_send_state sending s in
          log_event (ev_async_send_to (packet_of e) (remote_endpoint s)) s
    | _ => s
    end.

Definition send_unreliable (data : list byte) (s : SocketImpl) : SocketImpl :=
  let sn := next_unreliable_sn s in
  let s := set_next_unreliable_sn (sn_succ sn) s in
  start_sending (add_message false MessageType.unreliable sn data s).

Definition send_reliable (data : list byte) (s : SocketImpl) : SocketImpl :=
  let sn := next_reliable_sn s in
  let s := set_next_reliable_sn (sn_succ sn) s in
  start_sending (add_message true MessageType.reliable sn data s).

(** [on_send].  A completion with an error other than operation_aborted
    runs into [assert(0)]: None. *)
Definition on_send (err : error_code) (size : Z) (s : SocketImpl)
    : option SocketImpl :=
  if was_destroyed s then Some s
  else
    let s := set_send_state pending s in
    if is_error err
    then if is_operation_aborted err then Some s else None
    else
      let s := set_send_state waiting s in
      Some (set_timer
              (Some (if is_loopback (address (remote_endpoint s))
                     then 0 else 200 * size)) s).

(** The handler [on_send] gives to [_timer.async_wait]; the wait it
    completes is no longer outstanding. *)
Definition on_timer (err : error_code) (s : SocketImpl) : SocketImpl :=
  if was_destroyed s then s
  else
    let s := set_timer None (set_send_state pending s) in
    if is_error err then s else start_sending s.

(** The alarm handlers; an alarm that fires is no longer armed. *)
Definition on_recv_timeout_alarm (s : SocketImpl) : SocketImpl :=
  handle_error timed_out (set_recv_timeout_alarm None s).

Definition on_send_keepalive_alarm (s : SocketImpl) : SocketImpl :=
  let s := set_send_keepalive_alarm None s in
  start_sending (add_message false MessageType.keep_alive 0 [] s).

(** ** The receive path *)

Definition handle_acks (acks : AckSet) (s : SocketImpl) : SocketImpl :=
  set_received_message_ids_by_peer acks s.

Definition handle_sync_message (msg : InMessagePart.t) (s : SocketImpl)
    : SocketImpl :=
  let s := set_schedule_sending_acks true s in
  match sync s with
  | Some _ => s
  | None =>
      let sn := InMessagePart.sequence_number msg in
      let s := set_received_message_ids
                 (try_add (received_message_ids s) sn) s in
      set_sync (Some (mk_Sync sn sn)) s
  end.

Definition handle_close_message (s : SocketImpl) : SocketImpl :=
  handle_error connection_reset (set_socket_is_open false s).

(** [_sync->last_used_reliable_sn = sn]; the callers have checked [_sync]. *)
Definition set_last_used_reliable_sn (sn : SequenceNumber) (s : SocketImpl)
    : SocketImpl :=
  match sync s with
  | Some y => set_sync (Some (mk_Sync sn (last_used_unreliable_sn y))) s
  | None => s
  end.

Definition set_last_used_unreliable_sn (sn : SequenceNumber) (s : SocketImpl)
    : SocketImpl :=
  match sync s with
  | Some y => set_sync (Some (mk_Sync (last_used_reliable_sn y) sn)) s
  | None => s
  end.

Definition user_handle_reliable_msg (msg : InMessageFull.t) (s : SocketImpl)
    : bool * SocketImpl :=
  match on_receive_reliable s with
  | None => (false, s)
  | Some f =>
      let s := set_on_receive_reliable None s in
      let s := call_on_receive reliable_stream f success
                 (Some (InMessageFull.sequence_number msg))
                 (InMessageFull.payload msg) s in
      if was_destroyed s then (false, s)
      else
        let sn := InMessageFull.sequence_number msg in
        let s := set_received_message_ids
                   (try_add (received_message_ids s) sn) s in
        (true, set_last_used_reliable_sn sn s)
  end.

(** [_sync->last_used_reliable_sn + 1], in SequenceNumber arithmetic *)
Definition next_expected_reliable_sn (s : SocketImpl)
    : option SequenceNumber :=
  match sync s with
  | Some y => Some (sn_succ (last_used_reliable_sn y))
  | None => None
  end.

Definition is_next_expected (sn : SequenceNumber) (s : SocketImpl) : bool :=
  match next_expected_reliable_sn s with
  | Some n => sn =? n
  | None => false
  end.

(** The loop of [replay_pending_messages]: [kept] are the entries the
    iterator has passed, [rest] starts at the iterator.  The map of the
    endpoint is [kept ++ rest] throughout. *)
Fixpoint replay_loop (kept rest : PendingMessages) (s : SocketImpl)
    : SocketImpl :=
  match rest with
  | [] => s
  | (k, pm) :: rest' =>
      if is_next_expected (PendingMessage.sequence_number pm) s
      then
        match PendingMessage.get_complete_message pm with
        | None => s
        | Some full_message =>
            match user_handle_reliable_msg full_message s with
            | (false, s) => s
            | (true, s) =>
                replay_loop kept rest'
                  (set_pending_reliable_messages (kept ++ rest') s)
            end
        end
      else replay_loop (kept ++ [(k, pm)]) rest' s
  end.

Definition replay_pending_messages (s : SocketImpl) : SocketImpl :=
  replay_loop [] (pending_reliable_messages s) s.

(** The tail of [handle_reliable_message], from the [find] on. *)
Definition store_reliable_part (msg : InMessagePart.t) (s : SocketImpl)
    : SocketImpl :=
  let sn := InMessagePart.sequence_number msg in
  match PendingMap.find sn (pending_reliable_messages s) with
  | None =>
      set_pending_reliable_messages
        (PendingMap.emplace sn (PendingMessage.of_part msg)
           (pending_reliable_messages s)) s
  | Some _ =>
      let s :=
        set_pending_reliable_messages
          (PendingMap.update sn
             (PendingMessage.update_payload (InMessagePart.chunk_start msg)
                (InMessagePart.payload msg))
             (pending_reliable_messages s)) s in
      replay_pending_messages s
  end.

(** The same tail as the spec words it, to compare [store_reliable_part]
    with: find or create a Pending In Message at that sequence number, merge
    the byte range, and replay pending. *)
Definition store_reliable_part_as_specified (msg : InMessagePart.t)
    (s : SocketImpl) : SocketImpl :=
  let sn := InMessagePart.sequence_number msg in
  let merged :=
    match PendingMap.find sn (pending_reliable_messages s) with
    | None =>
        PendingMap.emplace sn (PendingMessage.of_part msg)
          (pending_reliable_messages s)
    | Some _ =>
        PendingMap.update sn
          (PendingMessage.update_payload (InMessagePart.chunk_start msg)
             (InMessagePart.payload msg))
          (pending_reliable_messages s)
    end in
  replay_pending_messages (set_pending_reliable_messages merged s).

Definition handle_reliable_message (msg : InMessagePart.t) (s : SocketImpl)
    : SocketImpl :=
  let s := set_schedule_sending_acks true s in
  match sync s with
  | None => s
  | Some _ =>
      if negb (can_add (received_message_ids s)
                 (InMessagePart.sequence_number msg))
      then s
      else
        if is_next_expected (InMessagePart.sequence_number msg) s
        then
          match InMessagePart.get_complete_message msg with
          | Some full_msg =>
              match user_handle_reliable_msg full_msg s with
              | (false, s) => s
              | (true, s) => replay_pending_messages s
              end
          | None => store_reliable_part msg s
          end
        else store_reliable_part msg s
  end.

Definition handle_unreliable_message (msg : InMessagePart.t) (s : SocketImpl)
    : SocketImpl :=
  match on_receive_unreliable s, sync s with
  | None, _ => s
  | _, None => s
  | Some r, Some y =>
      let sn := InMessagePart.sequence_number msg in
      if sn <=? last_used_unreliable_sn y then s
      else if InMessagePart.is_complete msg
      then
        let s := set_on_receive_unreliable None s in
        let s := call_on_receive unreliable_stream r success (Some sn)
                   (InMessagePart.payload msg) s in
        if was_destroyed s then s
        else set_pending_unreliable_message None
               (set_last_used_unreliable_sn sn s)
      else
        let replace :=
          set_pending_unreliable_message
            (Some (PendingMessage.of_part msg)) s in
        match pending_unreliable_message s with
        | None => replace
        | Some pm =>
            if PendingMessage.sequence_number pm <? sn then replace
            else if PendingMessage.sequence_number pm >? sn then s
            else
              let pm := PendingMessage.update_payload
                          (InMessagePart.chunk_start msg)
                          (InMessagePart.payload msg) pm in
              let s := set_pending_unreliable_message (Some pm) s in
              if PendingMessage.is_complete pm
              then
                let s := set_on_receive_unreliable None s in
                let s := call_on_receive unreliable_stream r success (Some sn)
                           (PendingMessage.payload pm) s in
                if was_destroyed s then s
                else set_pending_unreliable_message None
                       (set_last_used_unreliable_sn sn s)
              else s
        end
  end.

Definition handle_message (msg : InMessagePart.t) (s : SocketImpl)
    : SocketImpl :=
  let and_send (s : SocketImpl) :=
    if was_destroyed s then s else start_sending s in
  match InMessagePart.type msg with
  | MessageType.sync => and_send (handle_sync_message msg s)
  | MessageType.keep_alive => and_send s
  | MessageType.unreliable => and_send (handle_unreliable_message msg s)
  | MessageType.reliable => and_send (handle_reliable_message msg s)
  | MessageType.close => and_send (handle_close_message s)
  | MessageType.unrecognised => handle_error parse_error s
  end.

(** Modelled from the spec: binary::decoder on the received buffer, absent
    from the sources; what it yields on a datagram: the ack set, the message
    count and the message parts, None where [decoder.error()] is raised. *)
Record Datagram : Type := mk_Datagram {
  dg_ack_set : option AckSet;
  dg_message_count : Z;
  dg_parts : list (option InMessagePart.t)
}.

(** The [for] loop of [on_receive] and the [start_receiving] after it. *)
Fixpoint on_receive_loop (count : nat) (parts : list (option InMessagePart.t))
    (s : SocketImpl) : SocketImpl :=
  match count with
  | O => start_receiving s
  | S count' =>
      match parts with
      | Some m :: parts' =>
          let s := handle_message m s in
          if was_destroyed s then s
          else if negb (socket_is_open s) then s
          else on_receive_loop count' parts' s
      | _ => handle_error parse_error s
      end
  end.

(** The part of [on_receive] from the decoder on. *)
Definition on_receive_decode (dg : Datagram) (s : SocketImpl) : SocketImpl :=
  match dg_ack_set dg with
  | None => handle_error parse_error s
  | Some ack_set =>
      let s := handle_acks ack_set s in
      on_receive_loop (Z.to_nat (dg_message_count dg)) (dg_parts dg) s
  end.

(** The branch [if (error)] of [on_receive]. *)
Definition on_receive_error (err : error_code) (s : SocketImpl)
    : SocketImpl :=
  let r1 := on_receive_unreliable s in
  let s := set_on_receive_unreliable None s in
  let r2 := on_receive_reliable s in
  let s := set_on_receive_reliable None s in
  let s := call_if_set unreliable_stream r1 err s in
  call_if_set reliable_stream r2 err s.

(** [on_receive]; [source] is what the receive wrote to [rx_endpoint]. *)
Definition on_receive (err : error_code) (source : udp_endpoint)
    (dg : Datagram) (s : SocketImpl) : SocketImpl :=
  if was_destroyed s then s
  else
    let s := set_recv_timeout_alarm None s in
    if is_error err then on_receive_error err s
    else
      let s := set_rx_endpoint source s in
      if negb (is_unspecified (address (remote_endpoint s)))
      then
        if negb (endpoint_eqb (rx_endpoint s) (remote_endpoint s))
        then start_receiving s
        else on_receive_decode dg s
      else on_receive_decode dg s.

(** ** Connecting *)

(** [ip::address_v4::loopback()], 127.0.0.1, and [ip::address_v6::loopback()],
    ::1 *)
Definition loopback_v4 : ip_address := address_v4 2130706433.

Definition loopback_v6 : ip_address := address_v6 1.

Definition is_v4 (a : ip_address) : bool :=
  match a with
  | address_v4 _ => true
  | address_v6 _ => false
  end.

(** [SocketImpl::sanitize_address] *)
Definition sanitize_address (ep : udp_endpoint) : udp_endpoint :=
  if is_unspecified (address ep)
  then
    if is_v4 (address ep)
    then mk_endpoint loopback_v4 (port ep)
    else mk_endpoint loopback_v6 (port ep)
  else ep.

(** [rendezvous_connect].  punch_hole lives in another header: its call is
    an event of the trace, and its completion an input of the machine
    below.  The function returns the sync message the handler [on_punch]
    keeps for that completion. *)
Definition rendezvous_connect (remote_ep : udp_endpoint) (s : SocketImpl)
    : OutMessage.t * SocketImpl :=
  let remote_ep := sanitize_address remote_ep in
  let sn := next_reliable_sn s in
  let s := set_next_reliable_sn (sn_succ sn) s in
  let syn_message := OutMessage.make true MessageType.sync sn [] in
  let '(packet, syn_message) :=
    construct_packet_with_one_message syn_message s in
  (syn_message, log_event (ev_punch_hole packet remote_ep) s).

(** [on_connect(error)] *)
Definition call_on_connect (on_connect : UserCode) (err : error_code)
    (s : SocketImpl) : SocketImpl :=
  run_user on_connect (log_event (ev_on_connect err) s).

(** The handler [on_punch] that punch_hole completes with. *)
Definition on_punch (err : error_code) (remote_ep : udp_endpoint)
    (syn_message : OutMessage.t) (on_connect : UserCode) (s : SocketImpl)
    : SocketImpl :=
  if is_error err then call_on_connect on_connect err s
  else
    let s := set_remote_endpoint remote_ep s in
    let s := set_transmit_queue
               (TransmitQueue.insert syn_message (transmit_queue s)) s in
    let s := start_sending s in
    let s := start_receiving s in
    call_on_connect on_connect err s.

(** ** The endpoint as a machine *)

(** The ways control enters the endpoint: the completions and alarms the
    io_service runs, and the calls of the user. *)
Inductive Input : Type :=
| udp_receive (err : error_code) (source : udp_endpoint) (dg : Datagram)
| udp_sent (aborted : bool) (size : Z)
| timer_fired (err : error_code)
| recv_timeout_alarm_fired
| send_keepalive_alarm_fired
| user_receive_reliable (cb : UserCode)
| user_receive_unreliable (cb : UserCode)
| user_send_reliable (data : list byte)
| user_send_unreliable (data : list byte)
| user_flush (cb : UserCode)
| user_close
| user_destroy
| user_rendezvous_connect (remote_ep : udp_endpoint)
| punch_completed (err : error_code) (remote_ep : udp_endpoint)
    (syn_message : OutMessage.t) (on_connect : UserCode).

(** Nothing enters an endpoint that has been destroyed: its alarms and its
    socket are destroyed with it, and the completions still in flight return
    on [was_destroyed].  The completion of the punch is the one handler
    without that test; it runs as it is written. *)
Definition step (s : SocketImpl) (i : Input) : SocketImpl :=
  match i with
  | punch_completed err remote_ep syn_message on_connect =>
      on_punch err remote_ep syn_message on_connect s
  | _ =>
      if was_destroyed s then s
      else
        match i with
        | udp_receive err source dg => on_receive err source dg s
        | udp_sent aborted size =>
            match on_send (if aborted then operation_aborted else success)
                    size s with
            | Some s' => s'
            | None => s
            end
        | timer_fired err => on_timer err s
        | recv_timeout_alarm_fired => on_recv_timeout_alarm s
        | send_keepalive_alarm_fired => on_send_keepalive_alarm s
        | user_receive_reliable cb => receive_reliable cb s
        | user_receive_unreliable cb => receive_unreliable cb s
        | user_send_reliable data => send_reliable data s
        | user_send_unreliable data => send_unreliable data s
        | user_flush cb => flush cb s
        | user_close => close s
        | user_destroy => destroy s
        | user_rendezvous_connect remote_ep =>
            snd (rendezvous_connect remote_ep s)
        | punch_completed err remote_ep syn_message on_connect =>
            on_punch err remote_ep syn_message on_connect s
        end
  end.

Definition run (s : SocketImpl) (inputs : list Input) : SocketImpl :=
  fold_left step inputs s.

(** ** Reading the trace *)

(** [s'] continues [s] with events that all satisfy [P]. *)
Definition extends (P : Event -> Prop) (s s' : SocketImpl) : Prop :=
  exists evs, trace s' = trace s ++ evs /\ Forall P evs.

(** The sequence numbers of the messages handed to the callback of stream
    [st], in the order of the calls. *)
Definition delivered_sn (st : Stream) (e : Event) : list SequenceNumber :=
  match e with
  | ev_on_receive reliable_stream _ (Some sn) _ =>
      match st with reliable_stream => [sn] | _ => [] end
  | ev_on_receive unreliable_stream _ (Some sn) _ =>
      match st with unreliable_stream => [sn] | _ => [] end
  | _ => []
  end.

Definition delivered (st : Stream) (evs : list Event)
    : list SequenceNumber :=
  flat_map (delivered_sn st) evs.

(** The length of a datagram is that of the items it carries, and no more
    than [packet_size]. *)
Definition packet_fits (p : Packet) : Prop :=
  packet_length p = wire_size_all (packet_items p)
  /\ packet_length p <= packet_size.

(** The datagrams among the events are no longer than [packet_size]. *)
Definition within_packet_size (e : Event) : Prop :=
  match e with
  | ev_async_send_to p _ => packet_fits p
  | ev_send_to p _ => packet_fits p
  | ev_punch_hole p _ => packet_fits p
  | _ => True
  end.

(** Every message handed to the reliable callback satisfies [P]. *)
Definition reliable_payloads (P : SequenceNumber -> list byte -> Prop)
    (e : Event) : Prop :=
  match e with
  | ev_on_receive reliable_stream _ (Some sn) buffer => P sn buffer
  | _ => True
  end.

(** [n] sequence numbers in a row, the first one the successor of [l]. *)
Fixpoint chain (l : SequenceNumber) (n : nat) : list SequenceNumber :=
  match n with
  | O => []
  | S n' => sn_succ l :: chain (sn_succ l) n'
  end.

Definition last_delivered_reliable_sn (s : SocketImpl)
    : option SequenceNumber :=
  option_map last_used_reliable_sn (sync s).

Definition last_delivered_unreliable_sn (s : SocketImpl)
    : option SequenceNumber :=
  option_map last_used_unreliable_sn (sync s).

(** ** Notions the properties are stated with *)

(** The encoder works on a buffer of [c] bytes and has not written past
    it. *)
Definition bounded (c : Z) (e : encoder) : Prop :=
  capacity e = c /\ written e <= c.

(** [e'] is [e] after more items were written, their bytes counted; an
    encoder in error writes nothing more. *)
Definition grows (e e' : encoder) : Prop :=
  exists more,
    items e' = items e ++ more
    /\ written e' = written e + wire_size_all more
    /\ (error e = true -> more = []).

(** The bytes an encoder has written are those of its items. *)
Definition sized (e : encoder) : Prop := written e = wire_size_all (items e).

(** Events that are neither an oversized datagram nor a message handed to
    the reliable callback. *)
Definition benign (e : Event) : Prop :=
  within_packet_size e /\ delivered_sn reliable_stream e = [].

(** [s'] continues [s] without handing a message to the reliable callback
    and without moving [last_used_reliable_sn]. *)
Definition quiet (s s' : SocketImpl) : Prop :=
  extends benign s s'
  /\ last_delivered_reliable_sn s' = last_delivered_reliable_sn s
  /\ (was_destroyed s = true -> was_destroyed s' = true).

(** [s'] continues [s] with datagrams that fit, and the messages handed to
    the reliable callback on the way are [n] in a row: they follow
    [last_used_reliable_sn] of [s] when the sync message was seen, and
    [last_used_reliable_sn] of [s'] is the last of them. *)
Definition in_order (s s' : SocketImpl) : Prop :=
  exists evs n l,
    trace s' = trace s ++ evs
    /\ Forall within_packet_size evs
    /\ delivered reliable_stream evs = chain l n
    /\ (forall l0, last_delivered_reliable_sn s = Some l0 -> l = l0)
    /\ (was_destroyed s' = false ->
        n <> O \/ last_delivered_reliable_sn s <> None ->
        last_delivered_reliable_sn s' = Some (Nat.iter n sn_succ l)).

(** The whole message an entry of the pending map holds. *)
Definition held_complete (m : PendingMessages) (sn : SequenceNumber)
    (buffer : list byte) : Prop :=
  exists k pm,
    In (k, pm) m
    /\ PendingMessage.get_complete_message pm
       = Some (InMessageFull.mk sn buffer).

(** The fields no user callback can reach: they change only in the body of
    the endpoint's own functions. *)
Definition protocol_state (s : SocketImpl) :=
  (send_state s, sync s, received_message_ids s,
   received_message_ids_by_peer s, pending_reliable_messages s,
   pending_unreliable_message s, transmit_queue s, schedule_sending_acks s,
   remote_endpoint s).

(** The only event user code adds is the datagram of a [close]. *)
Definition is_close_datagram (e : Event) : Prop :=
  match e with
  | ev_send_to _ _ => True
  | _ => False
  end.

(** The state [handle_unreliable_message] returns after it has called the
    callback with the message [sn], [buffer], from the state [s]. *)
Definition after_unreliable_delivery (r : UserCode) (sn : SequenceNumber)
    (buffer : list byte) (s : SocketImpl) : SocketImpl :=
  let s2 := call_on_receive unreliable_stream r success (Some sn) buffer
              (set_on_receive_unreliable None s) in
  if was_destroyed s2 then s2
  else set_pending_unreliable_message None (set_last_used_unreliable_sn sn s2).

(** User code that registers no callback. *)
Fixpoint registers_none (code : UserCode) : bool :=
  match code with
  | done => true
  | then_close k => registers_none k
  | then_destroy => true
  | _ => false
  end.

(** [handle_unreliable_message] has handed the message [sn], [buffer] to the
    callback [r]: [s'] continues the trace of [s] with that one call, the
    slot of the callback emptied before it; [s0] is the state the call was
    made from.  A delivery that leaves the endpoint alive has set
    [last_used_unreliable_sn] to [sn] and emptied the pending slot. *)
Definition unreliable_delivery (r : UserCode) (sn : SequenceNumber)
    (buffer : list byte) (s s0 s' : SocketImpl) : Prop :=
  s' = after_unreliable_delivery r sn buffer s0
  /\ (exists evs,
        trace s'
        = trace s ++ ev_on_receive unreliable_stream success (Some sn) buffer
                     :: evs
        /\ Forall is_close_datagram evs)
  /\ (registers_none r = true -> on_receive_unreliable s' = None)
  /\ (was_destroyed s' = false ->
      last_delivered_unreliable_sn s' = Some sn
      /\ pending_unreliable_message s' = None).





(** One delivery to a callback that registers itself again. *)
Definition after_reliable_delivery (n : nat) (msg : InMessageFull.t)
    (s : SocketImpl) : SocketImpl :=
  set_last_used_reliable_sn (InMessageFull.sequence_number msg)
    (set_received_message_ids
       (try_add (received_message_ids s) (InMessageFull.sequence_number msg))
       (set_on_receive_reliable (slot_after n)
          (log_event
             (ev_on_receive reliable_stream success
                (Some (InMessageFull.sequence_number msg))
                (InMessageFull.payload msg)) s))).

(** No entry of [m] carries the sequence number the endpoint waits for. *)
Definition none_expected (m : PendingMessages) (s : SocketImpl) : Prop :=
  Forall (fun e => is_next_expected
                     (PendingMessage.sequence_number (snd e)) s = false) m.

(** [run] is a row of complete messages whose sequence numbers follow
    [l]. *)
Fixpoint is_run (l : SequenceNumber) (run : PendingMessages) : Prop :=
  match run with
  | [] => True
  | (_, pm) :: run' =>
      PendingMessage.sequence_number pm = sn_succ l
      /\ PendingMessage.is_complete pm = true
      /\ is_run (sn_succ l) run'
  end.

(** The sequence number after the last one of a row of [n] that follows
    [l]. *)
Definition after_run (l : SequenceNumber) (n : nat) : SequenceNumber :=
  Nat.iter n sn_succ l.

(** [m] is a reliable message the peer has acked. *)
Definition acked_reliable (acked : AckSet) (m : OutMessage.t) : bool :=
  OutMessage.resend_until_acked m
  && is_in acked (OutMessage.sequence_number m).

(** The cycle of [encode_payload] over the messages [pre] when it goes by
    all of them: the encoder, the count and the messages kept it has then.
    None when the cycle breaks at one of them, on a message that does not
    fit or is sent only in part. *)
Fixpoint pass_over (acked : AckSet) (e : encoder) (count : Z)
    (kept pre : list OutMessage.t)
    : option (encoder * Z * list OutMessage.t) :=
  match pre with
  | [] => Some (e, count, kept)
  | mi :: pre' =>
      if acked_reliable acked mi then pass_over acked e count kept pre'
      else
        match try_encode e mi with
        | (false, _, _) => None
        | (true, e, mi) =>
            if negb (OutMessage.bytes_already_sent mi
                     =? OutMessage.payload_size mi)
            then None
            else if negb (OutMessage.resend_until_acked mi)
            then pass_over acked e (count + 1) kept pre'
            else pass_over acked e (count + 1) (kept ++ [mi]) pre'
        end
  end.

(** The cycle breaks at the message [b] when it comes to it with the
    encoder [e]: [b] is not an acked reliable message, and it does not fit
    or is sent only in part. *)
Definition breaks_at (acked : AckSet) (e : encoder) (b : OutMessage.t)
    : Prop :=
  acked_reliable acked b = false
  /\ (fst (fst (try_encode e b)) = false
      \/ OutMessage.bytes_already_sent (snd (try_encode e b))
         <> OutMessage.payload_size (snd (try_encode e b))).

(** An item that is not a part of an acked reliable message. *)
Definition not_acked_part (acked : AckSet) (i : WireItem) : Prop :=
  match i with
  | wire_part r p => r && is_in acked (InMessagePart.sequence_number p) = false
  | _ => True
  end.

(** The whole messages [handle_reliable_message] can hand over when it is
    given [msg] in state [s]: [msg] itself when it is complete, an entry of
    the pending map, or the entry [msg] was merged into. *)
Definition whole_message (msg : InMessagePart.t) (s : SocketImpl)
    (sn : SequenceNumber) (buffer : list byte) : Prop :=
  InMessagePart.get_complete_message msg = Some (InMessageFull.mk sn buffer)
  \/ held_complete (pending_reliable_messages s) sn buffer
  \/ held_complete
       (PendingMap.update (InMessagePart.sequence_number msg)
          (PendingMessage.update_payload (InMessagePart.chunk_start msg)
             (InMessagePart.payload msg))
          (pending_reliable_messages s)) sn buffer.

(** ** More ways to read the trace *)

(** The calls of the receive callbacks among the events: the stream, the
    error and the sequence number handed over. *)
Definition call_of (e : Event)
    : list (Stream * error_code * option SequenceNumber) :=
  match e with
  | ev_on_receive st err sn _ => [(st, err, sn)]
  | _ => []
  end.

Definition calls (evs : list Event)
    : list (Stream * error_code * option SequenceNumber) :=
  flat_map call_of evs.

(** The datagrams handed to [async_send_to], and those handed to the
    synchronous [send_to] of close. *)
Definition async_send_of (e : Event) : list Packet :=
  match e with
  | ev_async_send_to p _ => [p]
  | _ => []
  end.

Definition async_sends (evs : list Event) : list Packet :=
  flat_map async_send_of evs.

Definition sync_send_of (e : Event) : list Packet :=
  match e with
  | ev_send_to p _ => [p]
  | _ => []
  end.

Definition sync_sends (evs : list Event) : list Packet :=
  flat_map sync_send_of evs.

(** The socket is closed, the pacer timer is cancelled and both alarms are
    stopped. *)
Definition shut (s : SocketImpl) : Prop :=
  socket_is_open s = false
  /\ timer s = None
  /\ recv_timeout_alarm s = None
  /\ send_keepalive_alarm s = None.

(** The call a registered callback gets when an error is reported: the
    error and an empty buffer. *)
Definition error_events (st : Stream) (r : option UserCode) (err : error_code)
    : list Event :=
  match r with
  | Some _ => [ev_on_receive st err None []]
  | None => []
  end.

(** The message [sync_send_close_message] builds. *)
Definition close_message : OutMessage.t :=
  OutMessage.make false MessageType.close 0 [].

(** What [close] sends: one datagram with the close message when the socket
    is open, nothing when it is not. *)
Definition close_datagram (s : SocketImpl) : list Event :=
  if socket_is_open s
  then [ev_send_to (fst (construct_packet_with_one_message close_message s))
          (remote_endpoint s)]
  else [].

(** The part a message goes out as when the whole payload fits in one. *)
Definition sent_whole (m : OutMessage.t) : InMessagePart.t :=
  InMessagePart.mk (OutMessage.type m) (OutMessage.sequence_number m)
    (OutMessage.payload_size m) 0 (OutMessage.payload m).

(** The datagram that carries the acks and the one message [m], whole. *)
Definition datagram_with (acks : AckSet) (m : OutMessage.t) : Packet :=
  mk_packet
    (ack_set_wire_size acks + 2 + (header_size + OutMessage.payload_size m))
    [wire_acks acks; wire_count 1;
     wire_part (OutMessage.resend_until_acked m) (sent_whole m)].

(** There is room in a datagram for the acks, the count and message [m]
    whole. *)
Definition fits_whole (acks : AckSet) (m : OutMessage.t) : Prop :=
  0 <= header_size
  /\ 0 <= ack_set_wire_size acks
  /\ ack_set_wire_size acks + 2 + (header_size + OutMessage.payload_size m)
     <= packet_size.

(** The endpoint is open with nothing in flight and nothing queued. *)
Definition idle_sender (s : SocketImpl) : Prop :=
  socket_is_open s = true
  /\ send_state s = pending
  /\ transmit_queue s = [].

(** ** What a function of the endpoint may do *)

(** The effects that are told apart: sending a datagram asynchronously (and
    moving the send state), handing a message to the unreliable callback
    (and moving [last_used_unreliable_sn]), posting a receive. *)
Record Effects : Type := mk_Effects {
  sends : bool;
  delivers_unreliable : bool;
  posts_receive : bool
}.

Definition any_effect : Effects := mk_Effects true true true.

Definition no_send : Effects := mk_Effects false true true.

Definition no_unreliable_delivery : Effects := mk_Effects true false true.

Definition no_receive_posted : Effects := mk_Effects true true false.

Definition allowed (k : Effects) (e : Event) : Prop :=
  match e with
  | ev_async_send_to _ _ => sends k = true
  | ev_on_receive unreliable_stream _ (Some _) _ =>
      delivers_unreliable k = true
  | ev_async_receive_from => posts_receive k = true
  | _ => True
  end.

(** [s'] continues [s] with no effect other than those of [k]; neither
    counter of sequence numbers to send has moved, and the set of ids the
    peer has acked is the same. *)
Definition within (k : Effects) (s s' : SocketImpl) : Prop :=
  extends (allowed k) s s'
  /\ (was_destroyed s = true -> was_destroyed s' = true)
  /\ next_reliable_sn s' = next_reliable_sn s
  /\ next_unreliable_sn s' = next_unreliable_sn s
  /\ received_message_ids_by_peer s' = received_message_ids_by_peer s
  /\ (sends k = false -> send_state s' = send_state s)
  /\ (delivers_unreliable k = false ->
      last_delivered_unreliable_sn s' = last_delivered_unreliable_sn s).

(** The sender may call [async_send_to] once when it is pending, and not at
    all when a send is in flight or the pacer timer runs. *)
Definition credit (s : SocketImpl) : nat :=
  match send_state s with
  | pending => 1
  | _ => 0
  end.

(** [s'] continues [s] with no more datagrams sent asynchronously than the
    sender had credit for. *)
Definition paced (s s' : SocketImpl) : Prop :=
  exists evs,
    trace s' = trace s ++ evs
    /\ (length (async_sends evs) + credit s' <= credit s)%nat.

(** The inputs that make the sender pending again: the pacer timer, and the
    completion of a send that was aborted. *)
Definition release (i : Input) : nat :=
  match i with
  | udp_sent true _ => 1
  | timer_fired _ => 1
  | _ => 0
  end.

Definition releases (inputs : list Input) : nat :=
  list_sum (map release inputs).

(** The receives posted among the events. *)
Definition posted (e : Event) : nat :=
  match e with
  | ev_async_receive_from => 1
  | _ => 0
  end.

Definition receive_posts (evs : list Event) : nat :=
  list_sum (map posted evs).

(** The inputs that end with a call of [start_receiving]: a completion of
    the receive and the completion of a punch. *)
Definition starts_receiving (i : Input) : nat :=
  match i with
  | udp_receive _ _ _ => 1
  | punch_completed _ _ _ _ => 1
  | _ => 0
  end.

(** The calls that take a reliable sequence number, send_reliable and
    rendezvous_connect, and the one that takes an unreliable one,
    send_unreliable. *)
Definition takes_reliable_sn (i : Input) : nat :=
  match i with
  | user_send_reliable _ => 1
  | user_rendezvous_connect _ => 1
  | _ => 0
  end.

Definition takes_unreliable_sn (i : Input) : nat :=
  match i with
  | user_send_unreliable _ => 1
  | _ => 0
  end.

(** [s'] continues [s], and the messages handed to the unreliable callback
    on the way have strictly increasing sequence numbers, all above
    [last_used_unreliable_sn] of [s] and none above that of [s']. *)
Definition unreliable_in_order (s s' : SocketImpl) : Prop :=
  exists evs,
    trace s' = trace s ++ evs
    /\ StronglySorted Z.lt (delivered unreliable_stream evs)
    /\ (forall l0, last_delivered_unreliable_sn s = Some l0 ->
        Forall (fun x => l0 < x) (delivered unreliable_stream evs))
    /\ (was_destroyed s' = false ->
        match last_delivered_unreliable_sn s' with
        | Some l1 =>
            Forall (fun x => x <= l1) (delivered unreliable_stream evs)
            /\ (forall l0, last_delivered_unreliable_sn s = Some l0 ->
                l0 <= l1)
        | None =>
            delivered unreliable_stream evs = []
            /\ last_delivered_unreliable_sn s = None
        end).

(** [s'] continues [s] with at most [n] receives posted. *)
Definition posts_at_most (n : nat) (s s' : SocketImpl) : Prop :=
  exists evs,
    trace s' = trace s ++ evs /\ (receive_posts evs <= n)%nat.

(** The receive path has decoded the datagram [dg] and handled it on the
    endpoint [s]: its ack set is now the set of ids acked by the peer; when
    the ack set does not parse the socket is closed and the callbacks get
    parse_error; and when its first part is the complete reliable message
    the endpoint waits for, with a callback registered, that message has
    been handed over. *)
Definition processed (dg : Datagram) (s s' : SocketImpl) : Prop :=
  (forall acks,
     dg_ack_set dg = Some acks -> received_message_ids_by_peer s' = acks)
  /\ (dg_ack_set dg = None ->
      socket_is_open s' = false
      /\ trace s'
         = trace s ++ close_datagram s
           ++ error_events unreliable_stream (on_receive_unreliable s)
                parse_error
           ++ error_events reliable_stream (on_receive_reliable s)
                parse_error)
  /\ (forall acks msg rest y f,
        dg_ack_set dg = Some acks ->
        0 < dg_message_count dg ->
        dg_parts dg = Some msg :: rest ->
        InMessagePart.type msg = MessageType.reliable ->
        sync s = Some y ->
        can_add (received_message_ids s) (InMessagePart.sequence_number msg)
        = true ->
        on_receive_reliable s = Some f ->
        InMessagePart.sequence_number msg
        = sn_succ (last_used_reliable_sn y) ->
        InMessagePart.is_complete msg = true ->
        exists evs,
          trace s'
          = trace s
            ++ ev_on_receive reliable_stream success
                 (Some (InMessagePart.sequence_number msg))
                 (InMessagePart.payload msg) :: evs).

(** Replay stops in [rest] once [l] is the last number handed over: the
    entries up to the first one numbered [sn_succ l] are not the expected
    one, and that one, if there is one, is not complete. *)
Definition stops_replay (l : SequenceNumber) (gap tail : PendingMessages)
    : Prop :=
  Forall (fun e => PendingMessage.sequence_number (snd e) <> sn_succ l) gap
  /\ match tail with
     | [] => True
     | (_, pm) :: _ =>
         PendingMessage.sequence_number pm = sn_succ l
         /\ PendingMessage.is_complete pm = false
     end.

End Socket.

(** ** An ack set to run the endpoint on *)

Module AckSetModel.
(** Modelled from the spec: the Ack Set, absent from the sources; a base
    sequence number and a bitmap of its 31 successors.  Adding the
    successor of the base slides the base forward. *)
Record t : Type := mk {
  is_empty : bool;
  base : SequenceNumber;
  successors : Z
}.

Definition window : Z := 32.

Definition empty : t := mk true 0 0.

Definition is_in (a : t) (sn : SequenceNumber) : bool :=
  negb (is_empty a)
  && ((sn =? base a)
      || ((base a <? sn) && (sn <? base a + window)
          && Z.testbit (successors a) (sn - base a - 1))).

Definition can_add (a : t) (sn : SequenceNumber) : bool :=
  is_empty a
  || ((base a <? sn) && (sn <? base a + window) && negb (is_in a sn)).

Fixpoint slide (fuel : nat) (a : t) : t :=
  match fuel with
  | O => a
  | S fuel' =>
      if Z.testbit (successors a) 0
      then slide fuel' (mk false (base a + 1) (Z.shiftr (successors a) 1))
      else a
  end.

Definition try_add (a : t) (sn : SequenceNumber) : t :=
  if is_empty a then mk false sn 0
  else if can_add a sn
  then slide 32 (mk false (base a)
                    (Z.lor (successors a) (Z.shiftl 1 (sn - base a - 1))))
  else a.

(** A 32-bit base and a 32-bit bitmap. *)
Definition wire_size (a : t) : Z := 8.
End AckSetModel.

#[export] Instance ack_set_model : AckSetOps AckSetModel.t := {
  ack_set_empty := AckSetModel.empty;
  try_add := AckSetModel.try_add;
  can_add := AckSetModel.can_add;
  is_in := AckSetModel.is_in;
  ack_set_wire_size := AckSetModel.wire_size
}.

(** Modelled from the spec: the header of a message part on the wire, absent
    from the sources; type (1), reliability flag (1), sequence number (4),
    total size (2), chunk start (2) and chunk length (2). *)
#[export] Instance wire_layout : OutMessageLayout := {
  header_size := 12
}.

(** * The endpoint at work *)

(** An endpoint right after construction on an open socket, and the same
    endpoint bound to a peer. *)
Definition fresh : @SocketImpl AckSetModel.t := initial true.

Definition peer : udp_endpoint := mk_endpoint (address_v4 167772161) 4000.

Definition stranger : udp_endpoint := mk_endpoint (address_v4 167772162) 4000.

Definition connected : @SocketImpl AckSetModel.t :=
  set_remote_endpoint peer fresh.

(** A datagram with an empty ack set and the given parts. *)
Definition datagram (parts : list InMessagePart.t)
    : @Datagram AckSetModel.t :=
  mk_Datagram (Some AckSetModel.empty) (Z.of_nat (length parts))
    (map Some parts).

(** Message parts as the decoder yields them. *)
Definition sync_part (sn : SequenceNumber) : InMessagePart.t :=
  InMessagePart.mk MessageType.sync sn 0 0 [].

Definition whole_part (sn : SequenceNumber) (data : list byte)
    : InMessagePart.t :=
  InMessagePart.mk MessageType.reliable sn (size_of data) 0 data.

Definition fragment (ty : MessageType.t) (sn : SequenceNumber) (total : Z)
    (start : Z) (data : list byte) : InMessagePart.t :=
  InMessagePart.mk ty sn total start data.

(** The bound endpoint after the peer's sync message, numbered 0. *)
Definition synced : @SocketImpl AckSetModel.t :=
  run connected [udp_receive success peer (datagram [sync_part 0])].

(** The bound endpoint with both callbacks registered and the keepalive
    alarm armed by a send loop that found nothing to send. *)
Definition idle : @SocketImpl AckSetModel.t :=
  run connected
    [user_receive_reliable done; user_receive_unreliable done;
     timer_fired success].

(** The synced endpoint after a callback that does not register itself
    again has taken message 1. *)
Definition took_one : @SocketImpl AckSetModel.t :=
  run connected
    [user_receive_reliable done;
     udp_receive success peer (datagram [sync_part 0; whole_part 1 [x01]])].

(** The synced endpoint holding message 1, which arrived in two fragments
    while no callback was registered; a callback is registered now. *)
Definition holding_one : @SocketImpl AckSetModel.t :=
  run connected
    [udp_receive success peer (datagram [sync_part 0]);
     udp_receive success peer
       (datagram [fragment MessageType.reliable 1 2 0 [x01]]);
     udp_receive success peer
       (datagram [fragment MessageType.reliable 1 2 1 [x02]]);
     user_receive_reliable done].

(** The ack set of a peer that has received reliable message 0. *)
Definition acks_of_0 : AckSetModel.t := AckSetModel.mk false 0 0.

(** Reliable message 0 has been sent and acked; two unreliable messages of
    3000 bytes are on their way, and the send loop waits for its timer. *)
Definition acked_behind_large : @SocketImpl AckSetModel.t :=
  run connected
    [user_send_reliable [x01];
     user_send_unreliable (repeat x00 3000);
     user_send_unreliable (repeat x01 3000);
     udp_sent false 23;
     timer_fired success;
     udp_receive success peer (mk_Datagram (Some acks_of_0) 0 []);
     udp_sent false 1452].

Definition is_reliable_0 (m : OutMessage.t) : bool :=
  OutMessage.resend_until_acked m && (OutMessage.sequence_number m =? 0).

(** The sync message rendezvous_connect builds on a fresh endpoint. *)
Definition syn_0 : OutMessage.t := OutMessage.make true MessageType.sync 0 [].

(** An endpoint connected to the peer by a hole punch: the sync message is
    queued and on its way, and a receive is posted. *)
Definition punched : @SocketImpl AckSetModel.t :=
  run fresh
    [user_rendezvous_connect peer; punch_completed success peer syn_0 done].


(** The punched endpoint after the peer's sync message, numbered 0: no
    callback is registered yet. *)
Definition in_sync : @SocketImpl AckSetModel.t :=
  run punched [udp_receive success peer (datagram [sync_part 0])].

(** The endpoint in sync, with an unreliable callback registered and the
    first half of the unreliable message 3 in the pending slot. *)
Definition holding_fragment : @SocketImpl AckSetModel.t :=
  run in_sync
    [user_receive_unreliable done;
     udp_receive success peer
       (datagram [fragment MessageType.unreliable 3 2 0 [x01]])].

(** An endpoint whose punch completed with an unspecified address: it is
    bound to no peer and a receive is posted.  A stranger's sync message
    has come in and a reliable callback is registered. *)
Definition unbound : @SocketImpl AckSetModel.t :=
  run fresh
    [user_rendezvous_connect peer;
     punch_completed success default_endpoint syn_0 done;
     udp_receive success stranger (datagram [sync_part 0]);
     user_receive_reliable done].

(** The endpoint in sync took message 1 as a whole part while a first
    fragment of it was in the pending map, where it has stayed; messages 2
    and 3 arrived in two fragments each while no callback was registered,
    and a callback that registers itself once more is registered now. *)
Definition stale_then_two : @SocketImpl AckSetModel.t :=
  run in_sync
    [udp_receive success peer
       (datagram [fragment MessageType.reliable 1 2 0 [x01]]);
     user_receive_reliable done;
     udp_receive success peer (datagram [whole_part 1 [x01; x02]]);
     udp_receive success peer
       (datagram [fragment MessageType.reliable 2 2 0 [x03]]);
     udp_receive success peer
       (datagram [fragment MessageType.reliable 2 2 1 [x04]]);
     udp_receive success peer
       (datagram [fragment MessageType.reliable 3 2 0 [x05]]);
     udp_receive success peer
       (datagram [fragment MessageType.reliable 3 2 1 [x06]]);
     user_receive_reliable (rearming 1)].

(** An unreliable message of [n] bytes was sent before the punch and its
    first 1430 bytes have gone out; the sync message is queued behind it
    and the peer has acked it; the send loop waits for its timer. *)
Definition acked_behind (n : nat) : @SocketImpl AckSetModel.t :=
  run fresh
    [user_send_unreliable (repeat x00 n);
     user_rendezvous_connect peer;
     punch_completed success peer syn_0 done;
     udp_receive success peer (mk_Datagram (Some acks_of_0) 0 []);
     udp_sent false 1452].

(** What is left to send of that unreliable message. *)
Definition rest_of (n : nat) : OutMessage.t :=
  OutMessage.mk false MessageType.unreliable 1 (repeat x00 n) 1430.


(** * Properties *)

Section SocketProperties.

Context {AckSet : Type} {ack_set_ops : AckSetOps AckSet}.
Context {layout : OutMessageLayout}.

Local Abbreviation SocketImpl := (@SocketImpl AckSet).
Local Abbreviation encoder := (@encoder AckSet).
Local Abbreviation bounded := (@bounded AckSet).

(** ** The encoder never writes past its buffer *)

Lemma encoder_on_bounded c : 0 <= c -> bounded c (encoder_on c : encoder).
Proof. intros Hc. split; simpl; [reflexivity | exact Hc]. Qed.

Lemma put_bounded [c] i [e] : bounded c e -> bounded c (put i e).
Proof.
  intros [Hc Hw]. unfold put, remaining_size.
  destruct (error e); [split; assumption |].
  destruct (wire_size i <=? capacity e - written e) eqn:Hfit; split; simpl;
    try assumption.
  apply Z.leb_le in Hfit. lia.
Qed.

Lemma put_count_at_bounded [c] ce n [e] :
  bounded c e -> bounded c (put_count_at ce n e).
Proof.
  intros [Hc Hw]. unfold put_count_at.
  destruct (error ce); [split; assumption |].
  destruct (2 <=? remaining_size ce); split; simpl; assumption.
Qed.

Lemma encode_header_and_payload_bounded [c e] m offset :
  bounded c e -> bounded c (snd (encode_header_and_payload e m offset)).
Proof.
  intros H. unfold encode_header_and_payload.
  destruct (error e); [exact H |].
  destruct (remaining_size e <? header_size); simpl.
  - destruct H. split; assumption.
  - apply put_bounded, H.
Qed.

Lemma encode_bounded [c e] m : bounded c e -> bounded c (fst (encode e m)).
Proof.
  intros H. unfold encode.
  set (m' := if _ =? _ then _ else m).
  pose proof (encode_header_and_payload_bounded m'
                (OutMessage.bytes_already_sent m') H) as Hb.
  destruct (encode_header_and_payload e m' _) as [n e']. simpl in Hb.
  destruct (error e'); exact Hb.
Qed.

Lemma try_encode_bounded [c e] m :
  bounded c e -> bounded c (snd (fst (try_encode e m))).
Proof.
  intros H. unfold try_encode.
  destruct (_ >? _); [exact H |].
  pose proof (encode_bounded m H) as Hb.
  destruct (encode e m) as [e' m']. exact Hb.
Qed.

Lemma encode_payload_cycle_bounded [c] acked rest :
  forall [e] count kept,
    bounded c e ->
    bounded c (snd (fst (encode_payload_cycle acked e count kept rest))).
Proof.
  induction rest as [| mi rest IH]; intros e count kept H; simpl.
  - exact H.
  - destruct (_ && _); [apply IH, H |].
    pose proof (try_encode_bounded mi H) as Hb.
    destruct (try_encode e mi) as [[ok e'] mi']. simpl in Hb.
    destruct ok; [| exact Hb].
    destruct (negb _); [exact Hb |].
    destruct (negb _); apply IH, Hb.
Qed.

Lemma encode_payload_bounded [c e] (s : SocketImpl) :
  bounded c e -> bounded c (snd (fst (encode_payload e s))).
Proof.
  intros H. unfold encode_payload.
  pose proof (encode_payload_cycle_bounded (received_message_ids_by_peer s)
                (transmit_queue s) 0 [] (put_bounded (wire_count 0) H)) as Hb.
  destruct (encode_payload_cycle _ _ _ _ _) as [[count e'] q]. simpl in *.
  apply put_count_at_bounded, Hb.
Qed.

(** ** The bytes written are the bytes of the items *)

Lemma wire_size_all_app (a b : list (@WireItem AckSet)) :
  wire_size_all (a ++ b) = wire_size_all a + wire_size_all b.
Proof.
  induction a as [| i a IH]; simpl; [reflexivity |]. rewrite IH. lia.
Qed.

Lemma wire_size_all_cons i (l : list (@WireItem AckSet)) :
  wire_size_all (i :: l) = wire_size i + wire_size_all l.
Proof. reflexivity. Qed.

Lemma grows_refl e : grows e e.
Proof.
  exists []. rewrite app_nil_r. simpl. split; [reflexivity |].
  split; [lia | reflexivity].
Qed.

Lemma put_grows i e : grows e (put i e) /\ (error e = true -> put i e = e).
Proof.
  unfold put. destruct (error e) eqn:He; [split; [apply grows_refl | auto] |].
  split; [| discriminate].
  destruct (wire_size i <=? remaining_size e).
  - exists [i]. simpl. split; [reflexivity | split; [lia | congruence]].
  - exists []. simpl. rewrite app_nil_r.
    split; [reflexivity | split; [lia | reflexivity]].
Qed.

Lemma encode_header_and_payload_grows e m offset :
  grows e (snd (encode_header_and_payload e m offset))
  /\ (error e = true -> snd (encode_header_and_payload e m offset) = e).
Proof.
  unfold encode_header_and_payload.
  destruct (error e) eqn:He; [split; [apply grows_refl | auto] |].
  split; [| discriminate].
  destruct (remaining_size e <? header_size); simpl.
  - exists []. simpl. rewrite app_nil_r.
    split; [reflexivity | split; [lia | reflexivity]].
  - apply put_grows.
Qed.

Lemma encode_grows e m :
  grows e (fst (encode e m)) /\ (error e = true -> fst (encode e m) = e).
Proof.
  unfold encode. set (m' := if _ =? _ then _ else m).
  pose proof (encode_header_and_payload_grows e m'
                (OutMessage.bytes_already_sent m')) as H.
  destruct (encode_header_and_payload e m' _) as [n e']. simpl in H.
  destruct (error e'); exact H.
Qed.

Lemma try_encode_grows e m :
  grows e (snd (fst (try_encode e m)))
  /\ (error e = true -> snd (fst (try_encode e m)) = e).
Proof.
  unfold try_encode.
  destruct (_ >? _); [split; [apply grows_refl | auto] |].
  pose proof (encode_grows e m) as H.
  destruct (encode e m) as [e' m']. exact H.
Qed.

Lemma grows_trans [e1 e2 e3] :
  grows e1 e2 -> (error e1 = true -> e2 = e1) -> grows e2 e3 -> grows e1 e3.
Proof.
  intros (m1 & I1 & W1 & E1) Hsame (m2 & I2 & W2 & E2).
  exists (m1 ++ m2). split; [| split].
  - rewrite I2, I1. symmetry. apply app_assoc.
  - rewrite W2, W1, wire_size_all_app. lia.
  - intros He. rewrite (E1 He). simpl. apply E2.
    rewrite (Hsame He). exact He.
Qed.

Lemma encode_payload_cycle_grows acked rest :
  forall e count kept,
    grows e (snd (fst (encode_payload_cycle acked e count kept rest)))
    /\ (error e = true ->
        snd (fst (encode_payload_cycle acked e count kept rest)) = e).
Proof.
  induction rest as [| mi rest IH]; intros e count kept; simpl.
  - split; [apply grows_refl | auto].
  - destruct (_ && _); [apply IH |].
    pose proof (try_encode_grows e mi) as [Hg Hs].
    destruct (try_encode e mi) as [[ok e'] mi']. simpl in Hg, Hs.
    destruct ok; [| split; assumption].
    destruct (negb _); [split; assumption |].
    destruct (negb _).
    + destruct (IH e' (count + 1) kept) as [Hg' Hs'].
      split; [exact (grows_trans Hg Hs Hg') |].
      intros He. specialize (Hs He). subst e'. apply Hs', He.
    + destruct (IH e' (count + 1) (kept ++ [mi'])) as [Hg' Hs'].
      split; [exact (grows_trans Hg Hs Hg') |].
      intros He. specialize (Hs He). subst e'. apply Hs', He.
Qed.

Lemma replace_nth_middle (a : list (@WireItem AckSet)) x i b :
  replace_nth (length a) i (a ++ x :: b) = a ++ i :: b.
Proof.
  induction a as [| y a IH]; simpl; [reflexivity |].
  rewrite IH. reflexivity.
Qed.

Lemma encode_payload_sized e (s : SocketImpl) :
  sized e -> sized (snd (fst (encode_payload e s))).
Proof.
  unfold sized, encode_payload. intros Hs.
  pose proof (encode_payload_cycle_grows (received_message_ids_by_peer s)
                (transmit_queue s) (put (wire_count 0) e) 0 []) as [Hg Hsame].
  destruct (encode_payload_cycle _ _ _ _ _) as [[count e'] q].
  simpl in Hg, Hsame |- *. destruct Hg as (more & Hi & Hw & _).
  unfold put_count_at. unfold put in Hi, Hw, Hsame.
  destruct (error e) eqn:He.
  - rewrite Hw, Hi, wire_size_all_app. lia.
  - destruct (wire_size (wire_count 0) <=? remaining_size e) eqn:Hfit;
      simpl in Hi, Hw, Hfit.
    + rewrite Hfit. simpl. rewrite Hi, <- app_assoc. simpl.
      rewrite replace_nth_middle, Hw, !wire_size_all_app.
      rewrite !wire_size_all_cons.
      match goal with
      | |- context [wire_size (wire_count ?c)] =>
          change (wire_size (wire_count c)) with 2
      end.
      lia.
    + rewrite Hfit. rewrite Hw, Hi, wire_size_all_app. lia.
Qed.

Lemma put_sized i e : sized e -> sized (put i e).
Proof.
  unfold sized. intros Hs. destruct (put_grows i e) as [(more & Hi & Hw & _) _].
  rewrite Hw, Hi, wire_size_all_app. lia.
Qed.

Lemma try_encode_sized e m : sized e -> sized (snd (fst (try_encode e m))).
Proof.
  unfold sized. intros Hs.
  destruct (try_encode_grows e m) as [(more & Hi & Hw & _) _].
  rewrite Hw, Hi, wire_size_all_app. lia.
Qed.

Lemma encoder_on_sized c : sized (encoder_on c : encoder).
Proof. reflexivity. Qed.

Lemma packet_of_fits e :
  bounded packet_size e -> sized e -> packet_fits (packet_of e).
Proof. intros [_ H] Hs. split; [exact Hs | exact H]. Qed.

Lemma construct_packet_fits m (s : SocketImpl) :
  packet_fits (fst (construct_packet_with_one_message m s)).
Proof.
  unfold construct_packet_with_one_message.
  set (e := put _ (put _ _)).
  assert (He : bounded packet_size e).
  { unfold e. do 2 apply put_bounded. apply encoder_on_bounded.
    unfold packet_size. lia. }
  assert (Hs : sized e).
  { unfold e. do 2 apply put_sized. apply encoder_on_sized. }
  pose proof (try_encode_bounded m He) as Hb.
  pose proof (try_encode_sized e m Hs) as Hz.
  destruct (try_encode e m) as [[ok e'] m']. simpl in *.
  apply packet_of_fits; assumption.
Qed.

(** ** Continuing the trace *)

Lemma extends_refl P (s : SocketImpl) : extends P s s.
Proof. exists []. split; [symmetry; apply app_nil_r | constructor]. Qed.

Lemma extends_trans [P] [s1 s2 s3 : SocketImpl] :
  extends P s1 s2 -> extends P s2 s3 -> extends P s1 s3.
Proof.
  intros (e1 & H1 & F1) (e2 & H2 & F2). exists (e1 ++ e2). split.
  - rewrite H2, H1. symmetry. apply app_assoc.
  - apply Forall_app. split; assumption.
Qed.

Lemma extends_weaken [P Q : Event -> Prop] [s s' : SocketImpl] :
  (forall e, P e -> Q e) -> extends P s s' -> extends Q s s'.
Proof.
  intros HPQ (evs & H & F). exists evs. split; [exact H |].
  eapply Forall_impl; [exact HPQ | exact F].
Qed.

Lemma extends_log P e (s : SocketImpl) : P e -> extends P s (log_event e s).
Proof.
  intros He. exists [e]. split; [reflexivity |].
  constructor; [exact He | constructor].
Qed.

Lemma quiet_refl s : quiet s s.
Proof. split; [apply extends_refl | split; [reflexivity | trivial]]. Qed.

Lemma quiet_trans [s1 s2 s3] : quiet s1 s2 -> quiet s2 s3 -> quiet s1 s3.
Proof.
  intros (E1 & L1 & D1) (E2 & L2 & D2). split; [| split].
  - eapply extends_trans; eassumption.
  - congruence.
  - auto.
Qed.

Lemma quiet_frame [s s' : SocketImpl] :
  trace s' = trace s ->
  last_delivered_reliable_sn s' = last_delivered_reliable_sn s ->
  (was_destroyed s = true -> was_destroyed s' = true) ->
  forall s0, quiet s0 s -> quiet s0 s'.
Proof.
  intros Ht Hl Hd s0 H. apply (quiet_trans H). split; [| split].
  - exists []. split; [rewrite Ht; symmetry; apply app_nil_r | constructor].
  - exact Hl.
  - exact Hd.
Qed.

Lemma quiet_log e s0 (s : SocketImpl) :
  benign e -> quiet s0 s -> quiet s0 (log_event e s).
Proof.
  intros He H. apply (quiet_trans H). split; [| split].
  - apply extends_log, He.
  - reflexivity.
  - trivial.
Qed.

Lemma benign_send_to m (s : SocketImpl) d :
  benign (ev_send_to (fst (construct_packet_with_one_message m s)) d).
Proof. split; [apply construct_packet_fits | reflexivity]. Qed.

Create HintDb quiet.

(** One step through the body of a function that is expected to be quiet;
    the lemmas about the functions it calls are hints of the same
    database. *)
Ltac quiet_step :=
  match goal with
  | H : quiet ?s0 ?s |- quiet ?s0 ?s => exact H
  | |- quiet ?s ?s => apply quiet_refl
  | |- quiet _ (log_event _ _) =>
      apply quiet_log; [split; simpl; solve [trivial | reflexivity] |]
  | |- quiet _ (_ _ ?s) =>
      apply (@quiet_frame s);
      [reflexivity | reflexivity | exact (fun H => H) |]
  | |- quiet _ (if ?b then _ else _) => destruct b eqn:?
  | |- quiet _ (match ?x with _ => _ end) => destruct x eqn:?
  end.
#[local] Hint Extern 1 (quiet _ _) => quiet_step : quiet.

Ltac quiet_body := solve [eauto 40 with quiet].

Lemma sync_send_close_message_quiet s0 s :
  quiet s0 s -> quiet s0 (sync_send_close_message s).
Proof.
  intros H. unfold sync_send_close_message.
  pose proof (benign_send_to (OutMessage.make false MessageType.close 0 [])
                s (remote_endpoint s)) as Hb.
  destruct (construct_packet_with_one_message _ s) as [data m'].
  apply quiet_log; assumption.
Qed.
#[local] Hint Resolve sync_send_close_message_quiet : quiet.

Lemma close_quiet s0 s : quiet s0 s -> quiet s0 (close s).
Proof. intros H. unfold close. quiet_body. Qed.
#[local] Hint Resolve close_quiet : quiet.

Lemma destroy_quiet s0 s : quiet s0 s -> quiet s0 (destroy s).
Proof.
  intros H. apply (quiet_trans H). split; [| split].
  - exists []. split; [symmetry; apply app_nil_r | constructor].
  - reflexivity.
  - reflexivity.
Qed.
#[local] Hint Resolve destroy_quiet : quiet.

Lemma run_user_quiet code :
  forall s0 s, quiet s0 s -> quiet s0 (run_user code s).
Proof.
  induction code; intros s0 s H; simpl; destruct (was_destroyed s);
    try exact H; unfold receive_reliable, receive_unreliable, flush;
    quiet_body.
Qed.
#[local] Hint Resolve run_user_quiet : quiet.

Lemma call_if_set_quiet st r e s0 s :
  quiet s0 s -> quiet s0 (call_if_set st r e s).
Proof.
  intros H. unfold call_if_set, call_on_receive. destruct r; [| exact H].
  apply run_user_quiet, quiet_log; [| exact H].
  split; [exact I | destruct st; reflexivity].
Qed.
#[local] Hint Resolve call_if_set_quiet : quiet.

Lemma call_unreliable_quiet f e sn buffer s0 s :
  quiet s0 s ->
  quiet s0 (call_on_receive unreliable_stream f e sn buffer s).
Proof.
  intros H. unfold call_on_receive.
  apply run_user_quiet, quiet_log; [| exact H].
  split; [exact I | destruct sn; reflexivity].
Qed.
#[local] Hint Resolve call_unreliable_quiet : quiet.

Lemma handle_error_quiet err s0 s :
  quiet s0 s -> quiet s0 (handle_error err s).
Proof. intros H. unfold handle_error. quiet_body. Qed.
#[local] Hint Resolve handle_error_quiet : quiet.

Lemma on_receive_error_quiet err s0 s :
  quiet s0 s -> quiet s0 (on_receive_error err s).
Proof. intros H. unfold on_receive_error. quiet_body. Qed.
#[local] Hint Resolve on_receive_error_quiet : quiet.

Lemma start_receiving_quiet s0 s :
  quiet s0 s -> quiet s0 (start_receiving s).
Proof. intros H. unfold start_receiving. quiet_body. Qed.
#[local] Hint Resolve start_receiving_quiet : quiet.

Lemma handle_close_message_quiet s0 s :
  quiet s0 s -> quiet s0 (handle_close_message s).
Proof. intros H. unfold handle_close_message. quiet_body. Qed.
#[local] Hint Resolve handle_close_message_quiet : quiet.

Lemma set_last_used_unreliable_sn_quiet sn s0 s :
  quiet s0 s -> quiet s0 (set_last_used_unreliable_sn sn s).
Proof.
  intros H. unfold set_last_used_unreliable_sn.
  destruct (sync s) as [y |] eqn:Hy; [| exact H].
  apply (@quiet_frame s); try exact H; try reflexivity; [| trivial].
  unfold last_delivered_reliable_sn. simpl. rewrite Hy. reflexivity.
Qed.
#[local] Hint Resolve set_last_used_unreliable_sn_quiet : quiet.

Lemma handle_unreliable_message_quiet msg s0 s :
  quiet s0 s -> quiet s0 (handle_unreliable_message msg s).
Proof. intros H. unfold handle_unreliable_message. quiet_body. Qed.
#[local] Hint Resolve handle_unreliable_message_quiet : quiet.

Lemma encode_payload_quiet e s :
  quiet s (snd (encode_payload e s)).
Proof.
  unfold encode_payload.
  destruct (encode_payload_cycle _ _ _ _ _) as [[count e'] q]. simpl.
  apply (@quiet_frame s); try reflexivity; [trivial | apply quiet_refl].
Qed.

Lemma start_sending_quiet s0 s :
  quiet s0 s -> quiet s0 (start_sending s).
Proof.
  intros H. unfold start_sending.
  destruct (negb (socket_is_open s)); [exact H |].
  destruct (send_state s); try exact H.
  set (e0 := put _ (encoder_on packet_size)).
  assert (Hb0 : bounded packet_size e0).
  { apply put_bounded, encoder_on_bounded. unfold packet_size. lia. }
  pose proof (encode_payload_bounded s Hb0) as Hb.
  pose proof (encode_payload_sized e0 s
                (put_sized _ _ (encoder_on_sized packet_size))) as Hz.
  pose proof (encode_payload_quiet e0 s) as Hq.
  destruct (encode_payload e0 s) as [[count e] s1]. simpl in Hb, Hz, Hq.
  pose proof (quiet_trans H Hq) as H1.
  destruct (_ && _).
  - quiet_body.
  - apply quiet_log; [| quiet_body].
    split; [apply packet_of_fits; assumption | reflexivity].
Qed.
#[local] Hint Resolve start_sending_quiet : quiet.

Lemma add_message_quiet r ty sn data s0 s :
  quiet s0 s -> quiet s0 (add_message r ty sn data s).
Proof. intros H. unfold add_message. quiet_body. Qed.
#[local] Hint Resolve add_message_quiet : quiet.

Lemma send_unreliable_quiet data s0 s :
  quiet s0 s -> quiet s0 (send_unreliable data s).
Proof. intros H. unfold send_unreliable. quiet_body. Qed.

Lemma send_reliable_quiet data s0 s :
  quiet s0 s -> quiet s0 (send_reliable data s).
Proof. intros H. unfold send_reliable. quiet_body. Qed.

Lemma on_send_quiet err size s0 s s' :
  on_send err size s = Some s' -> quiet s0 s -> quiet s0 s'.
Proof.
  unfold on_send. intros Hs H.
  destruct (was_destroyed s); [injection Hs as <-; exact H |].
  destruct (is_error err).
  - destruct (is_operation_aborted err); [| discriminate].
    injection Hs as <-. quiet_body.
  - injection Hs as <-. quiet_body.
Qed.

Lemma on_timer_quiet err s0 s : quiet s0 s -> quiet s0 (on_timer err s).
Proof. intros H. unfold on_timer. quiet_body. Qed.

Lemma on_recv_timeout_alarm_quiet s0 s :
  quiet s0 s -> quiet s0 (on_recv_timeout_alarm s).
Proof. intros H. unfold on_recv_timeout_alarm. quiet_body. Qed.

Lemma on_send_keepalive_alarm_quiet s0 s :
  quiet s0 s -> quiet s0 (on_send_keepalive_alarm s).
Proof. intros H. unfold on_send_keepalive_alarm. quiet_body. Qed.

Lemma call_on_connect_quiet on_connect err s0 s :
  quiet s0 s -> quiet s0 (call_on_connect on_connect err s).
Proof. intros H. unfold call_on_connect. quiet_body. Qed.
#[local] Hint Resolve call_on_connect_quiet : quiet.

Lemma rendezvous_connect_quiet remote_ep s0 s :
  quiet s0 s -> quiet s0 (snd (rendezvous_connect remote_ep s)).
Proof.
  intros H. unfold rendezvous_connect. cbv zeta.
  pose proof (construct_packet_fits
                (OutMessage.make true MessageType.sync (next_reliable_sn s) [])
                (set_next_reliable_sn (sn_succ (next_reliable_sn s)) s))
    as Hfit.
  destruct (construct_packet_with_one_message _ _) as [packet syn].
  simpl in Hfit |- *.
  apply quiet_log; [split; [exact Hfit | reflexivity] | quiet_body].
Qed.

Lemma on_punch_quiet err remote_ep syn on_connect s0 s :
  quiet s0 s -> quiet s0 (on_punch err remote_ep syn on_connect s).
Proof. intros H. unfold on_punch. quiet_body. Qed.

(** ** Reliable messages are handed over in a row *)

Lemma chain_app l n m :
  chain l (n + m) = chain l n ++ chain (Nat.iter n sn_succ l) m.
Proof.
  revert l. induction n as [| n IH]; intros l; simpl; [reflexivity |].
  rewrite IH. do 3 f_equal.
  clear IH. induction n as [| n IH]; simpl; [reflexivity |].
  rewrite IH. reflexivity.
Qed.

Lemma iter_succ_add l n m :
  Nat.iter (n + m) sn_succ l = Nat.iter m sn_succ (Nat.iter n sn_succ l).
Proof. rewrite Nat.add_comm. apply Nat.iter_add. Qed.

Lemma delivered_app st (a b : list (@Event AckSet)) :
  delivered st (a ++ b) = delivered st a ++ delivered st b.
Proof. apply flat_map_app. Qed.

Lemma delivered_benign [evs : list (@Event AckSet)] :
  Forall benign evs -> delivered reliable_stream evs = [].
Proof.
  induction 1 as [| e evs [_ He] _ IH]; [reflexivity |].
  simpl. rewrite He, IH. reflexivity.
Qed.

Lemma benign_within_packet_size [evs : list (@Event AckSet)] :
  Forall benign evs -> Forall within_packet_size evs.
Proof. apply Forall_impl. intros e [H _]. exact H. Qed.

Lemma in_order_refl s : in_order s s.
Proof.
  exists [], O, (match last_delivered_reliable_sn s with
                 | Some l => l | None => 0 end).
  split; [| split; [| split; [| split]]].
  - symmetry. apply app_nil_r.
  - constructor.
  - reflexivity.
  - intros l0 H. rewrite H. reflexivity.
  - intros _ [H | H]; [contradiction |].
    destruct (last_delivered_reliable_sn s); [reflexivity | contradiction].
Qed.

Lemma in_order_trans [s1 s2 s3] :
  in_order s1 s2 -> was_destroyed s2 = false -> in_order s2 s3 ->
  in_order s1 s3.
Proof.
  intros (e1 & n1 & l1 & T1 & W1 & C1 & L1 & F1) Hd
         (e2 & n2 & l2 & T2 & W2 & C2 & L2 & F2).
  specialize (F1 Hd).
  destruct (Nat.eq_dec n1 O) as [-> | Hn1].
  - destruct (last_delivered_reliable_sn s1) as [l0 |] eqn:E1.
    + assert (l1 = l0) by (apply L1; reflexivity). subst l1.
      assert (H2 : last_delivered_reliable_sn s2 = Some l0).
      { apply F1. right. discriminate. }
      assert (l2 = l0) by (apply L2; exact H2). subst l2.
      exists (e1 ++ e2), n2, l0. split; [| split; [| split; [| split]]].
      * rewrite T2, T1. symmetry. apply app_assoc.
      * apply Forall_app; split; assumption.
      * rewrite delivered_app, C1, C2. reflexivity.
      * intros l H. congruence.
      * intros Hd3 _. apply F2; [exact Hd3 |]. right. congruence.
    + exists (e1 ++ e2), n2, l2. split; [| split; [| split; [| split]]].
      * rewrite T2, T1. symmetry. apply app_assoc.
      * apply Forall_app; split; assumption.
      * rewrite delivered_app, C1, C2. reflexivity.
      * intros l H. congruence.
      * intros Hd3 [H | H]; [| congruence].
        apply F2; [exact Hd3 | left; exact H].
  - assert (H2 : last_delivered_reliable_sn s2
                 = Some (Nat.iter n1 sn_succ l1)).
    { apply F1. left. exact Hn1. }
    assert (l2 = Nat.iter n1 sn_succ l1) by (apply L2; exact H2). subst l2.
    exists (e1 ++ e2), (n1 + n2)%nat, l1.
    split; [| split; [| split; [| split]]].
    + rewrite T2, T1. symmetry. apply app_assoc.
    + apply Forall_app; split; assumption.
    + rewrite delivered_app, C1, C2. symmetry. apply chain_app.
    + exact L1.
    + intros Hd3 _. rewrite iter_succ_add. apply F2; [exact Hd3 |].
      right. congruence.
Qed.

Lemma quiet_in_order [s s'] : quiet s s' -> in_order s s'.
Proof.
  intros ((evs & T & F) & L & D).
  exists evs, O, (match last_delivered_reliable_sn s with
                  | Some l => l | None => 0 end).
  split; [| split; [| split; [| split]]].
  - exact T.
  - apply benign_within_packet_size, F.
  - apply delivered_benign, F.
  - intros l0 H. rewrite H. reflexivity.
  - intros _ [H | H]; [contradiction |]. rewrite L.
    destruct (last_delivered_reliable_sn s); [reflexivity | contradiction].
Qed.

Lemma in_order_quiet [s0 s s'] : in_order s0 s -> quiet s s' -> in_order s0 s'.
Proof.
  intros (e1 & n1 & l1 & T1 & W1 & C1 & L1 & F1) ((e2 & T2 & F2) & L2 & D2).
  exists (e1 ++ e2), n1, l1. split; [| split; [| split; [| split]]].
  - rewrite T2, T1. symmetry. apply app_assoc.
  - apply Forall_app; split; [assumption |].
    apply benign_within_packet_size, F2.
  - rewrite delivered_app, C1, (delivered_benign F2). apply app_nil_r.
  - exact L1.
  - intros Hd3 H. rewrite L2. apply F1; [| exact H].
    destruct (was_destroyed s); [| reflexivity].
    rewrite D2 in Hd3; [discriminate | reflexivity].
Qed.

Lemma is_next_expected_true sn (s : SocketImpl) :
  is_next_expected sn s = true ->
  exists l, last_delivered_reliable_sn s = Some l /\ sn = sn_succ l.
Proof.
  unfold is_next_expected, next_expected_reliable_sn,
    last_delivered_reliable_sn.
  destruct (sync s) as [y |]; [| discriminate]. simpl.
  intros H. apply Z.eqb_eq in H. eauto.
Qed.

Lemma last_after_set_last_used_reliable_sn sn (s : SocketImpl) :
  last_delivered_reliable_sn s <> None ->
  last_delivered_reliable_sn (set_last_used_reliable_sn sn s) = Some sn.
Proof.
  unfold last_delivered_reliable_sn, set_last_used_reliable_sn.
  destruct (sync s); [reflexivity | intros H; contradiction].
Qed.

Lemma trace_set_last_used_reliable_sn sn (s : SocketImpl) :
  trace (set_last_used_reliable_sn sn s) = trace s.
Proof.
  unfold set_last_used_reliable_sn. destruct (sync s); reflexivity.
Qed.

Lemma was_destroyed_set_last_used_reliable_sn sn (s : SocketImpl) :
  was_destroyed (set_last_used_reliable_sn sn s) = was_destroyed s.
Proof.
  unfold set_last_used_reliable_sn. destruct (sync s); reflexivity.
Qed.

(** What one call of [user_handle_reliable_msg] does, seen from outside. *)
Lemma user_handle_reliable_msg_cases msg (s : SocketImpl) :
  match on_receive_reliable s with
  | None => user_handle_reliable_msg msg s = (false, s)
  | Some f =>
      exists s1 s2 evs,
        quiet (log_event
                 (ev_on_receive reliable_stream success
                    (Some (InMessageFull.sequence_number msg))
                    (InMessageFull.payload msg))
                 (set_on_receive_reliable None s)) s1
        /\ s1 = call_on_receive reliable_stream f success
                  (Some (InMessageFull.sequence_number msg))
                  (InMessageFull.payload msg)
                  (set_on_receive_reliable None s)
        /\ trace s1
           = trace s
             ++ ev_on_receive reliable_stream success
                  (Some (InMessageFull.sequence_number msg))
                  (InMessageFull.payload msg) :: evs
        /\ Forall benign evs
        /\ s2 = set_last_used_reliable_sn (InMessageFull.sequence_number msg)
                  (set_received_message_ids
                     (try_add (received_message_ids s1)
                        (InMessageFull.sequence_number msg)) s1)
        /\ user_handle_reliable_msg msg s
           = if was_destroyed s1 then (false, s1) else (true, s2)
  end.
Proof.
  unfold user_handle_reliable_msg.
  destruct (on_receive_reliable s) as [f |]; [| reflexivity].
  set (ev := ev_on_receive _ _ _ _).
  set (sa := log_event ev (set_on_receive_reliable None s)).
  assert (Hq : quiet sa (call_on_receive reliable_stream f success
                           (Some (InMessageFull.sequence_number msg))
                           (InMessageFull.payload msg)
                           (set_on_receive_reliable None s))).
  { unfold call_on_receive. apply run_user_quiet, quiet_refl. }
  destruct Hq as ((evs & T & F) & L & D).
  eexists _, _, evs. split; [| split; [reflexivity | split; [| split;
    [exact F | split; [reflexivity |]]]]].
  - split; [exists evs; split; assumption | split; assumption].
  - rewrite T. unfold sa. simpl. rewrite <- app_assoc. reflexivity.
  - reflexivity.
Qed.

Lemma user_handle_reliable_msg_in_order msg (s : SocketImpl) :
  is_next_expected (InMessageFull.sequence_number msg) s = true ->
  in_order s (snd (user_handle_reliable_msg msg s)).
Proof.
  intros Hn. apply is_next_expected_true in Hn. destruct Hn as (l & Hl & Hs).
  pose proof (user_handle_reliable_msg_cases msg s) as H.
  destruct (on_receive_reliable s) as [f |];
    [| rewrite H; apply in_order_refl].
  destruct H as (s1 & s2 & evs & Hq & _ & T & F & E2 & ->).
  destruct Hq as (_ & L & D).
  assert (Hw : Forall within_packet_size
                 (ev_on_receive reliable_stream success
                    (Some (InMessageFull.sequence_number msg))
                    (InMessageFull.payload msg) :: evs)).
  { constructor; [exact I | apply benign_within_packet_size, F]. }
  assert (Hc : delivered reliable_stream
                 (ev_on_receive reliable_stream success
                    (Some (InMessageFull.sequence_number msg))
                    (InMessageFull.payload msg) :: evs) = chain l 1).
  { simpl. fold (delivered reliable_stream evs).
    rewrite (delivered_benign F), Hs. reflexivity. }
  destruct (was_destroyed s1) eqn:Hd; simpl.
  - exists (ev_on_receive reliable_stream success
              (Some (InMessageFull.sequence_number msg))
              (InMessageFull.payload msg) :: evs), 1%nat, l.
    split; [exact T | split; [exact Hw | split; [exact Hc | split]]].
    + intros l0 H0. congruence.
    + intros H0. congruence.
  - exists (ev_on_receive reliable_stream success
              (Some (InMessageFull.sequence_number msg))
              (InMessageFull.payload msg) :: evs), 1%nat, l.
    split; [| split; [exact Hw | split; [exact Hc | split]]].
    + rewrite E2, trace_set_last_used_reliable_sn. exact T.
    + intros l0 H0. congruence.
    + intros _ _. rewrite E2. simpl. rewrite <- Hs.
      apply last_after_set_last_used_reliable_sn.
      change (last_delivered_reliable_sn s1 <> None).
      rewrite L. simpl. unfold last_delivered_reliable_sn in *. simpl.
      rewrite Hl. discriminate.
Qed.

Lemma user_handle_reliable_msg_alive msg (s s' : SocketImpl) :
  user_handle_reliable_msg msg s = (true, s') -> was_destroyed s' = false.
Proof.
  intros H. pose proof (user_handle_reliable_msg_cases msg s) as H'.
  destruct (on_receive_reliable s); [| congruence].
  destruct H' as (s1 & s2 & evs & _ & _ & _ & _ & E2 & E).
  rewrite E in H. destruct (was_destroyed s1) eqn:Hd; [discriminate |].
  injection H as <-. rewrite E2, was_destroyed_set_last_used_reliable_sn.
  exact Hd.
Qed.

(** A field other than the trace, the sync state and the destroyed flag is
    set. *)
Ltac framed s := apply (@quiet_frame s);
  [reflexivity | reflexivity | exact (fun H => H) | apply quiet_refl].

Lemma replay_loop_in_order rest :
  forall kept (s : SocketImpl), in_order s (replay_loop kept rest s).
Proof.
  induction rest as [| [k pm] rest IH]; intros kept s; simpl.
  - apply in_order_refl.
  - destruct (is_next_expected (PendingMessage.sequence_number pm) s) eqn:Hn;
      [| apply IH].
    unfold PendingMessage.get_complete_message.
    destruct (PendingMessage.is_complete pm); [| apply in_order_refl].
    set (full := InMessageFull.mk _ _).
    pose proof (user_handle_reliable_msg_in_order full s Hn) as Ho.
    pose proof (@user_handle_reliable_msg_alive full s) as Ha.
    destruct (user_handle_reliable_msg full s) as [[|] s']; simpl in Ho;
      [| exact Ho].
    specialize (Ha s' eq_refl).
    refine (in_order_trans (in_order_quiet Ho _) _ (IH kept _)).
    + framed s'.
    + exact Ha.
Qed.

Lemma replay_pending_messages_in_order (s : SocketImpl) :
  in_order s (replay_pending_messages s).
Proof. apply replay_loop_in_order. Qed.

Lemma quiet_then_in_order [s s' s''] :
  quiet s s' -> in_order s' s'' -> in_order s s''.
Proof.
  intros ((e1 & T1 & F1) & L1 & D1) (e2 & n & l & T2 & W2 & C2 & L2 & F2).
  exists (e1 ++ e2), n, l. split; [| split; [| split; [| split]]].
  - rewrite T2, T1. symmetry. apply app_assoc.
  - apply Forall_app. split; [apply benign_within_packet_size, F1 | exact W2].
  - rewrite delivered_app, (delivered_benign F1). exact C2.
  - intros l0 H. apply L2. congruence.
  - intros Hd H. apply F2; [exact Hd |]. rewrite L1. exact H.
Qed.

Lemma store_reliable_part_in_order msg (s : SocketImpl) :
  in_order s (store_reliable_part msg s).
Proof.
  unfold store_reliable_part.
  destruct (PendingMap.find _ _).
  - refine (quiet_then_in_order _ (replay_pending_messages_in_order _)).
    framed s.
  - apply quiet_in_order. framed s.
Qed.

Lemma handle_reliable_message_in_order msg (s : SocketImpl) :
  in_order s (handle_reliable_message msg s).
Proof.
  unfold handle_reliable_message.
  set (s1 := set_schedule_sending_acks true s).
  assert (Hq : quiet s s1) by (unfold s1; framed s).
  apply (quiet_then_in_order Hq).
  destruct (sync s1); [| apply in_order_refl].
  destruct (negb _); [apply in_order_refl |].
  destruct (is_next_expected _ s1) eqn:Hn;
    [| apply store_reliable_part_in_order].
  unfold InMessagePart.get_complete_message.
  destruct (InMessagePart.is_complete msg);
    [| apply store_reliable_part_in_order].
  set (full := InMessageFull.mk _ _).
  pose proof (user_handle_reliable_msg_in_order full s1 Hn) as Ho.
  pose proof (@user_handle_reliable_msg_alive full s1) as Ha.
  destruct (user_handle_reliable_msg full s1) as [[|] s']; simpl in Ho;
    [| exact Ho].
  exact (in_order_trans Ho (Ha s' eq_refl)
           (replay_pending_messages_in_order s')).
Qed.

Lemma handle_sync_message_in_order msg (s : SocketImpl) :
  in_order s (handle_sync_message msg s).
Proof.
  unfold handle_sync_message. simpl.
  destruct (sync s) eqn:Hs.
  - apply quiet_in_order. framed s.
  - exists [], O, 0. split; [| split; [| split; [| split]]].
    + symmetry. apply app_nil_r.
    + constructor.
    + reflexivity.
    + unfold last_delivered_reliable_sn. rewrite Hs. discriminate.
    + unfold last_delivered_reliable_sn at 1. rewrite Hs.
      intros _ [H | H]; contradiction.
Qed.

Lemma and_send_in_order [s s' : SocketImpl] :
  in_order s s' ->
  in_order s (if was_destroyed s' then s' else start_sending s').
Proof.
  intros H. destruct (was_destroyed s'); [exact H |].
  apply (in_order_quiet H), start_sending_quiet, quiet_refl.
Qed.

Lemma handle_message_in_order msg (s : SocketImpl) :
  in_order s (handle_message msg s).
Proof.
  unfold handle_message.
  destruct (InMessagePart.type msg); try apply and_send_in_order.
  - apply handle_sync_message_in_order.
  - apply in_order_refl.
  - apply quiet_in_order, handle_unreliable_message_quiet, quiet_refl.
  - apply handle_reliable_message_in_order.
  - apply quiet_in_order, handle_close_message_quiet, quiet_refl.
  - apply quiet_in_order, handle_error_quiet, quiet_refl.
Qed.

Lemma on_receive_loop_in_order count :
  forall parts (s : SocketImpl), in_order s (on_receive_loop count parts s).
Proof.
  induction count as [| count IH]; intros parts s; simpl.
  - apply quiet_in_order, start_receiving_quiet, quiet_refl.
  - destruct parts as [| [m |] parts];
      try (apply quiet_in_order, handle_error_quiet, quiet_refl).
    pose proof (handle_message_in_order m s) as H.
    destruct (was_destroyed (handle_message m s)) eqn:Hd; [exact H |].
    destruct (negb _); [exact H |].
    exact (in_order_trans H Hd (IH parts _)).
Qed.

Lemma on_receive_decode_in_order dg (s : SocketImpl) :
  in_order s (on_receive_decode dg s).
Proof.
  unfold on_receive_decode. destruct (dg_ack_set dg).
  - refine (quiet_then_in_order _ (on_receive_loop_in_order _ _ _)).
    unfold handle_acks. framed s.
  - apply quiet_in_order, handle_error_quiet, quiet_refl.
Qed.

Lemma on_receive_in_order err source dg (s : SocketImpl) :
  in_order s (on_receive err source dg s).
Proof.
  unfold on_receive.
  destruct (was_destroyed s); [apply in_order_refl |].
  destruct (is_error err).
  - apply quiet_in_order, on_receive_error_quiet. framed s.
  - set (s1 := set_rx_endpoint source (set_recv_timeout_alarm None s)).
    assert (Hq : quiet s s1).
    { unfold s1. apply (@quiet_frame (set_recv_timeout_alarm None s));
        try reflexivity; [trivial | framed s]. }
    destruct (negb (is_unspecified _));
      [destruct (negb (endpoint_eqb _ _)) |];
      try exact (quiet_then_in_order Hq (on_receive_decode_in_order dg s1)).
    apply quiet_in_order, start_receiving_quiet, Hq.
Qed.

Lemma step_in_order (s : SocketImpl) i : in_order s (step s i).
Proof.
  unfold step.
  destruct i; try (destruct (was_destroyed s); [apply in_order_refl |]).
  - apply on_receive_in_order.
  - destruct (on_send _ size s) eqn:E; [| apply in_order_refl].
    apply quiet_in_order. exact (on_send_quiet _ _ _ _ _ E (quiet_refl s)).
  - apply quiet_in_order, on_timer_quiet, quiet_refl.
  - apply quiet_in_order, on_recv_timeout_alarm_quiet, quiet_refl.
  - apply quiet_in_order, on_send_keepalive_alarm_quiet, quiet_refl.
  - apply quiet_in_order. unfold receive_reliable. framed s.
  - apply quiet_in_order. unfold receive_unreliable. framed s.
  - apply quiet_in_order, send_reliable_quiet, quiet_refl.
  - apply quiet_in_order, send_unreliable_quiet, quiet_refl.
  - apply quiet_in_order. unfold flush. framed s.
  - apply quiet_in_order, close_quiet, quiet_refl.
  - apply quiet_in_order, destroy_quiet, quiet_refl.
  - apply quiet_in_order, rendezvous_connect_quiet, quiet_refl.
  - apply quiet_in_order, on_punch_quiet, quiet_refl.
Qed.

Lemma step_destroyed (s : SocketImpl) i :
  was_destroyed s = true -> quiet s (step s i).
Proof.
  intros H. unfold step.
  destruct i; rewrite ?H; try apply quiet_refl.
  apply on_punch_quiet, quiet_refl.
Qed.

Lemma run_destroyed inputs :
  forall s : SocketImpl, was_destroyed s = true -> quiet s (run s inputs).
Proof.
  induction inputs as [| i inputs IH]; intros s H; simpl;
    [apply quiet_refl |].
  pose proof (step_destroyed s i H) as Hq.
  exact (quiet_trans Hq (IH _ (proj2 (proj2 Hq) H))).
Qed.

Lemma run_in_order inputs :
  forall s : SocketImpl, in_order s (run s inputs).
Proof.
  induction inputs as [| i inputs IH]; intros s; simpl.
  - apply in_order_refl.
  - destruct (was_destroyed (step s i)) eqn:Hd.
    + exact (in_order_quiet (step_in_order s i) (run_destroyed inputs _ Hd)).
    + exact (in_order_trans (step_in_order s i) Hd (IH _)).
Qed.

(** ** Only whole messages reach the reliable callback *)

Lemma benign_reliable_payloads P (e : @Event AckSet) :
  benign e -> reliable_payloads P e.
Proof.
  intros [_ H]. destruct e as [st ? sn ? | | | | | |]; try exact I.
  destruct st, sn; try exact I. discriminate.
Qed.

Lemma quiet_payloads P [s s' : SocketImpl] :
  quiet s s' -> extends (reliable_payloads P) s s'.
Proof.
  intros [H _]. revert H. apply extends_weaken, benign_reliable_payloads.
Qed.

Lemma user_handle_reliable_msg_payloads (P : _ -> _ -> Prop) msg
    (s : SocketImpl) :
  P (InMessageFull.sequence_number msg) (InMessageFull.payload msg) ->
  extends (reliable_payloads P) s (snd (user_handle_reliable_msg msg s)).
Proof.
  intros HP. pose proof (user_handle_reliable_msg_cases msg s) as H.
  destruct (on_receive_reliable s) as [f |];
    [| rewrite H; apply extends_refl].
  destruct H as (s1 & s2 & evs & _ & _ & T & F & E2 & ->).
  assert (Hall : Forall (reliable_payloads P)
                   (ev_on_receive reliable_stream success
                      (Some (InMessageFull.sequence_number msg))
                      (InMessageFull.payload msg) :: evs)).
  { constructor; [exact HP |].
    revert F. apply Forall_impl, benign_reliable_payloads. }
  destruct (was_destroyed s1); simpl; eexists; (split; [| exact Hall]).
  - exact T.
  - rewrite E2, trace_set_last_used_reliable_sn. exact T.
Qed.

Lemma replay_loop_payloads rest :
  forall kept (s : SocketImpl),
    extends (reliable_payloads (held_complete rest)) s
      (replay_loop kept rest s).
Proof.
  induction rest as [| [k pm] rest IH]; intros kept s; simpl.
  - apply extends_refl.
  - assert (Hweak : forall s1 s2 : SocketImpl,
              extends (reliable_payloads (held_complete rest)) s1 s2 ->
              extends (reliable_payloads (held_complete ((k, pm) :: rest)))
                s1 s2).
    { intros s1 s2. apply extends_weaken.
      intros [st ? sn ? | | | | | |] He; try exact I.
      destruct st, sn; try exact I. destruct He as (k' & pm' & Hin & Hc).
      exists k', pm'. split; [right; exact Hin | exact Hc]. }
    destruct (is_next_expected _ s); [| apply Hweak, IH].
    destruct (PendingMessage.get_complete_message pm) as [full |] eqn:Hc;
      [| apply extends_refl].
    assert (Hu : extends (reliable_payloads (held_complete ((k, pm) :: rest)))
                   s (snd (user_handle_reliable_msg full s))).
    { apply user_handle_reliable_msg_payloads.
      exists k, pm. split; [left; reflexivity |].
      rewrite Hc. destruct full; reflexivity. }
    destruct (user_handle_reliable_msg full s) as [[|] s']; simpl in Hu;
      [| exact Hu].
    refine (extends_trans Hu (extends_trans _ (Hweak _ _ (IH kept _)))).
    apply quiet_payloads. framed s'.
Qed.

(** ** What user code leaves alone *)

Lemma close_protocol_state (s : SocketImpl) :
  protocol_state (close s) = protocol_state s.
Proof.
  unfold close, sync_send_close_message.
  destruct (construct_packet_with_one_message _ _).
  simpl. destruct (socket_is_open s); reflexivity.
Qed.

Lemma close_events (s : SocketImpl) : extends is_close_datagram s (close s).
Proof.
  unfold close, sync_send_close_message.
  destruct (construct_packet_with_one_message _ _) as [data m'].
  simpl. destruct (socket_is_open s).
  - exists [ev_send_to data (remote_endpoint s)]. split; [reflexivity |].
    constructor; [exact I | constructor].
  - apply (@extends_refl is_close_datagram s).
Qed.

Lemma run_user_protocol_state code :
  forall s : SocketImpl, protocol_state (run_user code s) = protocol_state s.
Proof.
  induction code; intros s; simpl; destruct (was_destroyed s);
    try reflexivity.
  - rewrite IHcode2. reflexivity.
  - rewrite IHcode2. reflexivity.
  - rewrite IHcode2. reflexivity.
  - rewrite IHcode. apply close_protocol_state.
Qed.

Lemma run_user_events code :
  forall s : SocketImpl, extends is_close_datagram s (run_user code s).
Proof.
  induction code; intros s; simpl; destruct (was_destroyed s);
    try apply extends_refl.
  - apply (IHcode2 (receive_reliable code1 s)).
  - apply (IHcode2 (receive_unreliable code1 s)).
  - apply (IHcode2 (flush code1 s)).
  - exact (extends_trans (close_events s) (IHcode (close s))).
  - exists []. split; [symmetry; apply app_nil_r | constructor].
Qed.

Lemma call_on_receive_trace st f e sn buffer (s : SocketImpl) :
  exists evs,
    trace (call_on_receive st f e sn buffer s)
    = trace s ++ ev_on_receive st e sn buffer :: evs
    /\ Forall is_close_datagram evs.
Proof.
  unfold call_on_receive.
  destruct (run_user_events f (log_event (ev_on_receive st e sn buffer) s))
    as (evs & T & F).
  exists evs. split; [| exact F]. rewrite T. simpl.
  rewrite <- app_assoc. reflexivity.
Qed.

Lemma call_on_receive_protocol_state st f e sn buffer (s : SocketImpl) :
  protocol_state (call_on_receive st f e sn buffer s) = protocol_state s.
Proof.
  unfold call_on_receive. rewrite run_user_protocol_state. reflexivity.
Qed.

Lemma delivered_close_datagrams st [evs : list (@Event AckSet)] :
  Forall is_close_datagram evs -> delivered st evs = [].
Proof.
  induction 1 as [| e evs He _ IH]; [reflexivity |].
  simpl. rewrite IH. destruct e; try contradiction. reflexivity.
Qed.

(** ** The unreliable stream *)

Lemma after_unreliable_delivery_spec r sn buffer (s : SocketImpl) y :
  sync s = Some y ->
  (exists evs,
     trace (after_unreliable_delivery r sn buffer s)
     = trace s ++ ev_on_receive unreliable_stream success (Some sn) buffer
                  :: evs
     /\ Forall is_close_datagram evs)
  /\ (was_destroyed (after_unreliable_delivery r sn buffer s) = false ->
      last_delivered_unreliable_sn (after_unreliable_delivery r sn buffer s)
      = Some sn
      /\ pending_unreliable_message (after_unreliable_delivery r sn buffer s)
         = None).
Proof.
  intros Hy. unfold after_unreliable_delivery.
  set (s2 := call_on_receive _ _ _ _ _ _).
  destruct (call_on_receive_trace unreliable_stream r success (Some sn) buffer
              (set_on_receive_unreliable None s)) as (evs & T & F).
  pose proof (call_on_receive_protocol_state unreliable_stream r success
                (Some sn) buffer (set_on_receive_unreliable None s)) as P.
  fold s2 in T, P.
  assert (Hy2 : sync s2 = Some y).
  { unfold protocol_state in P. simpl in P. congruence. }
  destruct (was_destroyed s2) eqn:Hd.
  - split; [exists evs; split; assumption | intros; congruence].
  - unfold set_last_used_unreliable_sn, last_delivered_unreliable_sn.
    rewrite Hy2. simpl. split; [exists evs; split; assumption |].
    intros _. split; reflexivity.
Qed.

Lemma close_slots (s : SocketImpl) :
  on_receive_reliable (close s) = on_receive_reliable s
  /\ on_receive_unreliable (close s) = on_receive_unreliable s
  /\ on_flush (close s) = on_flush s.
Proof.
  unfold close, sync_send_close_message.
  destruct (construct_packet_with_one_message _ _).
  simpl. destruct (socket_is_open s); auto.
Qed.

Lemma run_user_slots code :
  forall s : SocketImpl,
    registers_none code = true ->
    on_receive_reliable (run_user code s) = on_receive_reliable s
    /\ on_receive_unreliable (run_user code s) = on_receive_unreliable s
    /\ on_flush (run_user code s) = on_flush s.
Proof.
  induction code; intros s H; simpl in *; try discriminate;
    destruct (was_destroyed s); auto.
  destruct (IHcode (close s) H) as (H1 & H2 & H3).
  destruct (close_slots s) as (Hr & Hu & Hf).
  rewrite H1, H2, H3, Hr, Hu, Hf. auto.
Qed.

Lemma unreliable_delivery_spec r sn buffer (s s0 : SocketImpl) y :
  sync s0 = Some y ->
  trace s0 = trace s ->
  unreliable_delivery r sn buffer s s0
    (after_unreliable_delivery r sn buffer s0).
Proof.
  intros Hy Ht.
  destruct (after_unreliable_delivery_spec r sn buffer s0 y Hy)
    as [(evs & T & F) Hl].
  split; [reflexivity |].
  split; [exists evs; split; [rewrite T, Ht; reflexivity | exact F] |].
  split; [| exact Hl].
  intros Hr. unfold after_unreliable_delivery, call_on_receive.
  destruct (run_user_slots r
              (log_event
                 (ev_on_receive unreliable_stream success (Some sn) buffer)
                 (set_on_receive_unreliable None s0)) Hr) as (_ & Hu & _).
  destruct (was_destroyed (run_user r _)); [exact Hu |].
  unfold set_last_used_unreliable_sn.
  destruct (sync (run_user r _)); simpl; exact Hu.
Qed.

(** C4, as the code has it.  Without a registered unreliable callback,
    before the sync message, or for a part whose sequence number is not
    above last_used_unreliable_sn, handle_unreliable_message does nothing at
    all: nothing is called and the pending slot is left as it is.  With a
    callback, the sync message seen and a number above
    last_used_unreliable_sn: a complete part is handed to the callback, which
    is moved out of its slot first; a fragment replaces the pending slot
    when the slot is empty or holds a smaller number, is dropped when the
    slot holds a larger one, and is merged into it when the numbers are
    equal, the merged message being handed to the callback when it is
    complete.  A delivery that leaves the endpoint alive sets
    last_used_unreliable_sn to the number and empties the pending slot; and
    in every case at most one message is handed over, and only one above
    last_used_unreliable_sn. *)
Theorem C4_unreliable_delivery_and_single_slot
    (msg : InMessagePart.t) (s : SocketImpl) :
  let sn := InMessagePart.sequence_number msg in
  let s' := handle_unreliable_message msg s in
  ((on_receive_unreliable s = None
    \/ sync s = None
    \/ (exists y, sync s = Some y /\ sn <= last_used_unreliable_sn y)) ->
   s' = s)
  /\ (forall r y,
        on_receive_unreliable s = Some r ->
        sync s = Some y ->
        last_used_unreliable_sn y < sn ->
        if InMessagePart.is_complete msg
        then unreliable_delivery r sn (InMessagePart.payload msg) s s s'
        else
          match pending_unreliable_message s with
          | None =>
              s' = set_pending_unreliable_message
                     (Some (PendingMessage.of_part msg)) s
          | Some pm =>
              let merged :=
                PendingMessage.update_payload (InMessagePart.chunk_start msg)
                  (InMessagePart.payload msg) pm in
              if PendingMessage.sequence_number pm <? sn
              then s' = set_pending_unreliable_message
                          (Some (PendingMessage.of_part msg)) s
              else if sn <? PendingMessage.sequence_number pm
              then s' = s
              else if PendingMessage.is_complete merged
              then unreliable_delivery r sn (PendingMessage.payload merged) s
                     (set_pending_unreliable_message (Some merged) s) s'
              else s' = set_pending_unreliable_message (Some merged) s
          end)
  /\ (exists evs,
        trace s' = trace s ++ evs
        /\ (delivered unreliable_stream evs = []
            \/ delivered unreliable_stream evs = [sn]
               /\ on_receive_unreliable s <> None
               /\ (exists y,
                     sync s = Some y /\ last_used_unreliable_sn y < sn))).
Proof.
  intros sn s'.
  assert (Hcases : forall r y,
            on_receive_unreliable s = Some r ->
            sync s = Some y ->
            last_used_unreliable_sn y < sn ->
            if InMessagePart.is_complete msg
            then s' = after_unreliable_delivery r sn
                        (InMessagePart.payload msg) s
            else
              match pending_unreliable_message s with
              | None =>
                  s' = set_pending_unreliable_message
                         (Some (PendingMessage.of_part msg)) s
              | Some pm =>
                  let merged :=
                    PendingMessage.update_payload
                      (InMessagePart.chunk_start msg)
                      (InMessagePart.payload msg) pm in
                  if PendingMessage.sequence_number pm <? sn
                  then s' = set_pending_unreliable_message
                              (Some (PendingMessage.of_part msg)) s
                  else if sn <? PendingMessage.sequence_number pm
                  then s' = s
                  else if PendingMessage.is_complete merged
                  then s' = after_unreliable_delivery r sn
                              (PendingMessage.payload merged)
                              (set_pending_unreliable_message (Some merged) s)
                  else s' = set_pending_unreliable_message (Some merged) s
              end).
  { intros r y Hr Hy Hlt. unfold s', handle_unreliable_message.
    rewrite Hr, Hy. fold sn.
    destruct (sn <=? last_used_unreliable_sn y) eqn:Hle;
      [apply Z.leb_le in Hle; lia |].
    destruct (InMessagePart.is_complete msg); [reflexivity |].
    destruct (pending_unreliable_message s) as [pm |]; [| reflexivity].
    simpl. destruct (_ <? sn) eqn:H1; [reflexivity |].
    rewrite Z.gtb_ltb. destruct (sn <? _); [reflexivity |].
    destruct (PendingMessage.is_complete _); reflexivity. }
  assert (Hdrop : on_receive_unreliable s = None
                  \/ sync s = None
                  \/ (exists y, sync s = Some y
                                /\ sn <= last_used_unreliable_sn y) ->
                  s' = s).
  { unfold s', handle_unreliable_message. fold sn.
    intros [H | [H | (y & H & Hle)]].
    - rewrite H. reflexivity.
    - rewrite H. destruct (on_receive_unreliable s); reflexivity.
    - rewrite H. destruct (on_receive_unreliable s); [| reflexivity].
      apply Z.leb_le in Hle. rewrite Hle. reflexivity. }
  split; [exact Hdrop |]. split.
  - intros r y Hr Hy Hlt. specialize (Hcases r y Hr Hy Hlt).
    destruct (InMessagePart.is_complete msg).
    + rewrite Hcases. apply (unreliable_delivery_spec r sn _ s s y Hy).
      reflexivity.
    + destruct (pending_unreliable_message s) as [pm |]; [| exact Hcases].
      cbv zeta in Hcases |- *.
      destruct (_ <? sn); [exact Hcases |].
      destruct (sn <? _); [exact Hcases |].
      destruct (PendingMessage.is_complete _); [| exact Hcases].
      rewrite Hcases.
      apply (unreliable_delivery_spec r sn _ s _ y); [exact Hy | reflexivity].
  - assert (Hnone : forall x : SocketImpl,
              trace x = trace s -> s' = x ->
              exists evs,
                trace s' = trace s ++ evs
                /\ (delivered unreliable_stream evs = []
                    \/ delivered unreliable_stream evs = [sn]
                       /\ on_receive_unreliable s <> None
                       /\ (exists y, sync s = Some y
                                     /\ last_used_unreliable_sn y < sn))).
    { intros x Ht ->. exists []. split; [rewrite Ht, app_nil_r; reflexivity |].
      left. reflexivity. }
    assert (Hdel : forall r buffer s0 y,
              on_receive_unreliable s = Some r ->
              sync s = Some y -> last_used_unreliable_sn y < sn ->
              unreliable_delivery r sn buffer s s0 s' ->
              exists evs,
                trace s' = trace s ++ evs
                /\ (delivered unreliable_stream evs = []
                    \/ delivered unreliable_stream evs = [sn]
                       /\ on_receive_unreliable s <> None
                       /\ (exists y, sync s = Some y
                                     /\ last_used_unreliable_sn y < sn))).
    { intros r buffer s0 y Hr Hy Hlt (_ & (evs & T & F) & _).
      exists (ev_on_receive unreliable_stream success (Some sn) buffer :: evs).
      split; [exact T | right].
      split; [| split; [congruence | exists y; split; assumption]].
      simpl. fold (delivered unreliable_stream evs).
      rewrite (delivered_close_datagrams _ F). reflexivity. }
    destruct (on_receive_unreliable s) as [r |] eqn:Hr;
      [| apply (Hnone s eq_refl), Hdrop; left; reflexivity].
    destruct (sync s) as [y |] eqn:Hy;
      [| apply (Hnone s eq_refl), Hdrop; right; left; reflexivity].
    destruct (Z_le_gt_dec sn (last_used_unreliable_sn y)) as [Hle | Hgt].
    { apply (Hnone s eq_refl), Hdrop. right. right. exists y. auto. }
    assert (Hlt : last_used_unreliable_sn y < sn) by lia.
    specialize (Hcases r y eq_refl eq_refl Hlt).
    destruct (InMessagePart.is_complete msg).
    + eapply (Hdel r _ s y eq_refl eq_refl Hlt). rewrite Hcases.
      apply (unreliable_delivery_spec r sn _ s s y Hy). reflexivity.
    + destruct (pending_unreliable_message s) as [pm |];
        [| refine (Hnone _ _ Hcases); reflexivity].
      cbv zeta in Hcases.
      destruct (_ <? sn); [refine (Hnone _ _ Hcases); reflexivity |].
      destruct (sn <? _); [refine (Hnone _ _ Hcases); reflexivity |].
      destruct (PendingMessage.is_complete _);
        [| refine (Hnone _ _ Hcases); reflexivity].
      eapply (Hdel r _ _ y eq_refl eq_refl Hlt). rewrite Hcases.
      apply (unreliable_delivery_spec r sn _ s _ y); [exact Hy | reflexivity].
Qed.

(** ** Errors of the receive and what close leaves behind *)

(** A completion of the receive with an error, on a live endpoint. *)
Lemma on_receive_with_error err source dg (s : SocketImpl) :
  was_destroyed s = false ->
  is_error err = true ->
  on_receive err source dg s
  = call_if_set reliable_stream (on_receive_reliable s) err
      (call_if_set unreliable_stream (on_receive_unreliable s) err
         (set_on_receive_reliable None
            (set_on_receive_unreliable None
               (set_recv_timeout_alarm None s)))).
Proof.
  intros Hd He. unfold on_receive. rewrite Hd, He. reflexivity.
Qed.


Lemma close_closed (s : SocketImpl) :
  socket_is_open s = false ->
  socket_is_open (close s) = false /\ trace (close s) = trace s.
Proof. intros H. unfold close. simpl. rewrite H. simpl. auto. Qed.


Lemma close_keeps_connection (s : SocketImpl) :
  remote_endpoint (close s) = remote_endpoint s
  /\ trace (close s) = trace s ++ close_datagram s.
Proof.
  unfold close, close_datagram, sync_send_close_message, close_message.
  change (construct_packet_with_one_message
            (OutMessage.make false MessageType.close 0 []) (set_timer None s))
    with (construct_packet_with_one_message
            (OutMessage.make false MessageType.close 0 []) s).
  destruct (construct_packet_with_one_message _ s) as [data m'].
  simpl. destruct (socket_is_open s); simpl;
    (split; [reflexivity |]); [reflexivity | symmetry; apply app_nil_r].
Qed.

Lemma run_user_closed code :
  forall s : SocketImpl,
    socket_is_open s = false ->
    trace (run_user code s) = trace s
    /\ socket_is_open (run_user code s) = false.
Proof.
  induction code; intros s H; simpl; destruct (was_destroyed s); auto.
  - apply (IHcode2 (receive_reliable code1 s)), H.
  - apply (IHcode2 (receive_unreliable code1 s)), H.
  - apply (IHcode2 (flush code1 s)), H.
  - destruct (close_closed s H) as [Ho Ht].
    destruct (IHcode _ Ho) as [Ht' Ho']. rewrite Ht'. auto.
Qed.

Lemma call_if_set_closed st r e (s : SocketImpl) :
  socket_is_open s = false ->
  trace (call_if_set st r e s) = trace s ++ error_events st r e
  /\ socket_is_open (call_if_set st r e s) = false.
Proof.
  intros H. unfold call_if_set, call_on_receive, error_events.
  destruct r as [f |]; [| split; [symmetry; apply app_nil_r | exact H]].
  apply (run_user_closed f (log_event (ev_on_receive st e None []) s) H).
Qed.




(** C3, as the code has it.  A completion of the receive with an error, of
    whatever kind, on a live endpoint stops the receive-timeout alarm, moves
    both callbacks out and calls each registered one with that error and an
    empty buffer, the unreliable one first; the receive is not posted again.
    The endpoint itself neither closes the socket nor stops the keepalive
    alarm on this path: with callbacks that leave the endpoint alone both
    are as they were. *)
Theorem C3_receive_error_calls_back_without_closing
    (s : SocketImpl) (err : error_code) (source : udp_endpoint)
    (dg : Datagram) :
  was_destroyed s = false ->
  is_error err = true ->
  let s0 := set_on_receive_reliable None
              (set_on_receive_unreliable None
                 (set_recv_timeout_alarm None s)) in
  let s' := on_receive err source dg s in
  s' = call_if_set reliable_stream (on_receive_reliable s) err
         (call_if_set unreliable_stream (on_receive_unreliable s) err s0)
  /\ recv_timeout_alarm s0 = None
  /\ socket_is_open s0 = socket_is_open s
  /\ send_keepalive_alarm s0 = send_keepalive_alarm s
  /\ ((on_receive_unreliable s = None \/ on_receive_unreliable s = Some done) ->
      (on_receive_reliable s = None \/ on_receive_reliable s = Some done) ->
      socket_is_open s' = socket_is_open s
      /\ send_keepalive_alarm s' = send_keepalive_alarm s
      /\ recv_timeout_alarm s' = None
      /\ on_receive_reliable s' = None
      /\ on_receive_unreliable s' = None
      /\ trace s'
         = trace s
           ++ match on_receive_unreliable s with
              | Some _ => [ev_on_receive unreliable_stream err None []]
              | None => []
              end
           ++ match on_receive_reliable s with
              | Some _ => [ev_on_receive reliable_stream err None []]
              | None => []
              end).
Proof.
  intros Hd He s0 s'. subst s'.
  rewrite (on_receive_with_error _ _ _ _ Hd He). fold s0.
  split; [reflexivity | split; [reflexivity | split; [reflexivity | split;
    [reflexivity |]]]].
  intros [-> | ->] [-> | ->]; unfold call_if_set, call_on_receive; simpl;
    repeat (progress (simpl; rewrite ?Hd));
    rewrite ?app_nil_r, <- ?app_assoc; auto 10.
Qed.

(** ** The send loop with nothing to send *)

Lemma close_shut (s : SocketImpl) : shut (close s).
Proof.
  unfold shut, close, sync_send_close_message.
  destruct (construct_packet_with_one_message _ _).
  simpl. destruct (socket_is_open s) eqn:H; simpl; rewrite ?H; auto.
Qed.

Lemma run_user_shut code :
  forall s : SocketImpl, shut s -> shut (run_user code s).
Proof.
  induction code; intros s H; simpl; destruct (was_destroyed s);
    try exact H.
  - apply IHcode2. exact H.
  - apply IHcode2. exact H.
  - apply IHcode2. exact H.
  - apply IHcode, close_shut.
Qed.

Lemma call_if_set_shut st r e (s : SocketImpl) :
  shut s ->
  shut (call_if_set st r e s)
  /\ trace (call_if_set st r e s) = trace s ++ error_events st r e.
Proof.
  intros H. split; [| apply call_if_set_closed, H].
  unfold call_if_set, call_on_receive. destruct r as [f |]; [| exact H].
  apply run_user_shut. exact H.
Qed.

Lemma handle_error_effect err (s : SocketImpl) :
  shut (handle_error err s)
  /\ trace (handle_error err s)
     = trace s ++ close_datagram s
       ++ error_events unreliable_stream (on_receive_unreliable s) err
       ++ error_events reliable_stream (on_receive_reliable s) err.
Proof.
  unfold handle_error.
  pose proof (close_shut s) as Hs.
  destruct (close_keeps_connection s) as [_ Ht].
  destruct (close_slots s) as (Hr & Hu & _).
  cbv zeta.
  change (on_receive_reliable (set_on_receive_unreliable None (close s)))
    with (on_receive_reliable (close s)).
  rewrite Hr, Hu.
  set (s1 := set_on_receive_reliable None
               (set_on_receive_unreliable None (close s))).
  assert (H1 : shut s1) by exact Hs.
  destruct (call_if_set_shut unreliable_stream (on_receive_unreliable s) err
              s1 H1) as [H2 T2].
  destruct (call_if_set_shut reliable_stream (on_receive_reliable s) err
              _ H2) as [H3 T3].
  split; [exact H3 |].
  rewrite T3, T2. change (trace s1) with (trace (close s)). rewrite Ht.
  rewrite <- !app_assoc. reflexivity.
Qed.



(** ** No datagram is longer than packet_size *)

(** C5.  packet_size is 1452.  Every datagram the endpoint sends, through
    async_send_to in the send loop or through send_to in close, in any run
    from any state, is as long as the items it carries and no longer than
    packet_size; so is the packet construct_packet_with_one_message returns.
    try_encode refuses exactly when the header and min(1, payload_size)
    bytes do not fit in what remains of the encoder, and then writes
    nothing.  When the send loop does send, the datagram is the part of the
    1452-byte buffer the encoder has written. *)
Theorem C5_datagrams_fit_in_packet_size :
  packet_size = 1452
  /\ (forall (s : SocketImpl) inputs,
        exists evs, trace (run s inputs) = trace s ++ evs
                    /\ Forall within_packet_size evs)
  /\ (forall (m : OutMessage.t) (s : SocketImpl),
        packet_fits (fst (construct_packet_with_one_message m s)))
  /\ (forall (e : encoder) (m : OutMessage.t),
        (fst (fst (try_encode e m)) = false
         <-> remaining_size e
             < header_size + Z.min 1 (OutMessage.payload_size m))
        /\ (fst (fst (try_encode e m)) = false ->
            snd (fst (try_encode e m)) = e))
  /\ (forall s : SocketImpl,
        socket_is_open s = true ->
        send_state s = pending ->
        let r := encode_payload
                   (put (wire_acks (received_message_ids s))
                      (encoder_on packet_size)) s in
        (fst (fst r) =? 0) && negb (schedule_sending_acks s) = false ->
        trace (start_sending s)
        = trace s ++ [ev_async_send_to (packet_of (snd (fst r)))
                        (remote_endpoint s)]
        /\ capacity (snd (fst r)) = packet_size
        /\ packet_length (packet_of (snd (fst r))) = written (snd (fst r))
        /\ written (snd (fst r)) <= packet_size).
Proof.
  split; [reflexivity | split; [| split; [| split]]].
  - intros s inputs.
    destruct (run_in_order inputs s) as (evs & _ & _ & T & W & _).
    exists evs. split; assumption.
  - apply construct_packet_fits.
  - intros e m. unfold try_encode.
    destruct (_ >? _) eqn:H.
    + simpl. split; [| reflexivity].
      split; [intros _ | reflexivity].
      apply Z.gtb_lt in H. lia.
    + destruct (encode e m) as [e' m']. simpl.
      split; [| discriminate]. split; [discriminate |].
      intros Hlt. rewrite Z.gtb_ltb in H. apply Z.ltb_ge in H. lia.
  - intros s Hopen Hstate r Hsend.
    assert (Hb : bounded packet_size (snd (fst r))).
    { apply encode_payload_bounded, put_bounded, encoder_on_bounded.
      unfold packet_size. lia. }
    assert (Hr : schedule_sending_acks (snd r) = schedule_sending_acks s
                 /\ trace (snd r) = trace s
                 /\ remote_endpoint (snd r) = remote_endpoint s).
    { unfold r, encode_payload.
      destruct (encode_payload_cycle _ _ _ _ _) as [[c e] q]. simpl. auto. }
    destruct Hr as (Hsch & Ht & Hre).
    unfold start_sending. rewrite Hopen, Hstate. simpl. fold r.
    destruct r as [[count e] s1]. simpl in *.
    rewrite Hsch, Hsend. simpl. rewrite Ht, Hre.
    destruct Hb as [Hc Hw]. auto.
Qed.

(** ** Replaying the pending reliable messages *)

Lemma user_handle_reliable_msg_rearming n msg (s : SocketImpl) :
  was_destroyed s = false ->
  on_receive_reliable s = Some (rearming n) ->
  user_handle_reliable_msg msg s = (true, after_reliable_delivery n msg s).
Proof.
  intros Hd Hf. unfold user_handle_reliable_msg, after_reliable_delivery.
  rewrite Hf. unfold call_on_receive.
  destruct n; simpl; rewrite Hd; simpl; rewrite ?Hd; reflexivity.
Qed.

Lemma replay_loop_without_callback rest :
  forall kept (s : SocketImpl),
    on_receive_reliable s = None -> replay_loop kept rest s = s.
Proof.
  induction rest as [| [k pm] rest IH]; intros kept s H; simpl;
    [reflexivity |].
  destruct (is_next_expected _ s); [| apply IH, H].
  destruct (PendingMessage.get_complete_message pm); [| reflexivity].
  unfold user_handle_reliable_msg. rewrite H. reflexivity.
Qed.

Lemma replay_loop_none_expected rest :
  forall kept (s : SocketImpl),
    none_expected rest s -> replay_loop kept rest s = s.
Proof.
  induction rest as [| [k pm] rest IH]; intros kept s H; simpl;
    [reflexivity |].
  inversion H as [| ? ? H1 H2]; subst. simpl in H1. rewrite H1.
  apply IH, H2.
Qed.

Lemma after_run_S l n : after_run (sn_succ l) n = after_run l (S n).
Proof.
  unfold after_run. induction n as [| n IH]; simpl; [reflexivity |].
  rewrite IH. reflexivity.
Qed.

(** Replay hands over a row of complete messages to a callback that keeps
    registering itself, erases them, and leaves the entries behind the gap. *)
Lemma replay_loop_run run :
  forall n kept rest (s : SocketImpl) y,
    was_destroyed s = false ->
    sync s = Some y ->
    on_receive_reliable s = Some (rearming n) ->
    (length run <= S n)%nat ->
    pending_reliable_messages s = kept ++ run ++ rest ->
    is_run (last_used_reliable_sn y) run ->
    Forall (fun e => PendingMessage.sequence_number (snd e)
                     <> sn_succ (after_run (last_used_reliable_sn y)
                                   (length run))) rest ->
    let s' := replay_loop kept (run ++ rest) s in
    was_destroyed s' = false
    /\ (exists evs,
          trace s' = trace s ++ evs
          /\ delivered reliable_stream evs
             = chain (last_used_reliable_sn y) (length run))
    /\ last_delivered_reliable_sn s'
       = Some (after_run (last_used_reliable_sn y) (length run))
    /\ pending_reliable_messages s' = kept ++ rest.
Proof.
  induction run as [| [k pm] run IH];
    intros n kept rest s y Hd Hy Hf Hlen Hp Hrun Hrest; simpl.
  - rewrite replay_loop_none_expected.
    + split; [exact Hd | split; [| split]].
      * exists []. rewrite app_nil_r. split; reflexivity.
      * unfold last_delivered_reliable_sn. rewrite Hy. reflexivity.
      * exact Hp.
    + revert Hrest. apply Forall_impl. intros e He.
      unfold is_next_expected, next_expected_reliable_sn. rewrite Hy.
      apply Z.eqb_neq. exact He.
  - destruct Hrun as (Hsn & Hc & Hrun).
    assert (Hn : is_next_expected (PendingMessage.sequence_number pm) s = true).
    { unfold is_next_expected, next_expected_reliable_sn. rewrite Hy.
      apply Z.eqb_eq. exact Hsn. }
    rewrite Hn. unfold PendingMessage.get_complete_message. rewrite Hc.
    set (full := InMessageFull.mk _ _).
    rewrite (user_handle_reliable_msg_rearming n full s Hd Hf).
    set (s1 := set_pending_reliable_messages _ _).
    assert (Hy1 : sync s1
                  = Some (mk_Sync (sn_succ (last_used_reliable_sn y))
                            (last_used_unreliable_sn y))).
    { unfold s1, after_reliable_delivery, set_last_used_reliable_sn.
      simpl. rewrite Hy. simpl. rewrite Hsn. reflexivity. }
    assert (Hd1 : was_destroyed s1 = false).
    { unfold s1, after_reliable_delivery, set_last_used_reliable_sn.
      simpl. rewrite Hy. exact Hd. }
    assert (Ht1 : trace s1
                  = trace s ++ [ev_on_receive reliable_stream success
                                  (Some (sn_succ (last_used_reliable_sn y)))
                                  (PendingMessage.payload pm)]).
    { unfold s1, after_reliable_delivery, set_last_used_reliable_sn.
      simpl. rewrite Hy. simpl. rewrite Hsn. reflexivity. }
    destruct run as [| e run].
    + simpl. rewrite replay_loop_none_expected.
      * split; [exact Hd1 | split; [| split]].
        -- eexists. split; [exact Ht1 | reflexivity].
        -- unfold last_delivered_reliable_sn. rewrite Hy1. reflexivity.
        -- reflexivity.
      * revert Hrest. apply Forall_impl. intros e He.
        unfold is_next_expected, next_expected_reliable_sn. rewrite Hy1.
        apply Z.eqb_neq. exact He.
    + destruct n as [| n]; [simpl in Hlen; lia |].
      assert (Hf1 : on_receive_reliable s1 = Some (rearming n)).
      { unfold s1, after_reliable_delivery, set_last_used_reliable_sn.
        simpl. rewrite Hy. reflexivity. }
      assert (Hp1 : pending_reliable_messages s1 = kept ++ (e :: run) ++ rest)
        by reflexivity.
      assert (Hlen1 : (length (e :: run) <= S n)%nat)
        by (simpl in Hlen |- *; lia).
      assert (Hrest1 : Forall (fun e0 =>
                PendingMessage.sequence_number (snd e0)
                <> sn_succ (after_run
                              (last_used_reliable_sn
                                 (mk_Sync (sn_succ (last_used_reliable_sn y))
                                    (last_used_unreliable_sn y)))
                              (length (e :: run)))) rest).
      { revert Hrest. apply Forall_impl. intros e0 He0.
        cbn [last_used_reliable_sn]. rewrite after_run_S. exact He0. }
      destruct (IH n kept rest s1 _ Hd1 Hy1 Hf1 Hlen1 Hp1 Hrun Hrest1)
        as (Hd' & (evs & T & C) & Hl & Hp').
      cbn [last_used_reliable_sn] in C, Hl.
      split; [exact Hd' | split; [| split]].
      * eexists. split; [rewrite T, Ht1, <- app_assoc; reflexivity |].
        rewrite delivered_app, C. reflexivity.
      * rewrite Hl, after_run_S. reflexivity.
      * exact Hp'.
Qed.

Lemma find_emplace k v m :
  PendingMap.find k m = None ->
  PendingMap.find k (PendingMap.emplace k v m) = Some v.
Proof.
  induction m as [| [k' v'] m IH]; simpl; intros H.
  - rewrite Z.eqb_refl. reflexivity.
  - destruct (k' =? k) eqn:E; [discriminate |].
    destruct (k <? k') eqn:L; simpl.
    + rewrite Z.eqb_refl. reflexivity.
    + rewrite Z.eqb_sym, E. simpl. rewrite E. apply IH, H.
Qed.

Lemma find_update k f m :
  PendingMap.find k (PendingMap.update k f m)
  = option_map f (PendingMap.find k m).
Proof.
  induction m as [| [k' v'] m IH]; simpl; [reflexivity |].
  destruct (k' =? k) eqn:E; simpl; rewrite E; [reflexivity | exact IH].
Qed.

Lemma replay_loop_skip skip :
  forall kept more (s : SocketImpl),
    none_expected skip s ->
    replay_loop kept (skip ++ more) s = replay_loop (kept ++ skip) more s.
Proof.
  induction skip as [| [k pm] skip IH]; intros kept more s H; simpl.
  - rewrite app_nil_r. reflexivity.
  - inversion H as [| ? ? H1 H2]; subst. simpl in H1. rewrite H1.
    rewrite (IH _ _ _ H2), <- app_assoc. reflexivity.
Qed.

(** ** A reliable message with no callback to take it *)

(** C8, as the code has it.  With no reliable callback registered a message
    that is ready is not handed over, last_used_reliable_sn does not move
    and nothing is added to the ack set.  A message that has become complete
    inside the pending map stays there: replay changes nothing, and the part
    that completed it is merged into the map.  A complete part that arrives
    with the expected sequence number is not stored: apart from scheduling
    acks the endpoint is as before.  Registering a callback later does not
    deliver by itself; the next replay hands over the message kept in the
    map. *)
Theorem C8_without_callback_kept_only_if_already_pending :
  (forall (full : InMessageFull.t) (s : SocketImpl),
     on_receive_reliable s = None ->
     user_handle_reliable_msg full s = (false, s))
  /\ (forall s : SocketImpl,
        on_receive_reliable s = None -> replay_pending_messages s = s)
  /\ (forall (msg : InMessagePart.t) (s : SocketImpl) pm,
        on_receive_reliable s = None ->
        PendingMap.find (InMessagePart.sequence_number msg)
          (pending_reliable_messages s) = Some pm ->
        let merged :=
          PendingMap.update (InMessagePart.sequence_number msg)
            (PendingMessage.update_payload (InMessagePart.chunk_start msg)
               (InMessagePart.payload msg))
            (pending_reliable_messages s) in
        store_reliable_part msg s = set_pending_reliable_messages merged s
        /\ PendingMap.find (InMessagePart.sequence_number msg) merged
           = Some (PendingMessage.update_payload
                     (InMessagePart.chunk_start msg)
                     (InMessagePart.payload msg) pm))
  /\ (forall (msg : InMessagePart.t) (s : SocketImpl),
        on_receive_reliable s = None ->
        is_next_expected (InMessagePart.sequence_number msg) s = true ->
        InMessagePart.is_complete msg = true ->
        handle_reliable_message msg s = set_schedule_sending_acks true s)
  /\ (forall (s : SocketImpl) f,
        replay_pending_messages s = s ->
        trace (receive_reliable f s) = trace s
        /\ pending_reliable_messages (receive_reliable f s)
           = pending_reliable_messages s)
  /\ (forall (s : SocketImpl) y n skip k pm rest,
        was_destroyed s = false ->
        sync s = Some y ->
        on_receive_reliable s = Some (rearming n) ->
        pending_reliable_messages s = skip ++ (k, pm) :: rest ->
        none_expected skip s ->
        PendingMessage.sequence_number pm
        = sn_succ (last_used_reliable_sn y) ->
        PendingMessage.is_complete pm = true ->
        Forall (fun e => PendingMessage.sequence_number (snd e)
                         <> sn_succ (sn_succ (last_used_reliable_sn y)))
          rest ->
        (exists evs,
           trace (replay_pending_messages s) = trace s ++ evs
           /\ delivered reliable_stream evs
              = [sn_succ (last_used_reliable_sn y)])
        /\ pending_reliable_messages (replay_pending_messages s)
           = skip ++ rest).
Proof.
  split; [| split; [| split; [| split; [| split]]]].
  - intros full s H. unfold user_handle_reliable_msg. rewrite H. reflexivity.
  - intros s H. apply replay_loop_without_callback, H.
  - intros msg s pm H Hfind merged. unfold store_reliable_part.
    rewrite Hfind. fold merged. split.
    + apply replay_loop_without_callback. exact H.
    + unfold merged. rewrite find_update, Hfind. reflexivity.
  - intros msg s H Hn Hc. unfold handle_reliable_message.
    set (s1 := set_schedule_sending_acks true s).
    change (is_next_expected (InMessagePart.sequence_number msg) s1)
      with (is_next_expected (InMessagePart.sequence_number msg) s).
    rewrite Hn. unfold InMessagePart.get_complete_message. rewrite Hc.
    unfold user_handle_reliable_msg.
    change (on_receive_reliable s1) with (on_receive_reliable s). rewrite H.
    destruct (sync s1); [| reflexivity]. destruct (negb _); reflexivity.
  - intros s f. split; reflexivity.
  - intros s y n skip k pm rest Hd Hy Hf Hp Hskip Hsn Hc Hrest.
    unfold replay_pending_messages. rewrite Hp.
    rewrite (replay_loop_skip _ _ _ _ Hskip).
    destruct (replay_loop_run [(k, pm)] n ([] ++ skip) rest s y Hd Hy Hf)
      as (_ & Hev & _ & Hp').
    + simpl. lia.
    + exact Hp.
    + simpl. auto.
    + exact Hrest.
    + split; [exact Hev | exact Hp'].
Qed.

(** ** A reliable part that cannot be handed over at once *)

Lemma replay_loop_stops l gap tail :
  forall kept (s : SocketImpl),
    last_delivered_reliable_sn s = Some l ->
    stops_replay l gap tail ->
    replay_loop kept (gap ++ tail) s = s.
Proof.
  intros kept s Hl [Hgap Htail].
  assert (Hexp : forall sn, is_next_expected sn s = (sn =? sn_succ l)).
  { intros sn. unfold is_next_expected, next_expected_reliable_sn.
    unfold last_delivered_reliable_sn in Hl.
    destruct (sync s) as [y |]; [| discriminate].
    simpl in Hl. injection Hl as ->. reflexivity. }
  rewrite replay_loop_skip.
  - destruct tail as [| [k pm] tail]; [reflexivity |].
    destruct Htail as [Hsn Hc]. simpl.
    rewrite Hexp, Hsn, Z.eqb_refl.
    unfold PendingMessage.get_complete_message. rewrite Hc. reflexivity.
  - revert Hgap. apply Forall_impl. intros e He.
    rewrite Hexp. apply Z.eqb_neq. exact He.
Qed.

(** Replay hands over a row of complete messages to a callback that keeps
    registering itself and erases them; what it does behind the row is
    what it does to [rest] from the state it has then. *)
Lemma replay_loop_row run :
  forall n kept rest (s : SocketImpl) y,
    was_destroyed s = false ->
    sync s = Some y ->
    on_receive_reliable s = Some (rearming n) ->
    (length run <= S n)%nat ->
    pending_reliable_messages s = kept ++ run ++ rest ->
    is_run (last_used_reliable_sn y) run ->
    (forall kept' (s0 : SocketImpl),
       last_delivered_reliable_sn s0
       = Some (after_run (last_used_reliable_sn y) (length run)) ->
       replay_loop kept' rest s0 = s0) ->
    let s' := replay_loop kept (run ++ rest) s in
    was_destroyed s' = false
    /\ (exists evs,
          trace s' = trace s ++ evs
          /\ delivered reliable_stream evs
             = chain (last_used_reliable_sn y) (length run))
    /\ last_delivered_reliable_sn s'
       = Some (after_run (last_used_reliable_sn y) (length run))
    /\ pending_reliable_messages s' = kept ++ rest.
Proof.
  induction run as [| [k pm] run IH];
    intros n kept rest s y Hd Hy Hf Hlen Hp Hrun Hrest; simpl.
  - assert (Hl : last_delivered_reliable_sn s
                 = Some (after_run (last_used_reliable_sn y) 0)).
    { unfold last_delivered_reliable_sn. rewrite Hy. reflexivity. }
    rewrite (Hrest kept s Hl).
    split; [exact Hd | split; [| split]].
    + exists []. rewrite app_nil_r. split; reflexivity.
    + exact Hl.
    + exact Hp.
  - destruct Hrun as (Hsn & Hc & Hrun).
    assert (Hn : is_next_expected (PendingMessage.sequence_number pm) s = true).
    { unfold is_next_expected, next_expected_reliable_sn. rewrite Hy.
      apply Z.eqb_eq. exact Hsn. }
    rewrite Hn. unfold PendingMessage.get_complete_message. rewrite Hc.
    set (full := InMessageFull.mk _ _).
    rewrite (user_handle_reliable_msg_rearming n full s Hd Hf).
    set (s1 := set_pending_reliable_messages _ _).
    assert (Hy1 : sync s1
                  = Some (mk_Sync (sn_succ (last_used_reliable_sn y))
                            (last_used_unreliable_sn y))).
    { unfold s1, after_reliable_delivery, set_last_used_reliable_sn.
      simpl. rewrite Hy. simpl. rewrite Hsn. reflexivity. }
    assert (Hd1 : was_destroyed s1 = false).
    { unfold s1, after_reliable_delivery, set_last_used_reliable_sn.
      simpl. rewrite Hy. exact Hd. }
    assert (Ht1 : trace s1
                  = trace s ++ [ev_on_receive reliable_stream success
                                  (Some (sn_succ (last_used_reliable_sn y)))
                                  (PendingMessage.payload pm)]).
    { unfold s1, after_reliable_delivery, set_last_used_reliable_sn.
      simpl. rewrite Hy. simpl. rewrite Hsn. reflexivity. }
    destruct run as [| e run].
    + simpl.
      assert (Hl1 : last_delivered_reliable_sn s1
                    = Some (after_run (last_used_reliable_sn y) 1)).
      { unfold last_delivered_reliable_sn. rewrite Hy1. reflexivity. }
      rewrite (Hrest kept s1 Hl1).
      split; [exact Hd1 | split; [| split]].
      * eexists. split; [exact Ht1 | reflexivity].
      * exact Hl1.
      * reflexivity.
    + destruct n as [| n]; [simpl in Hlen; lia |].
      assert (Hf1 : on_receive_reliable s1 = Some (rearming n)).
      { unfold s1, after_reliable_delivery, set_last_used_reliable_sn.
        simpl. rewrite Hy. reflexivity. }
      assert (Hp1 : pending_reliable_messages s1 = kept ++ (e :: run) ++ rest)
        by reflexivity.
      assert (Hlen1 : (length (e :: run) <= S n)%nat)
        by (simpl in Hlen |- *; lia).
      assert (Hrest1 : forall kept' (s0 : SocketImpl),
                last_delivered_reliable_sn s0
                = Some (after_run
                          (last_used_reliable_sn
                             (mk_Sync (sn_succ (last_used_reliable_sn y))
                                (last_used_unreliable_sn y)))
                          (length (e :: run))) ->
                replay_loop kept' rest s0 = s0).
      { intros kept' s0 Hl0. apply Hrest.
        cbn [last_used_reliable_sn] in Hl0. rewrite after_run_S in Hl0.
        exact Hl0. }
      destruct (IH n kept rest s1 _ Hd1 Hy1 Hf1 Hlen1 Hp1 Hrun Hrest1)
        as (Hd' & (evs & T & C) & Hl & Hp').
      cbn [last_used_reliable_sn] in C, Hl.
      split; [exact Hd' | split; [| split]].
      * eexists. split; [rewrite T, Ht1, <- app_assoc; reflexivity |].
        rewrite delivered_app, C. reflexivity.
      * rewrite Hl, after_run_S. reflexivity.
      * exact Hp'.
Qed.

(** C7, as the code has it.  A reliable part that passes the sync and
    can_add checks and is not a complete message with the expected sequence
    number goes to the pending map.  If the map has no entry for its
    sequence number one is created from the part and nothing else happens:
    pending messages are not replayed.  If it has one, the byte range is
    merged into it and pending messages are replayed.  Replay is one pass
    over the map in the order of its keys.  It goes by the entries that are
    not numbered last_used_reliable_sn + 1; from the first entry that is,
    it hands the complete messages that follow each other in a row to a
    callback that keeps registering itself, and erases them; it stops at
    the first entry with the expected number that is not complete, or goes
    by what is left when no entry has the expected number.  The entries it
    has gone by stay in the map, also those whose number has become the
    expected one meanwhile, as at the wrap of the 32-bit numbers. *)
Theorem C7_stored_part_replays_only_when_merged :
  (forall (msg : InMessagePart.t) (s : SocketImpl) y,
     sync s = Some y ->
     can_add (received_message_ids s) (InMessagePart.sequence_number msg)
     = true ->
     is_next_expected (InMessagePart.sequence_number msg) s
     && InMessagePart.is_complete msg = false ->
     handle_reliable_message msg s
     = store_reliable_part msg (set_schedule_sending_acks true s))
  /\ (forall (msg : InMessagePart.t) (s : SocketImpl),
        PendingMap.find (InMessagePart.sequence_number msg)
          (pending_reliable_messages s) = None ->
        let created :=
          PendingMap.emplace (InMessagePart.sequence_number msg)
            (PendingMessage.of_part msg) (pending_reliable_messages s) in
        store_reliable_part msg s = set_pending_reliable_messages created s
        /\ PendingMap.find (InMessagePart.sequence_number msg) created
           = Some (PendingMessage.of_part msg)
        /\ trace (store_reliable_part msg s) = trace s)
  /\ (forall (msg : InMessagePart.t) (s : SocketImpl) pm,
        PendingMap.find (InMessagePart.sequence_number msg)
          (pending_reliable_messages s) = Some pm ->
        let merged :=
          PendingMap.update (InMessagePart.sequence_number msg)
            (PendingMessage.update_payload (InMessagePart.chunk_start msg)
               (InMessagePart.payload msg))
            (pending_reliable_messages s) in
        store_reliable_part msg s
        = replay_pending_messages (set_pending_reliable_messages merged s)
        /\ PendingMap.find (InMessagePart.sequence_number msg) merged
           = Some (PendingMessage.update_payload
                     (InMessagePart.chunk_start msg)
                     (InMessagePart.payload msg) pm))
  /\ (forall (s : SocketImpl) y n skip run gap tail,
        was_destroyed s = false ->
        sync s = Some y ->
        on_receive_reliable s = Some (rearming n) ->
        (length run <= S n)%nat ->
        pending_reliable_messages s = skip ++ run ++ gap ++ tail ->
        none_expected skip s ->
        is_run (last_used_reliable_sn y) run ->
        stops_replay (after_run (last_used_reliable_sn y) (length run))
          gap tail ->
        (exists evs,
           trace (replay_pending_messages s) = trace s ++ evs
           /\ delivered reliable_stream evs
              = chain (last_used_reliable_sn y) (length run))
        /\ last_delivered_reliable_sn (replay_pending_messages s)
           = Some (after_run (last_used_reliable_sn y) (length run))
        /\ pending_reliable_messages (replay_pending_messages s)
           = skip ++ gap ++ tail).
Proof.
  split; [| split; [| split]].
  - intros msg s y Hy Hadd Hnot. unfold handle_reliable_message.
    set (s1 := set_schedule_sending_acks true s).
    change (sync s1) with (sync s).
    change (received_message_ids s1) with (received_message_ids s).
    change (is_next_expected (InMessagePart.sequence_number msg) s1)
      with (is_next_expected (InMessagePart.sequence_number msg) s).
    rewrite Hy, Hadd. simpl.
    unfold InMessagePart.get_complete_message.
    destruct (is_next_expected _ s); [| reflexivity].
    simpl in Hnot. rewrite Hnot. reflexivity.
  - intros msg s Hfind created. unfold store_reliable_part.
    rewrite Hfind. fold created.
    split; [reflexivity | split; [| reflexivity]].
    apply find_emplace, Hfind.
  - intros msg s pm Hfind merged. unfold store_reliable_part.
    rewrite Hfind. fold merged. split; [reflexivity |].
    unfold merged. rewrite find_update, Hfind. reflexivity.
  - intros s y n skip run gap tail Hd Hy Hf Hlen Hp Hskip Hrun Hstop.
    unfold replay_pending_messages. rewrite Hp.
    rewrite (replay_loop_skip skip [] (run ++ gap ++ tail) s Hskip).
    destruct (replay_loop_row run n ([] ++ skip) (gap ++ tail) s y
                Hd Hy Hf Hlen Hp Hrun) as (_ & Hev & Hl & Hp').
    { intros kept' s0 Hl0. apply (replay_loop_stops _ _ _ _ _ Hl0 Hstop). }
    split; [exact Hev | split; [exact Hl | exact Hp']].
Qed.

(** ** Acked messages leave the transmit queue *)

Lemma same_message_refl m : OutMessage.same_message m m.
Proof. repeat split. Qed.

Lemma encode_same_message e m : OutMessage.same_message m (snd (encode e m)).
Proof.
  unfold encode.
  destruct (_ =? _); destruct (encode_header_and_payload _ _ _) as [n e'];
    destruct (error e'); repeat split.
Qed.

Lemma try_encode_same_message e m :
  OutMessage.same_message m (snd (try_encode e m)).
Proof.
  unfold try_encode. destruct (_ >? _); [apply same_message_refl |].
  pose proof (encode_same_message e m) as H.
  destruct (encode e m) as [e' m']. exact H.
Qed.

Lemma acked_reliable_same_message acked a b :
  OutMessage.same_message a b ->
  acked_reliable acked b = acked_reliable acked a.
Proof.
  intros (Hr & _ & Hs & _). unfold acked_reliable. rewrite Hr, Hs.
  reflexivity.
Qed.

Lemma put_items P i e :
  P i -> Forall P (items e) -> Forall P (items (put i e)).
Proof.
  intros Hi H. unfold put. destruct (error e); [exact H |].
  destruct (_ <=? _); simpl; [| exact H].
  apply Forall_app. split; [exact H | constructor; [exact Hi | constructor]].
Qed.

Lemma try_encode_items acked e m :
  acked_reliable acked m = false ->
  Forall (not_acked_part acked) (items e) ->
  Forall (not_acked_part acked) (items (snd (fst (try_encode e m)))).
Proof.
  intros Hm H. unfold try_encode. destruct (_ >? _); [exact H |].
  unfold encode. set (m' := if _ =? _ then _ else m).
  assert (Hm' : acked_reliable acked m' = false).
  { unfold m'. destruct (_ =? _); exact Hm. }
  assert (He : Forall (not_acked_part acked)
                 (items (snd (encode_header_and_payload e m'
                                (OutMessage.bytes_already_sent m'))))).
  { unfold encode_header_and_payload. destruct (error e); [exact H |].
    destruct (_ <? _); [exact H |]. simpl.
    apply put_items; [exact Hm' | exact H]. }
  destruct (encode_header_and_payload e m' _) as [n e']. simpl in He.
  destruct (error e'); exact He.
Qed.

Lemma encode_payload_cycle_items acked rest :
  forall e count kept,
    Forall (not_acked_part acked) (items e) ->
    Forall (not_acked_part acked)
      (items (snd (fst (encode_payload_cycle acked e count kept rest)))).
Proof.
  induction rest as [| mi rest IH]; intros e count kept H; simpl;
    [exact H |].
  fold (acked_reliable acked mi).
  destruct (acked_reliable acked mi) eqn:Hm; [apply IH, H |].
  pose proof (try_encode_items acked e mi Hm H) as He.
  destruct (try_encode e mi) as [[ok e'] mi']. simpl in He.
  destruct ok; [| exact He].
  destruct (negb _); [exact He |].
  destruct (negb _); apply IH, He.
Qed.

Lemma replace_nth_items P n i (l : list (@WireItem AckSet)) :
  P i -> Forall P l -> Forall P (replace_nth n i l).
Proof.
  intros Hi. revert n. induction l as [| x l IH]; intros n H; simpl;
    [destruct n; exact H |].
  inversion H; subst. destruct n; constructor; auto.
Qed.

Lemma encode_payload_cycle_retains acked rest :
  forall e count kept m,
    In m kept \/ (In m rest /\ acked_reliable acked m = false
                            /\ OutMessage.resend_until_acked m = true) ->
    exists m',
      In m' (snd (encode_payload_cycle acked e count kept rest))
      /\ OutMessage.same_message m m'.
Proof.
  induction rest as [| mi rest IH]; intros e count kept m H; simpl.
  - destruct H as [H | [[] _]]. exists m. split; [exact H |].
    apply same_message_refl.
  - fold (acked_reliable acked mi).
    assert (Hlater : In m kept
                     \/ (In m rest /\ acked_reliable acked m = false
                                  /\ OutMessage.resend_until_acked m = true)
                     \/ (m = mi /\ acked_reliable acked m = false
                               /\ OutMessage.resend_until_acked m = true)).
    { destruct H as [H | [[H | H] H']]; auto. }
    clear H.
    destruct (acked_reliable acked mi) eqn:Hm.
    + apply IH. destruct Hlater as [H | [H | (-> & H & _)]]; auto.
      congruence.
    + pose proof (try_encode_same_message e mi) as Hsame.
      destruct (try_encode e mi) as [[ok e'] mi']. simpl in Hsame.
      assert (Hbreak : exists m',
                In m' (TransmitQueue.after_break kept mi' rest)
                /\ OutMessage.same_message m m').
      { unfold TransmitQueue.after_break.
        destruct Hlater as [H | [(H & _) | (-> & _)]].
        - exists m. split; [| apply same_message_refl].
          apply in_or_app. right. apply in_or_app. left. exact H.
        - exists m. split; [| apply same_message_refl].
          apply in_or_app. left. exact H.
        - exists mi'. split; [| exact Hsame].
          apply in_or_app. right. apply in_or_app. right. left. reflexivity. }
      destruct ok; [| exact Hbreak].
      destruct (negb (_ =? _)); [exact Hbreak |].
      destruct (negb (OutMessage.resend_until_acked mi')) eqn:Hr.
      * apply IH. destruct Hlater as [H | [H | (-> & _ & H)]]; auto.
        destruct Hsame as (Hs & _). rewrite <- Hs, H in Hr. discriminate.
      * destruct Hlater as [H | [H | (-> & _)]].
        -- apply IH. left. apply in_or_app. left. exact H.
        -- apply IH. right. exact H.
        -- destruct (IH e' (count + 1) (kept ++ [mi']) mi') as (m' & Hin & Hs).
           { left. apply in_or_app. right. left. reflexivity. }
           exists m'. split; [exact Hin |].
           destruct Hsame as (A & B & C & D).
           destruct Hs as (A' & B' & C' & D').
           repeat split; congruence.
Qed.

Lemma encode_payload_cycle_reaches acked rest :
  forall e count kept,
    Forall (fun m => acked_reliable acked m = false) kept ->
    exists visited unvisited kept',
      rest = visited ++ unvisited
      /\ snd (encode_payload_cycle acked e count kept rest)
         = unvisited ++ kept'
      /\ Forall (fun m => acked_reliable acked m = false) kept'.
Proof.
  induction rest as [| mi rest IH]; intros e count kept H; simpl.
  - exists [], [], kept. auto.
  - fold (acked_reliable acked mi).
    assert (Hcons : forall e count kept,
              Forall (fun m => acked_reliable acked m = false) kept ->
              exists visited unvisited kept',
                mi :: rest = visited ++ unvisited
                /\ snd (encode_payload_cycle acked e count kept rest)
                   = unvisited ++ kept'
                /\ Forall (fun m => acked_reliable acked m = false) kept').
    { intros e0 c0 k0 H0.
      destruct (IH e0 c0 k0 H0) as (v & u & k' & -> & Hq & Hk).
      exists (mi :: v), u, k'. auto. }
    destruct (acked_reliable acked mi) eqn:Hm; [apply Hcons, H |].
    pose proof (try_encode_same_message e mi) as Hsame.
    destruct (try_encode e mi) as [[ok e'] mi']. simpl in Hsame.
    assert (Hm' : acked_reliable acked mi' = false).
    { rewrite (acked_reliable_same_message acked _ _ Hsame). exact Hm. }
    assert (Hbreak : exists visited unvisited kept',
              mi :: rest = visited ++ unvisited
              /\ TransmitQueue.after_break kept mi' rest = unvisited ++ kept'
              /\ Forall (fun m => acked_reliable acked m = false) kept').
    { exists [mi], rest, (kept ++ [mi']). split; [reflexivity |].
      split; [reflexivity |]. apply Forall_app. split; [exact H |].
      constructor; [exact Hm' | constructor]. }
    destruct ok; [| exact Hbreak].
    destruct (negb (_ =? _)); [exact Hbreak |].
    destruct (negb _); apply Hcons; [exact H |].
    apply Forall_app. split; [exact H |].
    constructor; [exact Hm' | constructor].
Qed.

Lemma pass_over_app acked pre :
  forall e count kept rest e' count' kept',
    pass_over acked e count kept pre = Some (e', count', kept') ->
    encode_payload_cycle acked e count kept (pre ++ rest)
    = encode_payload_cycle acked e' count' kept' rest.
Proof.
  induction pre as [| mi pre IH]; intros e count kept rest e' count' kept' H;
    simpl in *.
  - injection H as -> -> ->. reflexivity.
  - fold (acked_reliable acked mi).
    destruct (acked_reliable acked mi); [apply IH, H |].
    destruct (try_encode e mi) as [[[|] e1] mi1]; [| discriminate].
    destruct (negb (_ =? _)); [discriminate |].
    destruct (negb _); apply IH, H.
Qed.

Lemma encode_payload_cycle_breaks acked e count kept b tail :
  breaks_at acked e b ->
  snd (encode_payload_cycle acked e count kept (b :: tail))
  = tail ++ kept ++ [snd (try_encode e b)].
Proof.
  intros [Hb Hstop]. simpl. fold (acked_reliable acked b). rewrite Hb.
  destruct (try_encode e b) as [[[|] e1] b1]; simpl in *;
    [| reflexivity].
  destruct Hstop as [Hf | Hc]; [discriminate |].
  apply Z.eqb_neq in Hc. rewrite Hc. reflexivity.
Qed.

(** C6, as the code has it.  The peer-acked set is replaced by each decoded
    ack set.  A pass of encode_payload keeps every resend_until_acked
    message whose sequence number is not in that set (only its cursor may
    move) and encodes no part of a message whose number is in it.  An acked
    message is erased when the pass comes to it, wherever it stands in the
    queue: when the pass goes by all the messages before it, the pass is
    the same as on the queue without that message.  The pass breaks at the
    first message that does not fit in the packet or is sent only in part;
    the queue is then what was behind that message, untouched and with the
    acked messages still in it, followed by the messages kept on the way
    and the message the pass broke at. *)
Theorem C6_acked_reliable_message_erased_when_reached :
  (forall (acks : AckSet) (s : SocketImpl),
     received_message_ids_by_peer (handle_acks acks s) = acks)
  /\ (forall (e : encoder) (s : SocketImpl) m,
        In m (transmit_queue s) ->
        OutMessage.resend_until_acked m = true ->
        is_in (received_message_ids_by_peer s) (OutMessage.sequence_number m)
        = false ->
        exists m',
          In m' (transmit_queue (snd (encode_payload e s)))
          /\ OutMessage.same_message m m')
  /\ (forall (e : encoder) (s : SocketImpl),
        Forall (not_acked_part (received_message_ids_by_peer s)) (items e) ->
        Forall (not_acked_part (received_message_ids_by_peer s))
          (items (snd (fst (encode_payload e s)))))
  /\ (forall (e : encoder) (s : SocketImpl) pre m rest,
        transmit_queue s = pre ++ m :: rest ->
        acked_reliable (received_message_ids_by_peer s) m = true ->
        pass_over (received_message_ids_by_peer s) (put (wire_count 0) e) 0
          [] pre <> None ->
        encode_payload e s
        = encode_payload e (set_transmit_queue (pre ++ rest) s))
  /\ (forall (e : encoder) (s : SocketImpl) pre b tail e1 count1 kept1,
        transmit_queue s = pre ++ b :: tail ->
        pass_over (received_message_ids_by_peer s) (put (wire_count 0) e) 0
          [] pre = Some (e1, count1, kept1) ->
        breaks_at (received_message_ids_by_peer s) e1 b ->
        transmit_queue (snd (encode_payload e s))
        = tail ++ kept1 ++ [snd (try_encode e1 b)]
        /\ Forall (fun m => acked_reliable (received_message_ids_by_peer s) m
                            = false) kept1).
Proof.
  split; [reflexivity | split; [| split; [| split]]].
  - intros e s m Hin Hr Hacked. unfold encode_payload.
    destruct (encode_payload_cycle_retains (received_message_ids_by_peer s)
                (transmit_queue s) (put (wire_count 0) e) 0 [] m)
      as (m' & Hin' & Hs).
    { right. split; [exact Hin | split; [| exact Hr]].
      unfold acked_reliable. rewrite Hr, Hacked. reflexivity. }
    destruct (encode_payload_cycle _ _ _ _ _) as [[c e'] q].
    exists m'. split; [exact Hin' | exact Hs].
  - intros e s H. unfold encode_payload.
    pose proof (encode_payload_cycle_items (received_message_ids_by_peer s)
                  (transmit_queue s) (put (wire_count 0) e) 0 []
                  (put_items (not_acked_part (received_message_ids_by_peer s))
                     (wire_count 0) e I H)) as Hi.
    destruct (encode_payload_cycle _ _ _ _ _) as [[c e'] q]. simpl in *.
    unfold put_count_at. destruct (error e); [exact Hi |].
    destruct (2 <=? _); [| exact Hi]. simpl.
    apply replace_nth_items; [exact I | exact Hi].
  - intros e s pre m rest Hq Hm Hpass. unfold encode_payload.
    change (transmit_queue (set_transmit_queue (pre ++ rest) s))
      with (pre ++ rest).
    change (received_message_ids_by_peer
              (set_transmit_queue (pre ++ rest) s))
      with (received_message_ids_by_peer s).
    rewrite Hq.
    destruct (pass_over _ _ _ _ pre) as [[[e1 c1] k1] |] eqn:Hp;
      [| contradiction].
    rewrite (pass_over_app _ _ _ _ _ (m :: rest) _ _ _ Hp).
    rewrite (pass_over_app _ _ _ _ _ rest _ _ _ Hp).
    cbn [encode_payload_cycle].
    fold (acked_reliable (received_message_ids_by_peer s) m). rewrite Hm.
    destruct (encode_payload_cycle _ e1 c1 k1 rest) as [[c e'] q].
    reflexivity.
  - intros e s pre b tail e1 count1 kept1 Hq Hp Hb. split.
    + unfold encode_payload. rewrite Hq.
      rewrite (pass_over_app _ _ _ _ _ (b :: tail) _ _ _ Hp).
      pose proof (encode_payload_cycle_breaks _ e1 count1 kept1 b tail Hb)
        as Hq'.
      destruct (encode_payload_cycle _ e1 count1 kept1 (b :: tail))
        as [[c e'] q]. exact Hq'.
    + clear Hq Hb.
      assert (Hgen : forall pre e0 c0 k0,
                Forall (fun m => acked_reliable
                                   (received_message_ids_by_peer s) m
                                 = false) k0 ->
                pass_over (received_message_ids_by_peer s) e0 c0 k0 pre
                = Some (e1, count1, kept1) ->
                Forall (fun m => acked_reliable
                                   (received_message_ids_by_peer s) m
                                 = false) kept1).
      { clear pre Hp. induction pre as [| mi pre IH];
          intros e0 c0 k0 Hk H; simpl in H.
        - injection H as _ _ <-. exact Hk.
        - destruct (acked_reliable _ mi) eqn:Hmi; [exact (IH _ _ _ Hk H) |].
          pose proof (try_encode_same_message e0 mi) as Hsame.
          destruct (try_encode e0 mi) as [[[|] e2] mi2]; [| discriminate].
          simpl in Hsame.
          destruct (negb (_ =? _)); [discriminate |].
          destruct (negb _); [exact (IH _ _ _ Hk H) |].
          eapply (IH _ _ (k0 ++ [mi2])); [| exact H].
          apply Forall_app. split; [exact Hk |].
          constructor; [| constructor].
          rewrite (acked_reliable_same_message _ _ _ Hsame). exact Hmi. }
      exact (Hgen pre _ _ [] (Forall_nil _) Hp).
Qed.

(** ** The reliable stream *)

Lemma sn_succ_small l : 0 <= l -> l + 1 < sn_modulus -> sn_succ l = l + 1.
Proof. intros H0 H1. unfold sn_succ. apply Z.mod_small. lia. Qed.

Lemma chain_increasing n :
  forall l,
    0 <= l -> l + Z.of_nat n < sn_modulus ->
    StronglySorted Z.lt (chain l n) /\ Forall (fun x => l < x) (chain l n).
Proof.
  induction n as [| n IH]; intros l H0 H1; simpl.
  - split; constructor.
  - rewrite sn_succ_small by lia.
    destruct (IH (l + 1)) as [Hs Hf]; [lia | lia |].
    split.
    + constructor; [exact Hs | exact Hf].
    + constructor; [lia |]. revert Hf. apply Forall_impl. intros x. lia.
Qed.

Lemma strongly_sorted_lt_nodup (l : list Z) :
  StronglySorted Z.lt l -> NoDup l.
Proof.
  induction 1 as [| x l _ IH Hx]; constructor; [| exact IH].
  intros Hin. rewrite Forall_forall in Hx. specialize (Hx x Hin). lia.
Qed.

Lemma user_handle_reliable_msg_pending msg (s : SocketImpl) :
  pending_reliable_messages (snd (user_handle_reliable_msg msg s))
  = pending_reliable_messages s.
Proof.
  unfold user_handle_reliable_msg.
  destruct (on_receive_reliable s) as [f |]; [| reflexivity].
  set (s1 := call_on_receive _ _ _ _ _ _).
  assert (H : pending_reliable_messages s1 = pending_reliable_messages s).
  { pose proof (call_on_receive_protocol_state reliable_stream f success
                  (Some (InMessageFull.sequence_number msg))
                  (InMessageFull.payload msg)
                  (set_on_receive_reliable None s)) as P.
    fold s1 in P. unfold protocol_state in P. simpl in P. congruence. }
  destruct (was_destroyed s1); simpl; [exact H |].
  unfold set_last_used_reliable_sn. simpl. destruct (sync s1); exact H.
Qed.

Lemma reliable_payloads_weaken (P Q : SequenceNumber -> list byte -> Prop)
    (e : @Event AckSet) :
  (forall sn buffer, P sn buffer -> Q sn buffer) ->
  reliable_payloads P e -> reliable_payloads Q e.
Proof.
  intros H. destruct e as [st ? sn ? | | | | | |]; try exact (fun x => x).
  destruct st, sn; try exact (fun x => x). apply H.
Qed.

Lemma handle_reliable_message_payloads msg (s : SocketImpl) :
  extends (reliable_payloads (whole_message msg s)) s
    (handle_reliable_message msg s).
Proof.
  unfold handle_reliable_message.
  set (s1 := set_schedule_sending_acks true s).
  assert (H1 : extends (reliable_payloads (whole_message msg s)) s s1).
  { apply quiet_payloads. unfold s1. framed s. }
  apply (extends_trans H1).
  assert (Hstore : extends (reliable_payloads (whole_message msg s)) s1
                     (store_reliable_part msg s1)).
  { unfold store_reliable_part.
    destruct (PendingMap.find _ _); [| apply quiet_payloads; framed s1].
    match goal with
    | |- extends _ _ (replay_pending_messages ?x) =>
        apply (@extends_trans _ s1 x);
        [apply quiet_payloads; framed s1 |]
    end.
    eapply extends_weaken; [| apply replay_loop_payloads].
    intros e. apply reliable_payloads_weaken. intros sn buffer H.
    right. right. exact H. }
  destruct (sync s1); [| apply extends_refl].
  destruct (negb _); [apply extends_refl |].
  destruct (is_next_expected _ s1); [| exact Hstore].
  destruct (InMessagePart.get_complete_message msg) as [full |] eqn:Hc;
    [| exact Hstore].
  pose proof (user_handle_reliable_msg_payloads (whole_message msg s) full s1)
    as Hu.
  pose proof (user_handle_reliable_msg_pending full s1) as Hp.
  destruct (user_handle_reliable_msg full s1) as [[|] s2]; simpl in Hu, Hp.
  - eapply extends_trans.
    + apply Hu. left. destruct full; exact (eq_sym (eq_sym Hc)).
    + eapply extends_weaken; [| apply replay_loop_payloads].
      intros e. apply reliable_payloads_weaken. intros sn buffer H.
      right. left. rewrite Hp in H. exact H.
  - apply Hu. left. destruct full; exact Hc.
Qed.

(** C1, as the code has it.  In any run from any state the messages handed
    to the reliable callback have consecutive sequence numbers, the first
    one following last_used_reliable_sn, and a run that leaves the endpoint
    alive ends with last_used_reliable_sn at the last number handed over; as
    long as the 32-bit counter does not wrap the numbers are strictly
    increasing and none occurs twice.  Whatever handle_reliable_message
    hands over is a whole message: the part itself when it is complete, or a
    complete entry of the pending map.  A delivery that returns true has
    called the registered callback, set last_used_reliable_sn to the number
    of the message and added it to the ack set.  A message is handed over
    only when its number follows last_used_reliable_sn and it is complete;
    it is handed over then when a callback is registered, the sync message
    has been seen and can_add accepts the number, and it is not when no
    callback is registered. *)
Theorem C1_reliable_messages_whole_and_in_order :
  (forall (s : SocketImpl) inputs,
     exists evs n l,
       trace (run s inputs) = trace s ++ evs
       /\ delivered reliable_stream evs = chain l n
       /\ (forall l0, last_delivered_reliable_sn s = Some l0 -> l = l0)
       /\ (was_destroyed (run s inputs) = false ->
           n <> O \/ last_delivered_reliable_sn s <> None ->
           last_delivered_reliable_sn (run s inputs)
           = Some (Nat.iter n sn_succ l))
       /\ (0 <= l -> l + Z.of_nat n < sn_modulus ->
           StronglySorted Z.lt (delivered reliable_stream evs)
           /\ NoDup (delivered reliable_stream evs)))
  /\ (forall (msg : InMessagePart.t) (s : SocketImpl),
        extends (reliable_payloads (whole_message msg s)) s
          (handle_reliable_message msg s))
  /\ (forall (full : InMessageFull.t) (s s' : SocketImpl),
        user_handle_reliable_msg full s = (true, s') ->
        on_receive_reliable s <> None
        /\ received_message_ids s'
           = try_add (received_message_ids s)
               (InMessageFull.sequence_number full)
        /\ (sync s <> None ->
            last_delivered_reliable_sn s'
            = Some (InMessageFull.sequence_number full))
        /\ exists evs,
             trace s'
             = trace s
               ++ ev_on_receive reliable_stream success
                    (Some (InMessageFull.sequence_number full))
                    (InMessageFull.payload full) :: evs
             /\ Forall is_close_datagram evs)
  /\ (forall (full : InMessageFull.t) (s : SocketImpl),
        on_receive_reliable s = None ->
        user_handle_reliable_msg full s = (false, s))
  /\ (forall (msg : InMessagePart.t) (s : SocketImpl) y f,
        sync s = Some y ->
        can_add (received_message_ids s) (InMessagePart.sequence_number msg)
        = true ->
        on_receive_reliable s = Some f ->
        InMessagePart.sequence_number msg
        = sn_succ (last_used_reliable_sn y) ->
        InMessagePart.is_complete msg = true ->
        exists evs,
          trace (handle_reliable_message msg s)
          = trace s
            ++ ev_on_receive reliable_stream success
                 (Some (InMessagePart.sequence_number msg))
                 (InMessagePart.payload msg) :: evs).
Proof.
  split; [| split; [| split; [| split]]].
  - intros s inputs.
    destruct (run_in_order inputs s) as (evs & n & l & T & _ & C & L & F).
    exists evs, n, l.
    split; [exact T | split; [exact C | split; [exact L | split;
      [exact F |]]]].
    intros H0 H1. rewrite C.
    destruct (chain_increasing n l H0 H1) as [Hs _].
    split; [exact Hs | apply strongly_sorted_lt_nodup, Hs].
  - apply handle_reliable_message_payloads.
  - intros full s s' H.
    pose proof (user_handle_reliable_msg_cases full s) as Hc.
    destruct (on_receive_reliable s) as [f |]; [| congruence].
    destruct Hc as (s1 & s2 & evs & _ & E1 & _ & _ & E2 & E).
    rewrite E in H. destruct (was_destroyed s1); [discriminate |].
    injection H as <-.
    pose proof (call_on_receive_protocol_state reliable_stream f success
                  (Some (InMessageFull.sequence_number full))
                  (InMessageFull.payload full)
                  (set_on_receive_reliable None s)) as P.
    rewrite <- E1 in P. unfold protocol_state in P. simpl in P.
    injection P as _ Psync Pids _ _ _ _ _ _.
    destruct (call_on_receive_trace reliable_stream f success
                (Some (InMessageFull.sequence_number full))
                (InMessageFull.payload full)
                (set_on_receive_reliable None s)) as (evs' & T & F).
    rewrite <- E1 in T.
    split; [discriminate | split; [| split]].
    + rewrite E2. unfold set_last_used_reliable_sn. simpl.
      destruct (sync s1); simpl; rewrite Pids; reflexivity.
    + intros Hsync. rewrite E2.
      apply last_after_set_last_used_reliable_sn.
      unfold last_delivered_reliable_sn. simpl. rewrite Psync.
      destruct (sync s); [discriminate | contradiction].
    + exists evs'. split; [| exact F].
      rewrite E2, trace_set_last_used_reliable_sn. exact T.
  - intros full s H. unfold user_handle_reliable_msg. rewrite H. reflexivity.
  - intros msg s y f Hy Hadd Hf Hsn Hc. unfold handle_reliable_message.
    set (s1 := set_schedule_sending_acks true s).
    change (sync s1) with (sync s).
    change (received_message_ids s1) with (received_message_ids s).
    rewrite Hy, Hadd. simpl.
    unfold is_next_expected, next_expected_reliable_sn.
    change (sync s1) with (sync s). rewrite Hy, Hsn, Z.eqb_refl.
    unfold InMessagePart.get_complete_message. rewrite Hc.
    set (full := InMessageFull.mk _ _).
    pose proof (user_handle_reliable_msg_cases full s1) as Hcases.
    change (on_receive_reliable s1) with (on_receive_reliable s) in Hcases.
    rewrite Hf in Hcases.
    destruct Hcases as (s1' & s2 & evs & _ & _ & T & _ & E2 & ->).
    change (trace s1) with (trace s) in T.
    destruct (was_destroyed s1').
    + exists evs. rewrite <- Hsn. exact T.
    + destruct (replay_pending_messages_in_order s2)
        as (evs' & _ & _ & T' & _).
      exists (evs ++ evs'). rewrite T', E2, trace_set_last_used_reliable_sn.
      simpl. rewrite T, <- app_assoc, <- Hsn. reflexivity.
Qed.

(** ** The effects of each function *)

Lemma within_refl k (s : SocketImpl) : within k s s.
Proof.
  split; [apply extends_refl |]. split; [trivial |].
  split; [reflexivity |]. split; [reflexivity |]. split; [reflexivity |].
  split; reflexivity.
Qed.

Lemma within_trans [k] [s1 s2 s3 : SocketImpl] :
  within k s1 s2 -> within k s2 s3 -> within k s1 s3.
Proof.
  intros (E1 & D1 & R1 & U1 & P1 & S1 & L1)
         (E2 & D2 & R2 & U2 & P2 & S2 & L2).
  split; [exact (extends_trans E1 E2) |]. split; [auto |].
  split; [congruence |]. split; [congruence |]. split; [congruence |].
  split; intros H; [rewrite (S2 H) | rewrite (L2 H)]; auto.
Qed.

Lemma within_frame [k] [s s' : SocketImpl] :
  trace s' = trace s ->
  (was_destroyed s = true -> was_destroyed s' = true) ->
  next_reliable_sn s' = next_reliable_sn s ->
  next_unreliable_sn s' = next_unreliable_sn s ->
  received_message_ids_by_peer s' = received_message_ids_by_peer s ->
  (sends k = false -> send_state s' = send_state s) ->
  (delivers_unreliable k = false ->
   last_delivered_unreliable_sn s' = last_delivered_unreliable_sn s) ->
  forall s0, within k s0 s -> within k s0 s'.
Proof.
  intros Ht Hd Hr Hu Hp Hs Hl s0 H. apply (within_trans H).
  split; [exists []; split; [rewrite Ht; symmetry; apply app_nil_r
                            | constructor] |].
  auto 10.
Qed.

Lemma within_log k e s0 (s : SocketImpl) :
  allowed k e -> within k s0 s -> within k s0 (log_event e s).
Proof.
  intros He H. apply (within_trans H).
  split; [apply extends_log, He |]. split; [trivial |].
  split; [reflexivity |]. split; [reflexivity |]. split; [reflexivity |].
  split; reflexivity.
Qed.

Create HintDb within.

Ltac within_step :=
  match goal with
  | H : within ?k ?s0 ?s |- within ?k ?s0 ?s => exact H
  | |- within _ ?s ?s => apply within_refl
  | |- within _ _ (log_event _ _) =>
      apply within_log; [solve [exact I | assumption] |]
  | |- within _ _ (_ _ ?s) =>
      apply (@within_frame _ s);
      [reflexivity | exact (fun H => H) | reflexivity | reflexivity
       | reflexivity
       | solve [intros _; reflexivity | intros; congruence
               | intros H; simpl in H; discriminate H]
       | solve [intros _; reflexivity | intros; congruence
               | intros H; simpl in H; discriminate H] |]
  | |- within _ _ (if ?b then _ else _) => destruct b eqn:?
  | |- within _ _ (match ?x with _ => _ end) => destruct x eqn:?
  end.
#[local] Hint Extern 1 (within _ _ _) => within_step : within.

Ltac within_body := solve [eauto 40 with within].

Lemma sync_send_close_message_within k s0 (s : SocketImpl) :
  within k s0 s -> within k s0 (sync_send_close_message s).
Proof.
  intros H. unfold sync_send_close_message.
  destruct (construct_packet_with_one_message _ s) as [data m'].
  apply within_log; [exact I | exact H].
Qed.
#[local] Hint Resolve sync_send_close_message_within : within.

Lemma close_within k s0 (s : SocketImpl) :
  within k s0 s -> within k s0 (close s).
Proof. intros H. unfold close. within_body. Qed.
#[local] Hint Resolve close_within : within.

Lemma destroy_within k s0 (s : SocketImpl) :
  within k s0 s -> within k s0 (destroy s).
Proof.
  intros H. apply (@within_frame _ s); try reflexivity; try exact H;
    intros; reflexivity.
Qed.
#[local] Hint Resolve destroy_within : within.

Lemma run_user_within k code :
  forall s0 (s : SocketImpl), within k s0 s -> within k s0 (run_user code s).
Proof.
  induction code; intros s0 s H; simpl; destruct (was_destroyed s);
    try exact H; unfold receive_reliable, receive_unreliable, flush;
    within_body.
Qed.
#[local] Hint Resolve run_user_within : within.

Lemma call_if_set_within k st r e s0 (s : SocketImpl) :
  within k s0 s -> within k s0 (call_if_set st r e s).
Proof.
  intros H. unfold call_if_set, call_on_receive. destruct r; [| exact H].
  apply run_user_within, within_log; [| exact H].
  destruct st; exact I.
Qed.
#[local] Hint Resolve call_if_set_within : within.

Lemma call_reliable_within k f e sn buffer s0 (s : SocketImpl) :
  within k s0 s ->
  within k s0 (call_on_receive reliable_stream f e sn buffer s).
Proof.
  intros H. unfold call_on_receive.
  apply run_user_within, within_log; [exact I | exact H].
Qed.
#[local] Hint Resolve call_reliable_within : within.

Lemma call_unreliable_within k f e sn buffer s0 (s : SocketImpl) :
  delivers_unreliable k = true ->
  within k s0 s ->
  within k s0 (call_on_receive unreliable_stream f e sn buffer s).
Proof.
  intros Hk H. unfold call_on_receive.
  apply run_user_within, within_log; [| exact H].
  destruct sn; [exact Hk | exact I].
Qed.
#[local] Hint Resolve call_unreliable_within : within.

Lemma handle_error_within k err s0 (s : SocketImpl) :
  within k s0 s -> within k s0 (handle_error err s).
Proof. intros H. unfold handle_error. within_body. Qed.
#[local] Hint Resolve handle_error_within : within.

Lemma on_receive_error_within k err s0 (s : SocketImpl) :
  within k s0 s -> within k s0 (on_receive_error err s).
Proof. intros H. unfold on_receive_error. within_body. Qed.
#[local] Hint Resolve on_receive_error_within : within.

Lemma start_receiving_within k s0 (s : SocketImpl) :
  posts_receive k = true ->
  within k s0 s -> within k s0 (start_receiving s).
Proof. intros Hk H. unfold start_receiving. within_body. Qed.
#[local] Hint Resolve start_receiving_within : within.

Lemma handle_close_message_within k s0 (s : SocketImpl) :
  within k s0 s -> within k s0 (handle_close_message s).
Proof. intros H. unfold handle_close_message. within_body. Qed.
#[local] Hint Resolve handle_close_message_within : within.

Lemma set_last_used_unreliable_sn_within k sn s0 (s : SocketImpl) :
  delivers_unreliable k = true ->
  within k s0 s -> within k s0 (set_last_used_unreliable_sn sn s).
Proof.
  intros Hk H. unfold set_last_used_unreliable_sn.
  destruct (sync s) as [y |] eqn:Hy; [| exact H]. within_body.
Qed.
#[local] Hint Resolve set_last_used_unreliable_sn_within : within.

Lemma set_last_used_reliable_sn_within k sn s0 (s : SocketImpl) :
  within k s0 s -> within k s0 (set_last_used_reliable_sn sn s).
Proof.
  intros H. unfold set_last_used_reliable_sn.
  destruct (sync s) as [y |] eqn:Hy; [| exact H].
  apply (@within_frame _ s); try reflexivity; try exact H; trivial.
  intros _. unfold last_delivered_unreliable_sn. simpl. rewrite Hy.
  reflexivity.
Qed.
#[local] Hint Resolve set_last_used_reliable_sn_within : within.

Lemma handle_unreliable_message_within k msg s0 (s : SocketImpl) :
  delivers_unreliable k = true ->
  within k s0 s -> within k s0 (handle_unreliable_message msg s).
Proof. intros Hk H. unfold handle_unreliable_message. within_body. Qed.
#[local] Hint Resolve handle_unreliable_message_within : within.

Lemma handle_sync_message_within k msg s0 (s : SocketImpl) :
  delivers_unreliable k = true ->
  within k s0 s -> within k s0 (handle_sync_message msg s).
Proof. intros Hk H. unfold handle_sync_message. within_body. Qed.
#[local] Hint Resolve handle_sync_message_within : within.

Lemma user_handle_reliable_msg_within k msg s0 (s : SocketImpl) :
  within k s0 s -> within k s0 (snd (user_handle_reliable_msg msg s)).
Proof.
  intros H. unfold user_handle_reliable_msg.
  destruct (on_receive_reliable s) as [f |]; [| exact H].
  destruct (was_destroyed _) eqn:Hd; simpl; within_body.
Qed.

Lemma replay_loop_within k rest :
  forall kept s0 (s : SocketImpl),
    within k s0 s -> within k s0 (replay_loop kept rest s).
Proof.
  induction rest as [| [key pm] rest IH]; intros kept s0 s H; simpl;
    [exact H |].
  destruct (is_next_expected _ s); [| apply IH, H].
  destruct (PendingMessage.get_complete_message pm) as [full |]; [| exact H].
  pose proof (user_handle_reliable_msg_within k full s0 s H) as Hu.
  destruct (user_handle_reliable_msg full s) as [[|] s']; simpl in Hu;
    [| exact Hu].
  apply IH. within_body.
Qed.

Lemma replay_pending_messages_within k s0 (s : SocketImpl) :
  within k s0 s -> within k s0 (replay_pending_messages s).
Proof. intros H. apply replay_loop_within, H. Qed.
#[local] Hint Resolve replay_pending_messages_within : within.

Lemma store_reliable_part_within k msg s0 (s : SocketImpl) :
  within k s0 s -> within k s0 (store_reliable_part msg s).
Proof. intros H. unfold store_reliable_part. within_body. Qed.
#[local] Hint Resolve store_reliable_part_within : within.

Lemma handle_reliable_message_within k msg s0 (s : SocketImpl) :
  within k s0 s -> within k s0 (handle_reliable_message msg s).
Proof.
  intros H. unfold handle_reliable_message. cbv zeta.
  change (sync (set_schedule_sending_acks true s)) with (sync s).
  assert (H1 : within k s0 (set_schedule_sending_acks true s))
    by within_body.
  destruct (sync s); [| exact H1].
  destruct (negb _); [exact H1 |].
  destruct (is_next_expected _ _); [| within_body].
  destruct (InMessagePart.get_complete_message msg) as [full |];
    [| within_body].
  pose proof (user_handle_reliable_msg_within k full s0 _ H1) as Hu.
  destruct (user_handle_reliable_msg full _) as [[|] s']; simpl in Hu;
    [| exact Hu].
  within_body.
Qed.
#[local] Hint Resolve handle_reliable_message_within : within.

Lemma encode_payload_within k e s0 (s : SocketImpl) :
  within k s0 s -> within k s0 (snd (encode_payload e s)).
Proof.
  intros H. unfold encode_payload.
  destruct (encode_payload_cycle _ _ _ _ _) as [[count e'] q]. simpl.
  within_body.
Qed.

Lemma start_sending_within k s0 (s : SocketImpl) :
  sends k = true ->
  within k s0 s -> within k s0 (start_sending s).
Proof.
  intros Hk H. unfold start_sending.
  destruct (negb (socket_is_open s)); [exact H |].
  destruct (send_state s); try exact H.
  set (e0 := put _ (encoder_on packet_size)).
  pose proof (encode_payload_within k e0 s0 s H) as Hq.
  destruct (encode_payload e0 s) as [[count e] s1]. simpl in Hq.
  destruct (_ && _); within_body.
Qed.
#[local] Hint Resolve start_sending_within : within.

Lemma add_message_within k r ty sn data s0 (s : SocketImpl) :
  within k s0 s -> within k s0 (add_message r ty sn data s).
Proof. intros H. unfold add_message. within_body. Qed.
#[local] Hint Resolve add_message_within : within.

Lemma handle_message_within k msg s0 (s : SocketImpl) :
  sends k = true -> delivers_unreliable k = true ->
  within k s0 s -> within k s0 (handle_message msg s).
Proof. intros Hs Hu H. unfold handle_message. within_body. Qed.
#[local] Hint Resolve handle_message_within : within.

Lemma on_receive_loop_within k count :
  forall parts s0 (s : SocketImpl),
    sends k = true -> delivers_unreliable k = true ->
    posts_receive k = true ->
    within k s0 s -> within k s0 (on_receive_loop count parts s).
Proof.
  induction count as [| count IH]; intros parts s0 s Hs Hu Hp H; simpl;
    [within_body |].
  destruct parts as [| [m |] parts]; within_body.
Qed.

Lemma call_on_connect_within k on_connect err s0 (s : SocketImpl) :
  within k s0 s -> within k s0 (call_on_connect on_connect err s).
Proof. intros H. unfold call_on_connect. within_body. Qed.
#[local] Hint Resolve call_on_connect_within : within.

Lemma on_punch_within k err remote_ep syn on_connect s0 (s : SocketImpl) :
  sends k = true -> posts_receive k = true ->
  within k s0 s -> within k s0 (on_punch err remote_ep syn on_connect s).
Proof. intros Hs Hp H. unfold on_punch. within_body. Qed.

Lemma within_trace [k] [s s' : SocketImpl] :
  within k s s' -> exists evs, trace s' = trace s ++ evs.
Proof. intros ((evs & Ht & _) & _). exists evs. exact Ht. Qed.

(** ** The source filter of the receive path *)

Lemma in_order_part_is_handed_over msg (s : SocketImpl) y f :
  sync s = Some y ->
  can_add (received_message_ids s) (InMessagePart.sequence_number msg)
  = true ->
  on_receive_reliable s = Some f ->
  InMessagePart.sequence_number msg = sn_succ (last_used_reliable_sn y) ->
  InMessagePart.is_complete msg = true ->
  exists evs,
    trace (handle_reliable_message msg s)
    = trace s
      ++ ev_on_receive reliable_stream success
           (Some (InMessagePart.sequence_number msg))
           (InMessagePart.payload msg) :: evs.
Proof.
  intros Hy Hadd Hf Hsn Hc. unfold handle_reliable_message.
  set (s1 := set_schedule_sending_acks true s).
  change (sync s1) with (sync s).
  change (received_message_ids s1) with (received_message_ids s).
  rewrite Hy, Hadd. simpl.
  unfold is_next_expected, next_expected_reliable_sn.
  change (sync s1) with (sync s). rewrite Hy, Hsn, Z.eqb_refl.
  unfold InMessagePart.get_complete_message. rewrite Hc.
  set (full := InMessageFull.mk _ _).
  pose proof (user_handle_reliable_msg_cases full s1) as Hcases.
  change (on_receive_reliable s1) with (on_receive_reliable s) in Hcases.
  rewrite Hf in Hcases.
  destruct Hcases as (s1' & s2 & evs & _ & _ & T & _ & E2 & ->).
  change (trace s1) with (trace s) in T.
  destruct (was_destroyed s1').
  - exists evs. rewrite <- Hsn. exact T.
  - destruct (replay_pending_messages_in_order s2)
      as (evs' & _ & _ & T' & _).
    exists (evs ++ evs'). rewrite T', E2, trace_set_last_used_reliable_sn.
    simpl. rewrite T, <- app_assoc, <- Hsn. reflexivity.
Qed.

Lemma on_receive_decode_processed dg (s s1 : SocketImpl) :
  trace s1 = trace s ->
  close_datagram s1 = close_datagram s ->
  on_receive_unreliable s1 = on_receive_unreliable s ->
  on_receive_reliable s1 = on_receive_reliable s ->
  sync s1 = sync s ->
  received_message_ids s1 = received_message_ids s ->
  processed dg s (on_receive_decode dg s1).
Proof.
  intros Ht Hc Hu Hr Hy Hi. unfold on_receive_decode.
  split; [| split].
  - intros acks Ha. rewrite Ha.
    destruct (on_receive_loop_within any_effect
                (Z.to_nat (dg_message_count dg)) (dg_parts dg)
                (handle_acks acks s1) (handle_acks acks s1)
                eq_refl eq_refl eq_refl (within_refl _ _))
      as (_ & _ & _ & _ & Hp & _).
    rewrite Hp. reflexivity.
  - intros Ha. rewrite Ha.
    destruct (handle_error_effect parse_error s1) as [(Ho & _) Hte].
    split; [exact Ho |]. rewrite Hte, Ht, Hc, Hu, Hr. reflexivity.
  - intros acks msg rest y f Ha Hn Hp Hty Hs Hcan Hf Hsn Hcm.
    rewrite Ha, Hp.
    destruct (Z.to_nat (dg_message_count dg)) as [| n] eqn:En; [lia |].
    cbn [on_receive_loop].
    set (s2 := handle_acks acks s1).
    destruct (in_order_part_is_handed_over msg s2 y f) as (evs & Te);
      try assumption.
    { unfold s2, handle_acks. simpl. rewrite Hy. exact Hs. }
    { unfold s2, handle_acks. simpl. rewrite Hi. exact Hcan. }
    { unfold s2, handle_acks. simpl. rewrite Hr. exact Hf. }
    assert (Tm : exists evs',
              trace (handle_message msg s2)
              = trace (handle_reliable_message msg s2) ++ evs').
    { unfold handle_message. rewrite Hty.
      destruct (was_destroyed (handle_reliable_message msg s2)).
      - exists []. symmetry. apply app_nil_r.
      - apply (@within_trace any_effect).
        apply start_sending_within; [reflexivity | apply within_refl]. }
    destruct Tm as (evs' & Tm).
    assert (Tl : exists evs'',
              trace (if was_destroyed (handle_message msg s2)
                     then handle_message msg s2
                     else if negb (socket_is_open (handle_message msg s2))
                          then handle_message msg s2
                          else on_receive_loop n rest (handle_message msg s2))
              = trace (handle_message msg s2) ++ evs'').
    { destruct (was_destroyed (handle_message msg s2));
        [exists []; symmetry; apply app_nil_r |].
      destruct (negb _); [exists []; symmetry; apply app_nil_r |].
      apply (@within_trace any_effect).
      apply on_receive_loop_within; try reflexivity. apply within_refl. }
    destruct Tl as (evs'' & Tl).
    exists (evs ++ evs' ++ evs''). rewrite Tl, Tm, Te.
    change (trace s2) with (trace s1). rewrite Ht, <- !app_assoc.
    reflexivity.
Qed.

(** C10.  A datagram that completes a receive without error on a live
    endpoint is compared with the bound remote endpoint only when the address
    of that endpoint is specified.  With an unspecified address it is
    processed whatever its source: its ack set replaces the set of ids
    acked by the peer and its parts are handled, so that a complete
    reliable message the endpoint waits for is handed to the callback.
    With a specified address it is processed in the same way when its
    source is the remote endpoint; from any other source it is dropped:
    nothing of it is taken, no callback is called, and the receive is
    posted again with the timeout armed. *)
Theorem C10_source_checked_only_when_remote_specified
    (s : SocketImpl) (source : udp_endpoint) (dg : Datagram) :
  was_destroyed s = false ->
  let s' := on_receive success source dg s in
  (is_unspecified (address (remote_endpoint s)) = true ->
   processed dg s s')
  /\ (is_unspecified (address (remote_endpoint s)) = false ->
      endpoint_eqb source (remote_endpoint s) = true ->
      processed dg s s')
  /\ (is_unspecified (address (remote_endpoint s)) = false ->
      endpoint_eqb source (remote_endpoint s) = false ->
      trace s' = trace s ++ [ev_async_receive_from]
      /\ protocol_state s' = protocol_state s
      /\ on_receive_reliable s' = on_receive_reliable s
      /\ on_receive_unreliable s' = on_receive_unreliable s
      /\ socket_is_open s' = socket_is_open s
      /\ recv_timeout_alarm s' = Some 1000).
Proof.
  intros Hd s'.
  set (s1 := set_rx_endpoint source (set_recv_timeout_alarm None s)).
  assert (E : s' = if negb (is_unspecified (address (remote_endpoint s)))
                   then if negb (endpoint_eqb source (remote_endpoint s))
                        then start_receiving s1
                        else on_receive_decode dg s1
                   else on_receive_decode dg s1).
  { unfold s', on_receive. rewrite Hd. reflexivity. }
  clearbody s'.
  assert (Hp : processed dg s (on_receive_decode dg s1)).
  { apply on_receive_decode_processed; reflexivity. }
  split; [| split].
  - intros Hu. rewrite Hu in E. simpl in E. subst s'. exact Hp.
  - intros Hu He. rewrite Hu, He in E. simpl in E. subst s'. exact Hp.
  - intros Hu He. rewrite Hu, He in E. simpl in E. subst s'.
    repeat split; reflexivity.
Qed.

End SocketProperties.

(** * The properties at work *)

Lemma C1_witness :
  exists evs,
    trace (handle_reliable_message (whole_part 1 [x01])
             (receive_reliable done synced))
    = trace (receive_reliable done synced)
      ++ ev_on_receive reliable_stream success (Some 1) [x01] :: evs.
Proof.
  destruct C1_reliable_messages_whole_and_in_order as (_ & _ & _ & _ & H).
  exact (H (whole_part 1 [x01]) (receive_reliable done synced)
           (mk_Sync 0 0) done eq_refl eq_refl eq_refl eq_refl eq_refl).
Defined.

(** Message 2 is complete and follows last_used_reliable_sn = 1, can_add
    accepts it, and it is not handed over: the callback that took message 1
    did not register itself again. *)
Lemma C1_counterexample :
  last_delivered_reliable_sn took_one = Some 1
  /\ InMessagePart.sequence_number (whole_part 2 [x02]) = sn_succ 1
  /\ InMessagePart.is_complete (whole_part 2 [x02]) = true
  /\ can_add (received_message_ids took_one) 2 = true
  /\ delivered reliable_stream (trace took_one) = [1]
  /\ delivered reliable_stream
       (trace (handle_reliable_message (whole_part 2 [x02]) took_one)) = [1].
Proof. vm_compute. repeat split. Qed.

Lemma C3_witness :
  on_receive (io_error 5) peer (datagram []) idle
  = call_if_set reliable_stream (on_receive_reliable idle) (io_error 5)
      (call_if_set unreliable_stream (on_receive_unreliable idle) (io_error 5)
         (set_on_receive_reliable None
            (set_on_receive_unreliable None
               (set_recv_timeout_alarm None idle)))).
Proof.
  exact (proj1 (C3_receive_error_calls_back_without_closing
                  idle (io_error 5) peer (datagram []) eq_refl eq_refl)).
Defined.

(** The receive fails with an error that is not a cancellation; both
    callbacks are called with it, and the socket stays open with the
    keepalive alarm armed. *)
Lemma C3_counterexample :
  socket_is_open idle = true
  /\ send_keepalive_alarm idle = Some 200
  /\ trace (step idle (udp_receive (io_error 5) peer (datagram [])))
     = trace idle
       ++ [ev_on_receive unreliable_stream (io_error 5) None [];
           ev_on_receive reliable_stream (io_error 5) None []]
  /\ socket_is_open (step idle (udp_receive (io_error 5) peer (datagram [])))
     = true
  /\ send_keepalive_alarm
       (step idle (udp_receive (io_error 5) peer (datagram [])))
     = Some 200.
Proof. vm_compute. repeat split. Qed.

Lemma C5_witness :
  written
    (snd (fst (encode_payload
                 (put (wire_acks (received_message_ids connected))
                    (encoder_on packet_size))
                 (add_message true MessageType.reliable 0 (repeat x00 4000)
                    connected))))
  <= packet_size.
Proof.
  destruct (@C5_datagrams_fit_in_packet_size AckSetModel.t _ _)
    as (_ & _ & _ & _ & H).
  destruct (H (add_message true MessageType.reliable 0 (repeat x00 4000)
                 connected) eq_refl eq_refl eq_refl) as (_ & _ & _ & Hw).
  exact Hw.
Defined.

Lemma C8_witness :
  handle_reliable_message (whole_part 1 [x01]) synced
  = set_schedule_sending_acks true synced
  /\ ((exists evs,
         trace (replay_pending_messages holding_one)
         = trace holding_one ++ evs
         /\ delivered reliable_stream evs = [1])
      /\ pending_reliable_messages (replay_pending_messages holding_one)
         = []).
Proof.
  destruct (@C8_without_callback_kept_only_if_already_pending
              AckSetModel.t _ _) as (_ & _ & _ & Hdrop & _ & Hlater).
  split.
  - exact (Hdrop (whole_part 1 [x01]) synced eq_refl eq_refl eq_refl).
  - apply (Hlater holding_one (mk_Sync 0 0) O []
             1 (PendingMessage.mk 1 2 [x01; x02] [(1, 2); (0, 1)]) []).
    + reflexivity.
    + reflexivity.
    + reflexivity.
    + reflexivity.
    + constructor.
    + reflexivity.
    + reflexivity.
    + constructor.
Defined.

(** No callback is registered when the complete message 1, the one the
    endpoint waits for, arrives: it is not handed over, and it is not in
    the pending map either. *)
Lemma C8_counterexample :
  on_receive_reliable synced = None
  /\ is_next_expected 1 synced = true
  /\ can_add (received_message_ids synced) 1 = true
  /\ InMessagePart.is_complete (whole_part 1 [x01]) = true
  /\ delivered reliable_stream
       (trace (handle_reliable_message (whole_part 1 [x01]) synced)) = []
  /\ PendingMap.find 1
       (pending_reliable_messages
          (handle_reliable_message (whole_part 1 [x01]) synced)) = None.
Proof. vm_compute. repeat split. Qed.



Lemma C4_witness :
  unreliable_delivery done 3 [x01; x02] holding_fragment
    (set_pending_unreliable_message
       (Some (PendingMessage.mk 3 2 [x01; x02] [(1, 2); (0, 1)]))
       holding_fragment)
    (handle_unreliable_message
       (fragment MessageType.unreliable 3 2 1 [x02]) holding_fragment).
Proof.
  exact (proj1 (proj2 (C4_unreliable_delivery_and_single_slot
                         (fragment MessageType.unreliable 3 2 1 [x02])
                         holding_fragment))
           done (mk_Sync 0 0) eq_refl eq_refl eq_refl).
Defined.

(** The sync message has been seen, the pending slot is empty and no
    unreliable callback is registered.  The first fragment of message 3,
    newer than the last one handed over, arrives: it is not stored.  The
    callback is registered and the second fragment arrives: the message is
    not handed over, and the slot holds the second fragment alone. *)
Lemma C4_counterexample :
  on_receive_unreliable in_sync = None
  /\ last_delivered_unreliable_sn in_sync = Some 0
  /\ pending_unreliable_message in_sync = None
  /\ pending_unreliable_message
       (handle_unreliable_message
          (fragment MessageType.unreliable 3 2 0 [x01]) in_sync)
     = None
  /\ delivered unreliable_stream
       (trace (run in_sync
                 [udp_receive success peer
                    (datagram [fragment MessageType.unreliable 3 2 0 [x01]]);
                  user_receive_unreliable done;
                  udp_receive success peer
                    (datagram [fragment MessageType.unreliable 3 2 1 [x02]])]))
     = []
  /\ pending_unreliable_message
       (run in_sync
          [udp_receive success peer
             (datagram [fragment MessageType.unreliable 3 2 0 [x01]]);
           user_receive_unreliable done;
           udp_receive success peer
             (datagram [fragment MessageType.unreliable 3 2 1 [x02]])])
     = Some (PendingMessage.of_part
               (fragment MessageType.unreliable 3 2 1 [x02])).
Proof. vm_compute. repeat split. Qed.

Lemma C6_witness :
  encode_payload
    (put (wire_acks (received_message_ids (acked_behind 2000)))
       (encoder_on packet_size))
    (acked_behind 2000)
  = encode_payload
      (put (wire_acks (received_message_ids (acked_behind 2000)))
         (encoder_on packet_size))
      (set_transmit_queue [rest_of 2000] (acked_behind 2000))
  /\ transmit_queue
       (snd (encode_payload
               (put (wire_acks (received_message_ids (acked_behind 3000)))
                  (encoder_on packet_size))
               (acked_behind 3000)))
     = [syn_0;
        OutMessage.mk false MessageType.unreliable 1 (repeat x00 3000) 2860].
Proof.
  destruct (@C6_acked_reliable_message_erased_when_reached AckSetModel.t _ _)
    as (_ & _ & _ & Herased & Hbreak).
  split.
  - apply (Herased _ (acked_behind 2000) [rest_of 2000] syn_0 []).
    + reflexivity.
    + reflexivity.
    + vm_compute. discriminate.
  - destruct (Hbreak (put (wire_acks (received_message_ids (acked_behind 3000)))
                        (encoder_on packet_size))
                (acked_behind 3000) [] (rest_of 3000) [syn_0]
                _ 0 [] eq_refl eq_refl) as (Hq & _).
    + split; [reflexivity | right; vm_compute; discriminate].
    + rewrite Hq. vm_compute. reflexivity.
Defined.

(** Reliable message 0 is in the peer-acked set and in the queue, behind an
    unreliable message that fills the packet.  The send loop runs a pass of
    encode_payload and sends a packet; message 0 is still in the queue. *)
Lemma C6_counterexample :
  is_in (received_message_ids_by_peer acked_behind_large) 0 = true
  /\ existsb is_reliable_0 (transmit_queue acked_behind_large) = true
  /\ send_state acked_behind_large = waiting
  /\ send_state (step acked_behind_large (timer_fired success)) = sending
  /\ existsb is_reliable_0
       (transmit_queue (step acked_behind_large (timer_fired success)))
     = true.
Proof. vm_compute. repeat split. Qed.

Lemma C7_witness :
  trace (store_reliable_part (fragment MessageType.reliable 4 2 0 [x07])
           stale_then_two)
  = trace stale_then_two
  /\ ((exists evs,
         trace (replay_pending_messages stale_then_two)
         = trace stale_then_two ++ evs
         /\ delivered reliable_stream evs = [2; 3])
      /\ last_delivered_reliable_sn (replay_pending_messages stale_then_two)
         = Some 3
      /\ pending_reliable_messages (replay_pending_messages stale_then_two)
         = [(1, PendingMessage.mk 1 2 [x01; x00] [(0, 1)])]).
Proof.
  destruct (@C7_stored_part_replays_only_when_merged AckSetModel.t _ _)
    as (_ & Hcreate & _ & Hrun).
  split.
  - destruct (Hcreate (fragment MessageType.reliable 4 2 0 [x07])
                stale_then_two eq_refl) as (_ & _ & Ht).
    exact Ht.
  - apply (Hrun stale_then_two (mk_Sync 1 0) 1%nat
             [(1, PendingMessage.mk 1 2 [x01; x00] [(0, 1)])]
             [(2, PendingMessage.mk 2 2 [x03; x04] [(1, 2); (0, 1)]);
              (3, PendingMessage.mk 3 2 [x05; x06] [(1, 2); (0, 1)])]
             [] []).
    + reflexivity.
    + reflexivity.
    + reflexivity.
    + simpl. lia.
    + reflexivity.
    + repeat constructor.
    + simpl. auto.
    + split; constructor.
Defined.

(** Message 1 is complete in the pending map, it is the one the endpoint
    waits for and a callback is registered.  A first fragment of message 2
    arrives: an entry is created for it and nothing is handed over, where
    find-or-create, merge and replay would have handed over message 1. *)
Lemma C7_counterexample :
  can_add (received_message_ids holding_one) 2 = true
  /\ on_receive_reliable holding_one = Some done
  /\ last_delivered_reliable_sn holding_one = Some 0
  /\ option_map PendingMessage.is_complete
       (PendingMap.find 1 (pending_reliable_messages holding_one))
     = Some true
  /\ delivered reliable_stream
       (trace (handle_reliable_message
                 (fragment MessageType.reliable 2 2 0 [x05]) holding_one))
     = []
  /\ delivered reliable_stream
       (trace (store_reliable_part_as_specified
                 (fragment MessageType.reliable 2 2 0 [x05]) holding_one))
     = [1].
Proof. vm_compute. repeat split. Qed.



Lemma C10_witness :
  (received_message_ids_by_peer
     (on_receive success peer (datagram [whole_part 1 [x01]])
        (receive_reliable done in_sync))
   = AckSetModel.empty
   /\ exists evs,
        trace (on_receive success peer (datagram [whole_part 1 [x01]])
                 (receive_reliable done in_sync))
        = trace (receive_reliable done in_sync)
          ++ ev_on_receive reliable_stream success (Some 1) [x01] :: evs)
  /\ (exists evs,
        trace (on_receive success stranger (datagram [whole_part 1 [x01]])
                 unbound)
        = trace unbound
          ++ ev_on_receive reliable_stream success (Some 1) [x01] :: evs)
  /\ trace (on_receive success stranger (datagram [whole_part 1 [x01]])
              (receive_reliable done in_sync))
     = trace (receive_reliable done in_sync) ++ [ev_async_receive_from].
Proof.
  split; [| split].
  - destruct (C10_source_checked_only_when_remote_specified
                (receive_reliable done in_sync) peer
                (datagram [whole_part 1 [x01]]) eq_refl) as (_ & H & _).
    destruct (H eq_refl eq_refl) as (Ha & _ & Hd).
    split; [exact (Ha _ eq_refl) |].
    exact (Hd AckSetModel.empty (whole_part 1 [x01]) [] (mk_Sync 0 0) done
             eq_refl eq_refl eq_refl eq_refl eq_refl eq_refl eq_refl eq_refl
             eq_refl).
  - destruct (C10_source_checked_only_when_remote_specified
                unbound stranger (datagram [whole_part 1 [x01]]) eq_refl)
      as (H & _ & _).
    destruct (H eq_refl) as (_ & _ & Hd).
    exact (Hd AckSetModel.empty (whole_part 1 [x01]) [] (mk_Sync 0 0) done
             eq_refl eq_refl eq_refl eq_refl eq_refl eq_refl eq_refl eq_refl
             eq_refl).
  - destruct (C10_source_checked_only_when_remote_specified
                (receive_reliable done in_sync) stranger
                (datagram [whole_part 1 [x01]]) eq_refl) as (_ & _ & H).
    exact (proj1 (H eq_refl eq_refl)).
Defined.
